(** * RENEC harvesting scripts: registry builder and checkpointed extraction

    A shallow embedding of
    - [packages/renec-client/src/scripts/build_master_registries.py]
      (name normalisation, legal-form classification, the certifier and
      course registries, the EC-to-ECE matrix, the statistics, the choice
      of the input file),
    - [packages/renec-client/src/scripts/extract_certifiers_batch.py] and
      [packages/renec-client/src/scripts/extract_ec_details_playwright.py]
      (checkpoint store, retrying extractor, coordinator loop),
    - [packages/renec-client/src/scripts/check_extraction_status.py]
      (the verdict of the status checker),
    together with the properties of the design document that can be stated
    over it.

    Python [str] values are modelled as lists of code points restricted to
    the range U+0000..U+00FF (one [ascii] per code point); [len] is the list
    length and string comparison is lexicographic on code points. *)

From Stdlib Require Import List Ascii String Arith Bool Lia NArith.
From Stdlib Require Import DecimalString Permutation Sorted.
From Equations Require Import Equations.
Import ListNotations.

Set Implicit Arguments.

Abbreviation length := Datatypes.length.

(** ** Python strings *)

Definition str := list ascii.

(** A literal of the source, as a list of code points. *)
Definition py (x : string) : str := list_ascii_of_string x.

Definition ord (c : ascii) : N := N_of_ascii c.

Definition between (lo hi : N) (c : ascii) : bool :=
  (N.leb lo (ord c) && N.leb (ord c) hi)%bool.

(** [str.isspace] on one code point, which is also what [\s] matches in a
    [str] pattern: TAB..CR, FS..US, SPACE, NEL and NBSP. *)
Definition isspace (c : ascii) : bool :=
  between 9 13 c || between 28 32 c || N.eqb (ord c) 133 || N.eqb (ord c) 160.

(** Code points with a lower-case mapping: A-Z, and the upper-case letters
    of the Latin-1 supplement (U+00C0..U+00DE without the multiplication
    sign U+00D7). *)
Definition isupper (c : ascii) : bool :=
  between 65 90 c || (between 192 222 c && negb (N.eqb (ord c) 215)).

Definition lower1 (c : ascii) : ascii :=
  if isupper c then ascii_of_N (ord c + 32) else c.

(** [str.lower] *)
Definition lower (s : str) : str := map lower1 s.

Fixpoint lstrip (s : str) : str :=
  match s with
  | c :: s' => if isspace c then lstrip s' else s
  | [] => []
  end.

Definition rstrip (s : str) : str := rev (lstrip (rev s)).

(** [str.strip] with no argument *)
Definition strip (s : str) : str := rstrip (lstrip s).

Definition str_eqb (a b : str) : bool :=
  if list_eq_dec ascii_dec a b then true else false.

(** [a < b] on Python strings: lexicographic on code points, a proper prefix
    being smaller. *)
Fixpoint str_ltb (a b : str) : bool :=
  match a, b with
  | [], [] => false
  | [], _ :: _ => true
  | _ :: _, [] => false
  | x :: a', y :: b' =>
      if N.ltb (ord x) (ord y) then true
      else if N.ltb (ord y) (ord x) then false
      else str_ltb a' b'
  end.

Definition str_leb (a b : str) : bool := negb (str_ltb b a).

(** ** The fragment of Python's [re] used by the scripts

    A backtracking matcher in continuation-passing style: alternatives are
    tried left to right, [?] and [*] are greedy, and the first way through
    that lets the continuation succeed wins, as in CPython's engine.
    Repetition only occurs over character classes in the patterns of the
    scripts, so [Star] takes a class. *)

Inductive re : Type :=
| Chr (p : ascii -> bool)          (* one character of a class *)
| Seq (a b : re)                   (* ab *)
| Alt (a b : re)                   (* a|b *)
| Opt (a : re)                     (* a? *)
| Star (p : ascii -> bool)         (* [p]* *)
| Eol.                             (* $, without re.MULTILINE *)

Definition Plus (p : ascii -> bool) : re := Seq (Chr p) (Star p).

Fixpoint star (p : ascii -> bool) (k : str -> option str) (s : str)
  : option str :=
  match s with
  | c :: s' =>
      if p c
      then match star p k s' with Some r => Some r | None => k s end
      else k s
  | [] => k s
  end.

Fixpoint m (r : re) (s : str) (k : str -> option str) : option str :=
  match r with
  | Chr p =>
      match s with
      | c :: s' => if p c then k s' else None
      | [] => None
      end
  | Seq a b => m a s (fun s' => m b s' k)
  | Alt a b => match m a s k with Some x => Some x | None => m b s k end
  | Opt a => match m a s k with Some x => Some x | None => k s end
  | Star p => star p k s
  | Eol =>
      match s with
      | [] => k s
      | [c] => if Ascii.eqb c "010" then k s else None
      | _ => None
      end
  end.

(** [pattern.match(s)] at the start of [s]: what is left after the match. *)
Definition match_at (r : re) (s : str) : option str := m r s Some.

(** Number of characters the match at the start of [s] consumes. *)
Definition match_len (r : re) (s : str) : option nat :=
  match match_at r s with
  | Some rest => Some (length s - length rest)
  | None => None
  end.

(** [re.search(r, s)] as a truth value: a match at some position. *)
Fixpoint search (r : re) (s : str) : bool :=
  match match_at r s with
  | Some _ => true
  | None => match s with [] => false | _ :: s' => search r s' end
  end.

(** [re.sub(r, repl, s)] for a pattern that matches no empty string (none
    of the patterns below does): every leftmost non-overlapping match is
    replaced by [repl]. *)
Equations? sub (r : re) (repl : str) (s : str) : str by wf (length s) lt :=
  sub r repl [] := [];
  sub r repl (c :: s') with match_len r (c :: s') := {
    | Some (S n) := repl ++ sub r repl (skipn n s');
    | _ := c :: sub r repl s' }.
Proof.
  all: simpl; try rewrite length_skipn; lia.
Qed.

(** Literals under [re.I]: a letter matches in either case. *)
Definition ci (c : ascii) : re := Chr (fun x => Ascii.eqb (lower1 x) c).
Definition is_dot (c : ascii) : bool := Ascii.eqb c ".".
Definition dot_opt : re := Opt (Chr is_dot).
Definition ws_star : re := Star isspace.

(** [s\.?a\.?\s*de\s*c\.?v\.?] *)
Definition re_sa_de_cv : re :=
  Seq (ci "s") (Seq dot_opt (Seq (ci "a") (Seq dot_opt (Seq ws_star
  (Seq (ci "d") (Seq (ci "e") (Seq ws_star
  (Seq (ci "c") (Seq dot_opt (Seq (ci "v") dot_opt)))))))))).

(** [s\.?c\.?] *)
Definition re_sc : re := Seq (ci "s") (Seq dot_opt (Seq (ci "c") dot_opt)).

(** [a\.?c\.?] *)
Definition re_ac : re := Seq (ci "a") (Seq dot_opt (Seq (ci "c") dot_opt)).

(** [\s*(s\.?a\.?\s*de\s*c\.?v\.?|s\.?c\.?|a\.?c\.?)\s*$] *)
Definition re_suffix : re :=
  Seq ws_star (Seq (Alt re_sa_de_cv (Alt re_sc re_ac)) (Seq ws_star Eol)).

(** [\s+] *)
Definition re_ws : re := Plus isspace.

Definition is_punct (c : ascii) : bool :=
  Ascii.eqb c "." || Ascii.eqb c "," || Ascii.eqb c ";" || Ascii.eqb c ":".

(** [[.,;:]+] *)
Definition re_punct : re := Plus is_punct.

(** ** build_master_registries.py *)

Definition normalize_name (name : str) : str :=
  match name with
  | [] => []
  | _ =>
      let n := strip (lower name) in
      let n := sub re_suffix [] n in
      let n := sub re_ws (py " ") n in
      let n := sub re_punct [] n in
      strip n
  end.

Inductive entity_type_tag : Type := SA_de_CV | SC | AC | Unknown.

Record entity_info : Type := mk_info {
  original_name : str;
  normalized : str;
  entity_type : entity_type_tag }.

Definition extract_entity_info (name : str) : entity_info :=
  mk_info name (normalize_name name)
    (if search re_sa_de_cv name then SA_de_CV
     else if search re_sc name then SC
     else if search re_ac name then AC
     else Unknown).

(** *** Containers

    A [dict] is an association list in insertion order (the order in which
    CPython iterates it); assigning to a present key keeps its position.
    A [set] of strings is kept as a duplicate-free list in order of first
    insertion.  CPython iterates a set of strings in an order that follows
    the string hashes, seeded per process; the only place where the scripts
    iterate over a set other than to sort or count it is
    [max(names, key=len)], which takes the iteration order as an argument
    (see [max_by_len]). *)

Section Dict.
Variable V : Type.

Definition dict := list (str * V).

Fixpoint dict_get (d : dict) (k : str) : option V :=
  match d with
  | [] => None
  | (k', v) :: d' => if str_eqb k k' then Some v else dict_get d' k
  end.

Fixpoint dict_set (d : dict) (k : str) (v : V) : dict :=
  match d with
  | [] => [(k, v)]
  | (k', v') :: d' =>
      if str_eqb k k' then (k, v) :: d' else (k', v') :: dict_set d' k v
  end.

Definition dict_keys (d : dict) : list str := map fst d.
Definition dict_values (d : dict) : list V := map snd d.
End Dict.

Definition mem (x : str) (l : list str) : bool := existsb (str_eqb x) l.

(** [s.add(x)] *)
Definition set_add (x : str) (l : list str) : list str :=
  if mem x l then l else l ++ [x].

(** [set(l)] *)
Definition set_of_list (l : list str) : list str :=
  fold_left (fun acc x => set_add x acc) l [].

(** [s - {x}] *)
Definition set_remove (x : str) (l : list str) : list str :=
  filter (fun y => negb (str_eqb y x)) l.

(** [list.sort] / [sorted] are stable; so is insertion from the right. *)
Section Sort.
Variable A : Type.
Variable leb : A -> A -> bool.

Fixpoint insert (x : A) (l : list A) : list A :=
  match l with
  | [] => [x]
  | y :: l' => if leb x y then x :: l else y :: insert x l'
  end.

Definition sort (l : list A) : list A := fold_right insert [] l.
End Sort.

(** [sorted(l)] on a list of strings *)
Definition sorted_strs (l : list str) : list str := sort str_leb l.

(** [max(s, key=len)] over a set [s]: the first element of maximal length
    in the order in which iterating over the set yields its elements.  For
    a set of strings that order follows the string hashes, which CPython
    seeds per process: [order] maps the elements of the set, in the order
    in which they were added, to the order of iteration of the process at
    hand.  On an empty argument Python raises ValueError, which the
    builders never reach (a group is created together with its first
    name); the model yields the empty string there. *)
Fixpoint max_len_from (best : str) (l : list str) : str :=
  match l with
  | [] => best
  | x :: l' => max_len_from (if length best <? length x then x else best) l'
  end.

Definition max_by_len (order : list str -> list str) (l : list str) : str :=
  match order l with
  | [] => []
  | x :: l' => max_len_from x l'
  end.

(** [f"{n:05d}"] *)
Definition fmt05 (n : nat) : str :=
  let d := py (NilEmpty.string_of_uint (Nat.to_uint n)) in
  repeat "0"%char (5 - length d) ++ d.

(** *** Extraction records, as the builders read them (absent keys take the
    defaults of [data.get]) *)

Record ec_record : Type := mk_rec {
  title : str;
  certifiers : list str;
  courses : list str;
  occupations : list str;
  committee_members : list str }.

(** *** build_ece_registry *)

(** One value of [ece_map] ([first_seen] is never read or written). *)
Record ece_acc : Type := mk_acc {
  names : list str;
  acc_ec_codes : list str;
  acc_entity_type : option entity_type_tag }.

Definition ece_default : ece_acc := mk_acc [] [] None.

(** [not l] for a string or a list *)
Definition is_empty (A : Type) (l : list A) : bool :=
  match l with [] => true | _ => false end.

Definition unknown_or_none (t : option entity_type_tag) : bool :=
  match t with
  | None | Some Unknown => true
  | Some _ => false
  end.

(** Body of the inner loop over the certifiers of one EC. *)
Definition ece_step (ec_code : str) (ece_map : dict ece_acc) (cert_name : str)
  : dict ece_acc :=
  if is_empty cert_name || (length cert_name <? 3) then ece_map
  else
    let norm := normalize_name cert_name in
    if is_empty norm then ece_map
    else
      let ece := match dict_get ece_map norm with
                 | Some e => e
                 | None => ece_default
                 end in
      let info := extract_entity_info cert_name in
      dict_set ece_map norm
        (mk_acc (set_add cert_name (names ece))
                (set_add ec_code (acc_ec_codes ece))
                (if unknown_or_none (acc_entity_type ece)
                 then Some (entity_type info)
                 else acc_entity_type ece)).

Definition ece_collect (ec_data : dict ec_record) : dict ece_acc :=
  fold_left
    (fun mp kv => fold_left (ece_step (fst kv)) (certifiers (snd kv)) mp)
    ec_data [].

(** One registry entry.  Course entries carry no [entity_type] key. *)
Record entry : Type := mk_entry {
  id : str;
  canonical_name : str;
  alternate_names : list str;
  normalized_key : str;
  e_entity_type : option entity_type_tag;
  ec_codes : list str;
  ec_count : nat }.

Definition with_id (i : str) (e : entry) : entry :=
  mk_entry i (canonical_name e) (alternate_names e) (normalized_key e)
    (e_entity_type e) (ec_codes e) (ec_count e).

(** Sort key [(-x["ec_count"], x["canonical_name"])], compared as tuples. *)
Definition entry_leb (x y : entry) : bool :=
  if ec_count y <? ec_count x then true
  else if ec_count x <? ec_count y then false
  else str_leb (canonical_name x) (canonical_name y).

(** [for i, e in enumerate(registry): e["id"] = f"{prefix}{i + 1:05d}"],
    starting the enumeration at [i]. *)
Fixpoint assign_ids (prefix : str) (i : nat) (l : list entry) : list entry :=
  match l with
  | [] => []
  | e :: l' => with_id (prefix ++ fmt05 (i + 1)) e :: assign_ids prefix (S i) l'
  end.

(** Sort, then reassign the ids. *)
Definition rank (prefix : str) (registry : list entry) : list entry :=
  assign_ids prefix 0 (sort entry_leb registry).

Definition ece_entry (order : list str -> list str) (registry : list entry)
  (kv : str * ece_acc) : entry :=
  let canonical := max_by_len order (names (snd kv)) in
  mk_entry (py "ECE-" ++ fmt05 (length registry + 1))
    canonical
    (sorted_strs (set_remove canonical (names (snd kv))))
    (fst kv)
    (acc_entity_type (snd kv))
    (sorted_strs (acc_ec_codes (snd kv)))
    (length (acc_ec_codes (snd kv))).

Definition ece_entries (order : list str -> list str)
  (ece_map : dict ece_acc) : list entry :=
  fold_left (fun registry kv => registry ++ [ece_entry order registry kv])
    ece_map [].

Definition build_ece_registry (order : list str -> list str)
  (ec_data : dict ec_record) : list entry :=
  rank (py "ECE-") (ece_entries order (ece_collect ec_data)).

(** *** build_ccap_registry *)

Record ccap_acc : Type := mk_cacc {
  c_names : list str;
  c_ec_codes : list str;
  c_courses : list str }.

Definition ccap_default : ccap_acc := mk_cacc [] [] [].

Definition ccap_step (ec_code : str) (ccap_map : dict ccap_acc) (course : str)
  : dict ccap_acc :=
  if is_empty course || (length course <? 5) then ccap_map
  else
    let norm := normalize_name course in
    if is_empty norm then ccap_map
    else
      let ccap := match dict_get ccap_map norm with
                  | Some c => c
                  | None => ccap_default
                  end in
      dict_set ccap_map norm
        (mk_cacc (set_add course (c_names ccap))
                 (set_add ec_code (c_ec_codes ccap))
                 (set_add course (c_courses ccap))).

Definition ccap_collect (ec_data : dict ec_record) : dict ccap_acc :=
  fold_left
    (fun mp kv => fold_left (ccap_step (fst kv)) (courses (snd kv)) mp)
    ec_data [].

Definition ccap_entry (order : list str -> list str) (registry : list entry)
  (kv : str * ccap_acc) : entry :=
  let canonical := max_by_len order (c_names (snd kv)) in
  mk_entry (py "CCAP-" ++ fmt05 (length registry + 1))
    canonical
    (sorted_strs (set_remove canonical (c_names (snd kv))))
    (fst kv)
    None
    (sorted_strs (c_ec_codes (snd kv)))
    (length (c_ec_codes (snd kv))).

Definition ccap_entries (order : list str -> list str)
  (ccap_map : dict ccap_acc) : list entry :=
  fold_left (fun registry kv => registry ++ [ccap_entry order registry kv])
    ccap_map [].

Definition build_ccap_registry (order : list str -> list str)
  (ec_data : dict ec_record) : list entry :=
  rank (py "CCAP-") (ccap_entries order (ccap_collect ec_data)).

(** *** build_ec_ece_matrix *)

Record matrix_row : Type := mk_row {
  ece_ids : list str;
  ece_count : nat;
  row_title : str }.

Definition norm_to_id_of (ece_registry : list entry) : dict str :=
  fold_left (fun d ece => dict_set d (normalized_key ece) (id ece))
    ece_registry [].

(** The ids collected for one EC, in the order of its certifier list. *)
Definition row_ids (norm_to_id : dict str) (certs : list str) : list str :=
  flat_map
    (fun cert =>
       match dict_get norm_to_id (normalize_name cert) with
       | Some i => [i]
       | None => []
       end)
    certs.

Definition build_ec_ece_matrix (ec_data : dict ec_record)
  (ece_registry : list entry) : dict matrix_row :=
  let norm_to_id := norm_to_id_of ece_registry in
  fold_left
    (fun matrix kv =>
       let ids := row_ids norm_to_id (certifiers (snd kv)) in
       dict_set matrix (fst kv)
         (mk_row (sorted_strs (set_of_list ids))
                 (length (set_of_list ids))
                 (title (snd kv))))
    ec_data [].

(** ** The extraction scripts

    The browser and the clock are the environment.  A [world] holds what the
    scripts can observe of it and leave behind: a counter of page attempts
    (which indexes the oracle telling what an attempt finds), the trace of
    attempts, pauses and file writes, and the two files. *)

Record extraction : Type := mk_ext {
  x_record : ec_record;          (* what the page script returned *)
  x_ec_code : str;
  x_extraction_time : str }.

Record checkpoint : Type := mk_ck {
  processed : list str;
  failed : list str;
  data : dict extraction;
  last_updated : option str }.

Record summary : Type := mk_summary {
  ecs_processed : nat;
  ecs_failed : nat;
  total_certifier_relationships : nat;
  total_course_relationships : nat;
  unique_certifiers : nat }.

(** The consolidated export; [out_summary] is written by the batch script,
    [total_ecs] by the details script. *)
Record final_output : Type := mk_out {
  extraction_date : str;
  out_summary : option summary;
  total_ecs : option nat;
  failed_ecs : list str;
  ec_details : dict extraction }.

Inductive event : Type :=
| Attempt (ec_code : str) (retry : nat)   (* one pass through process_ec *)
| Sleep (ms : nat)                        (* a pause outside an attempt *)
| Saved (c : checkpoint)                  (* CHECKPOINT_FILE rewritten *)
| Final (o : final_output).               (* OUTPUT_FILE written *)

Record world : Type := mk_world {
  clock : nat;
  trace : list event;
  checkpoint_file : option checkpoint;
  output_file : option final_output }.

Definition log (e : event) (w : world) : world :=
  mk_world (clock w) (trace w ++ [e]) (checkpoint_file w) (output_file w).

(** An attempt is logged and advances the attempt counter. *)
Definition attempt (ec_code : str) (retry : nat) (w : world) : world :=
  mk_world (S (clock w)) (trace w ++ [Attempt ec_code retry])
    (checkpoint_file w) (output_file w).

(** The codes for which the main loop called [process_ec]: the attempts
    with [retry = 0]. *)
Definition dispatched (t : list event) : list str :=
  flat_map (fun e => match e with Attempt c 0 => [c] | _ => [] end) t.


(** What a run starting in [w] and ending in [w'] added to the trace. *)
Definition events_since (w w' : world) : list event :=
  skipn (length (trace w)) (trace w').

(** One line of ec_standards_api.json. *)
Record standard : Type := mk_std {
  codigo : option str;
  clave : option str }.

Definition truthy (o : option str) : bool :=
  match o with
  | Some (_ :: _) => true
  | _ => false
  end.

(** [s.get("codigo") or s.get("clave")] *)
Definition code_of (s : standard) : option str :=
  if truthy (codigo s) then codigo s else clave s.

(** Both scripts: the sorted set of the truthy codes. *)
Definition load_ec_codes (standards : list standard) : list str :=
  sorted_strs
    (set_of_list
       (flat_map
          (fun s => if truthy (code_of s)
                    then match code_of s with Some c => [c] | None => [] end
                    else [])
          standards)).

(** [[c for c in ec_codes if c not in processed]] with
    [processed = set(checkpoint["processed"])] *)
Definition remaining_of (ec_codes : list str) (c : checkpoint) : list str :=
  filter (fun x => negb (mem x (set_of_list (processed c)))) ec_codes.

Definition record_success (ec_code : str) (d : extraction) (c : checkpoint)
  : checkpoint :=
  mk_ck (processed c ++ [ec_code]) (failed c)
    (dict_set (data c) ec_code d) (last_updated c).

Definition record_failure (ec_code : str) (c : checkpoint) : checkpoint :=
  mk_ck (processed c) (failed c ++ [ec_code]) (data c) (last_updated c).

Definition sum_by (f : ec_record -> list str) (d : dict extraction) : nat :=
  list_sum (map (fun x => length (f (x_record x))) (dict_values d)).

(** *** extract_certifiers_batch.py *)

Module Batch.

Definition BATCH_SAVE_SIZE : nat := 20.

(** What one pass through the [try] block of [process_ec] meets. *)
Inductive outcome : Type :=
| Raises                       (* any exception: timeout, missing element *)
| Returns (d : ec_record).     (* page.evaluate(EXTRACT_SCRIPT) *)

Section Script.
Variable site : nat -> str -> outcome.
Variable now : nat -> str.

Definition load_checkpoint (w : world) : checkpoint :=
  match checkpoint_file w with
  | Some c => c
  | None => mk_ck [] [] [] None
  end.

Definition save_checkpoint (c : checkpoint) (w : world)
  : checkpoint * world :=
  let c' := mk_ck (processed c) (failed c) (data c)
              (Some (now (clock w))) in
  (c', mk_world (clock w) (trace w ++ [Saved c']) (Some c')
         (output_file w)).

Definition save_final (c : checkpoint) (w : world) : world :=
  let all_certifiers :=
    set_of_list
      (flat_map (fun x => certifiers (x_record x)) (dict_values (data c)))
  in
  let output :=
    mk_out (now (clock w))
      (Some (mk_summary (length (data c)) (length (failed c))
               (sum_by certifiers (data c)) (sum_by courses (data c))
               (length all_certifiers)))
      None (failed c) (data c) in
  mk_world (clock w) (trace w ++ [Final output]) (checkpoint_file w)
    (Some output).

Equations? process_ec (ec_code : str) (retry : nat) (w : world)
  : option extraction * world by wf (2 - retry) lt :=
  process_ec ec_code retry w with site (clock w) ec_code := {
    | Returns d :=
        (Some (mk_ext d ec_code (now (clock w))),
         attempt ec_code retry w);
    | Raises with lt_dec retry 2 := {
        | left _ :=
            process_ec ec_code (retry + 1)
              (log (Sleep 2000) (attempt ec_code retry w));
        | right _ := (None, attempt ec_code retry w) } }.
Proof. destruct retry as [|[|?]]; simpl in *; lia. Qed.

(** [data and (data.get("certifiers") or data.get("title"))] *)
Definition has_content (data : option extraction) : bool :=
  match data with
  | Some d =>
      negb (is_empty (certifiers (x_record d)))
      || negb (is_empty (title (x_record d)))
  | None => false
  end.

(** What the [if]/[else] of the loop body does to the checkpoint. *)
Definition record (ec_code : str) (data : option extraction)
  (c : checkpoint) : checkpoint :=
  match data with
  | Some d =>
      if has_content data then record_success ec_code d c
      else record_failure ec_code c
  | None => record_failure ec_code c
  end.

(** Body of the [for i, ec_code in enumerate(remaining)] loop. *)
Definition body (i : nat) (ec_code : str) (c : checkpoint) (w : world)
  : checkpoint * world :=
  let (data, w1) := process_ec ec_code 0 w in
  let c1 := record ec_code data c in
  if (i + 1) mod BATCH_SAVE_SIZE =? 0
  then save_checkpoint c1 w1
  else (c1, w1).

(** The loop, from index [i]. *)
Fixpoint loop (i : nat) (remaining : list str) (c : checkpoint)
  (w : world) : checkpoint * world :=
  match remaining with
  | [] => (c, w)
  | ec_code :: rest =>
      let (c2, w2) := body i ec_code c w in
      loop (S i) rest c2 w2
  end.

Definition main (standards : list standard) (w : world) : world :=
  let ec_codes := load_ec_codes standards in
  let checkpoint := load_checkpoint w in
  let remaining := remaining_of ec_codes checkpoint in
  match remaining with
  | [] => save_final checkpoint w
  | _ =>
      let (c, w1) := loop 0 remaining checkpoint w in
      let (c', w2) := save_checkpoint c w1 in
      save_final c' w2
  end.

(** The process is killed when [k] items of [remaining] have gone
    through the loop body: what is in memory is lost, the files stay. *)
Definition main_killed_after (k : nat) (standards : list standard)
  (w : world) : world :=
  let ec_codes := load_ec_codes standards in
  let checkpoint := load_checkpoint w in
  let remaining := remaining_of ec_codes checkpoint in
  snd (loop 0 (firstn k remaining) checkpoint w).
End Script.

End Batch.

(** *** extract_ec_details_playwright.py *)

Module Details.

Definition BATCH_SIZE : nat := 10.
Definition MAX_RETRIES : nat := 3.

Inductive outcome : Type :=
| NavFails                     (* navigate_to_ec returned False *)
| Raises                       (* an exception reached process_ec *)
| Evaluated (d : ec_record) (error : option str).  (* extract_ec_data *)

Section Script.
Variable site : nat -> str -> outcome.
Variable now : nat -> str.

Definition load_checkpoint (w : world) : checkpoint :=
  match checkpoint_file w with
  | Some c => c
  | None => mk_ck [] [] [] None
  end.

Definition save_checkpoint (c : checkpoint) (w : world)
  : checkpoint * world :=
  let c' := mk_ck (processed c) (failed c) (data c)
              (Some (now (clock w))) in
  (c', mk_world (clock w) (trace w ++ [Saved c']) (Some c')
         (output_file w)).

Definition save_final_output (c : checkpoint) (w : world) : world :=
  let output :=
    mk_out (now (clock w)) None (Some (length (data c)))
      (failed c) (data c) in
  mk_world (clock w) (trace w ++ [Final output]) (checkpoint_file w)
    (Some output).

Equations? process_ec (ec_code : str) (retry : nat) (w : world)
  : option extraction * world by wf (MAX_RETRIES - retry) lt :=
  process_ec ec_code retry w with site (clock w) ec_code := {
    | NavFails with lt_dec retry MAX_RETRIES := {
        | left _ :=
            process_ec ec_code (retry + 1)
              (log (Sleep 2000) (attempt ec_code retry w));
        | right _ := (None, attempt ec_code retry w) };
    | Raises with lt_dec retry MAX_RETRIES := {
        | left _ :=
            process_ec ec_code (retry + 1) (attempt ec_code retry w);
        | right _ := (None, attempt ec_code retry w) };
    | Evaluated d error with truthy error := {
        | true with lt_dec retry MAX_RETRIES := {
            | left _ :=
                process_ec ec_code (retry + 1) (attempt ec_code retry w);
            | right _ := (None, attempt ec_code retry w) };
        | false :=
            (Some (mk_ext d ec_code (now (clock w))),
             attempt ec_code retry w) } }.
Proof.
  all: unfold MAX_RETRIES in *; destruct retry as [|[|[|?]]];
    simpl in *; lia.
Qed.

(** What the [if data:]/[else] of the loop body does to the checkpoint;
    [if data:] holds for every returned record, a dict that always has
    keys. *)
Definition record (ec_code : str) (data : option extraction)
  (c : checkpoint) : checkpoint :=
  match data with
  | Some d => record_success ec_code d c
  | None => record_failure ec_code c
  end.

(** Body of the loop of [main], with the value of [batch_count] it
    leaves. *)
Definition body (batch_count : nat) (ec_code : str) (c : checkpoint)
  (w : world) : checkpoint * world * nat :=
  let (data, w1) := process_ec ec_code 0 w in
  let c1 := record ec_code data c in
  let batch_count := batch_count + 1 in
  let '(c2, w2, batch_count) :=
    if BATCH_SIZE <=? batch_count
    then (save_checkpoint c1 w1, 0)
    else ((c1, w1), batch_count) in
  (c2, log (Sleep 1000) w2, batch_count).

Fixpoint loop (batch_count : nat) (remaining : list str) (c : checkpoint)
  (w : world) : checkpoint * world :=
  match remaining with
  | [] => (c, w)
  | ec_code :: rest =>
      let '(c2, w2, batch_count) := body batch_count ec_code c w in
      loop batch_count rest c2 w2
  end.

Definition main (standards : list standard) (w : world) : world :=
  let ec_codes := load_ec_codes standards in
  let checkpoint := load_checkpoint w in
  let remaining := remaining_of ec_codes checkpoint in
  match remaining with
  | [] => save_final_output checkpoint w
  | _ =>
      let (c, w1) := loop 0 remaining checkpoint w in
      let (c', w2) := save_checkpoint c w1 in
      save_final_output c' w2
  end.

Definition main_killed_after (k : nat) (standards : list standard)
  (w : world) : world :=
  let ec_codes := load_ec_codes standards in
  let checkpoint := load_checkpoint w in
  let remaining := remaining_of ec_codes checkpoint in
  snd (loop 0 (firstn k remaining) checkpoint w).
End Script.

End Details.

(** *** The checkpoint file during [save_checkpoint]

    [open(CHECKPOINT_FILE, "w")] empties the file; [json.dump] then hands the
    document to the file piece by piece.  [dump] gives those pieces in the
    order in which they reach the file. *)

Inductive file_op : Type :=
| Open_w                  (* open(..., "w"): truncate *)
| Write (piece : str)     (* f.write(piece) *)
| Close.

Definition apply_op (content : str) (op : file_op) : str :=
  match op with
  | Open_w => []
  | Write piece => content ++ piece
  | Close => content
  end.

Section CheckpointFile.
Variable dump : checkpoint -> list str.

(** The file operations of one [save_checkpoint(c)] at time [stamp]. *)
Definition save_ops (stamp : str) (c : checkpoint) : list file_op :=
  let c' := mk_ck (processed c) (failed c) (data c) (Some stamp) in
  Open_w :: map Write (dump c') ++ [Close].

(** The document a completed save leaves in the file. *)
Definition document (stamp : str) (c : checkpoint) : str :=
  List.concat (dump (mk_ck (processed c) (failed c) (data c) (Some stamp))).

(** The file when the process dies after [n] operations of the save. *)
Definition file_after_crash (n : nat) (stamp : str) (c : checkpoint)
  (prior : str) : str :=
  fold_left apply_op (firstn n (save_ops stamp c)) prior.
End CheckpointFile.

(** *** generate_stats

    [avg_ecs_per_certifier] is [round(sum / len, 2)], a Python float, or the
    integer [0] for an empty registry.  The float arithmetic is a parameter
    of the model: [round2_div a b] stands for [round(a / b, 2)]. *)

Inductive number (F : Type) : Type :=
| Int (n : nat)
| Float (x : F).

Module Stats.
Record extraction_summary : Type := mk_extraction_summary {
  total_ecs_processed : nat;
  ecs_with_certifiers : nat;
  ecs_without_certifiers : nat;
  total_certifier_relationships : nat }.

Record ece_registry_stats (F : Type) : Type := mk_ece_registry_stats {
  unique_certifiers : nat;
  avg_ecs_per_certifier : number F;
  max_ecs_per_certifier : nat;
  certifiers_with_1_ec : nat;
  certifiers_with_5plus_ecs : nat;
  certifiers_with_10plus_ecs : nat }.

(** One element of [top_20_certifiers]: the keys [name] and [ec_count]. *)
Record top_certifier : Type := mk_top {
  name : str;
  top_ec_count : nat }.

Record stats (F : Type) : Type := mk_stats {
  the_extraction_summary : extraction_summary;
  the_ece_registry_stats : ece_registry_stats F;
  unique_courses_or_centers : nat;      (* under ccap_registry_stats *)
  top_20_certifiers : list top_certifier }.
End Stats.

(** [sum(1 for x in l if p(x))] *)
Definition count_if (A : Type) (p : A -> bool) (l : list A) : nat :=
  length (filter p l).

(** [max(l)] for a non-empty list of integers ([generate_stats] does not
    call it on an empty one). *)
Definition max_of (l : list nat) : nat :=
  match l with
  | [] => 0
  | c :: cs => fold_left Nat.max cs c
  end.

Section GenerateStats.
Variable F : Type.
Variable round2_div : nat -> nat -> F.

Definition generate_stats (ec_data : dict ec_record)
  (ece_registry ccap_registry : list entry) (matrix : dict matrix_row)
  : Stats.stats F :=
  let total_relationships :=
    list_sum (map (fun d => length (certifiers d)) (dict_values ec_data)) in
  let ecs_with_certifiers :=
    count_if (fun d => negb (is_empty (certifiers d))) (dict_values ec_data)
  in
  let ece_ec_counts := map ec_count ece_registry in
  let top_eces := firstn 20 ece_registry in
  Stats.mk_stats
    (Stats.mk_extraction_summary
       (length ec_data)
       ecs_with_certifiers
       (length ec_data - ecs_with_certifiers)
       total_relationships)
    (Stats.mk_ece_registry_stats
       (length ece_registry)
       (if is_empty ece_ec_counts then Int F 0
        else Float (round2_div (list_sum ece_ec_counts)
                      (length ece_ec_counts)))
       (if is_empty ece_ec_counts then 0 else max_of ece_ec_counts)
       (count_if (fun c => c =? 1) ece_ec_counts)
       (count_if (fun c => 5 <=? c) ece_ec_counts)
       (count_if (fun c => 10 <=? c) ece_ec_counts))
    (length ccap_registry)
    (map (fun e => Stats.mk_top (canonical_name e) (ec_count e)) top_eces).
End GenerateStats.

(** *** main of build_master_registries.py

    The builder reads the two files of the batch extractor: the export
    ec_certifiers_all.json ([output_file]) and, when there is no export,
    the checkpoint certifiers_checkpoint.json ([checkpoint_file]).  It
    writes four files, or none when it finds no input. *)

(** The records as the builder reads them from [ec_details] or [data]. *)
Definition records_of (d : dict extraction) : dict ec_record :=
  map (fun kv => (fst kv, x_record (snd kv))) d.

Module Builder.
Record registry_file : Type := mk_registry_file {
  r_generated_at : str;
  r_description : str;
  total_count : nat;
  registry : list entry }.

Record matrix_file : Type := mk_matrix_file {
  m_generated_at : str;
  m_description : str;
  total_ecs : nat;
  matrix : dict matrix_row }.

Record stats_file (F : Type) : Type := mk_stats_file {
  s_generated_at : str;
  s_stats : Stats.stats F }.

Record outputs (F : Type) : Type := mk_outputs {
  master_ece_registry : registry_file;
  master_ccap_registry : registry_file;
  ec_ece_matrix : matrix_file;
  registry_stats : stats_file F }.

Section Script.
Variable F : Type.
Variable round2_div : nat -> nat -> F.
Variable order : list str -> list str.

(** [timestamp] is the one reading of the clock; the result is [None] when
    the builder returns after "ERROR: No extraction data found!". *)
Definition main (timestamp : str) (w : world) : option (outputs F) :=
  let input :=
    match output_file w with
    | Some data => Some (records_of (ec_details data))
    | None =>
        match checkpoint_file w with
        | Some checkpoint => Some (records_of (data checkpoint))
        | None => None
        end
    end in
  match input with
  | None => None
  | Some ec_data =>
      let ece_registry := build_ece_registry order ec_data in
      let ccap_registry := build_ccap_registry order ec_data in
      let matrix := build_ec_ece_matrix ec_data ece_registry in
      let stats :=
        generate_stats round2_div ec_data ece_registry ccap_registry matrix in
      Some
        (mk_outputs
           (mk_registry_file timestamp
              (py "Master registry of ECEs (Entidades Certificadoras y Evaluadoras)")
              (length ece_registry) ece_registry)
           (mk_registry_file timestamp
              (py "Master registry of CCAPs and training courses")
              (length ccap_registry) ccap_registry)
           (mk_matrix_file timestamp
              (py "EC to ECE relationship matrix for quick lookups")
              (length matrix) matrix)
           (mk_stats_file timestamp stats))
  end.
End Script.
End Builder.

(** *** check_extraction_status.py

    The status checker reads the checkpoint of the batch extractor and the
    standards file, asks the operating system whether an extractor process
    is alive ([running]), and prints one of three verdicts. *)

Module Status.
Inductive verdict : Type :=
| Complete      (* "EXTRACTION COMPLETE!" *)
| NotStarted    (* "Extraction not started or checkpoint empty" *)
| InProgress.   (* "Extraction in progress..." *)

(** [len(json.load(f))], or [0] without the file. *)
Definition load_ec_count (standards_file : option (list standard)) : nat :=
  match standards_file with
  | Some standards => length standards
  | None => 0
  end.

(** [len(checkpoint.get("processed", []))]; the checkpoint is [{}] without
    the file. *)
Definition processed_count (w : world) : nat :=
  match checkpoint_file w with
  | Some checkpoint => length (processed checkpoint)
  | None => 0
  end.

(** The verdict, and whether [run_build] is called. *)
Definition main (build_if_complete running : bool)
  (standards_file : option (list standard)) (w : world) : verdict * bool :=
  let total_ecs := load_ec_count standards_file in
  let processed := processed_count w in
  let is_complete :=
    (total_ecs <=? processed) || (negb running && (0 <? processed)) in
  if is_complete then (Complete, build_if_complete)
  else if negb running && (processed =? 0) then (NotStarted, false)
  else (InProgress, false).
End Status.

Definition scenario : dict ec_record :=
  [ (py "EC001",
     mk_rec [] [py "Instituto ABC S.A. de C.V."; py "INSTITUTO ABC"] [] [] []);
    (py "EC002", mk_rec [] [py "Instituto ABC S.A. de C.V."] [] [] []) ].

(** ** Vocabulary of the statements *)

Unset Implicit Arguments.

(** What a pattern matches, independently of the matcher: [Matches r s s']
    says that [r] matches the prefix of [s] that ends where [s'] begins. *)
Inductive Matches : re -> str -> str -> Prop :=
| M_chr p c s : p c = true -> Matches (Chr p) (c :: s) s
| M_seq a b s s1 s2 :
    Matches a s s1 -> Matches b s1 s2 -> Matches (Seq a b) s s2
| M_alt_l a b s s' : Matches a s s' -> Matches (Alt a b) s s'
| M_alt_r a b s s' : Matches b s s' -> Matches (Alt a b) s s'
| M_opt_some a s s' : Matches a s s' -> Matches (Opt a) s s'
| M_opt_none a s : Matches (Opt a) s s
| M_star_nil p s : Matches (Star p) s s
| M_star_cons p c s s' :
    p c = true -> Matches (Star p) s s' -> Matches (Star p) (c :: s) s'
| M_eol_end : Matches Eol [] []
| M_eol_nl : Matches Eol ["010"%char] ["010"%char].

(** [L] holds of some substring of [name]. *)
Definition occurs (L : str -> Prop) (name : str) : Prop :=
  exists pre mid post, name = pre ++ mid ++ post /\ L mid.

(** Nothing, or one period. *)
Definition opt_dot (d : str) : Prop := d = [] \/ d = ["."%char].

(** The letters [x] and [y] in either case, each optionally followed by a
    period. *)
Definition pair_form (x y : ascii) (mid : str) : Prop :=
  exists a b d1 d2,
    lower1 a = x /\ lower1 b = y /\ opt_dot d1 /\ opt_dot d2 /\
    mid = a :: d1 ++ b :: d2.

(** "s a de c v" in either case, a period allowed after s, a, c and v,
    white space allowed around "de". *)
Definition sa_de_cv_form (mid : str) : Prop :=
  exists s a d e c v d1 d2 d3 d4 w1 w2,
    lower1 s = "s"%char /\ lower1 a = "a"%char /\ lower1 d = "d"%char /\
    lower1 e = "e"%char /\ lower1 c = "c"%char /\ lower1 v = "v"%char /\
    opt_dot d1 /\ opt_dot d2 /\ opt_dot d3 /\ opt_dot d4 /\
    forallb isspace w1 = true /\ forallb isspace w2 = true /\
    mid = s :: d1 ++ a :: d2 ++ w1 ++ d :: e :: w2 ++ c :: d3 ++ v :: d4.

(** Two adjacent SPACE characters somewhere in the string. *)
Fixpoint double_space (s : str) : bool :=
  match s with
  | x :: (y :: _) as s' =>
      (Ascii.eqb x " " && Ascii.eqb y " ") || double_space s'
  | _ => false
  end.

(** The part of a string after its longest prefix in a class. *)
Fixpoint drop_while (p : ascii -> bool) (s : str) : str :=
  match s with
  | c :: s' => if p c then drop_while p s' else s
  | [] => []
  end.

(** No white space at the start, resp. at the end. *)
Definition no_lead (s : str) : Prop :=
  match s with
  | c :: _ => isspace c = false
  | [] => True
  end.

Definition no_trail (s : str) : Prop := no_lead (rev s).

(** Already lower case. *)
Definition is_lower (c : ascii) : Prop := lower1 c = c.

(** The only white space character allowed is SPACE. *)
Definition space_only (c : ascii) : Prop := isspace c = true -> c = " "%char.

Definition not_punct (c : ascii) : Prop := is_punct c = false.

(** [x] is ranked no later than [y]: more related work items first, then
    the smaller canonical name. *)
Definition ranked_before (x y : entry) : Prop :=
  ec_count y < ec_count x \/
  (ec_count x = ec_count y /\
   str_leb (canonical_name x) (canonical_name y) = true).

(** An entry without its id. *)
Definition no_id (e : entry) : entry := with_id [] e.

(** Invariant of the grouping maps [ece_map] and [ccap_map]: keys are
    unique, and every group is non-empty and holds only names that reach the
    length floor and normalize to the key of the group. *)
Definition group_ok (floor : nat) (k : str) (ns : list str) : Prop :=
  ns <> [] /\
  Forall (fun n => floor <= length n /\ normalize_name n = k) ns.

Definition groups_wf (V : Type) (nm : V -> list str) (floor : nat)
  (mp : dict V) : Prop :=
  NoDup (dict_keys mp) /\
  forall k a, In (k, a) mp -> group_ok floor k (nm a).

(** The relation a boolean comparison decides. *)
Definition holds (A : Type) (leb : A -> A -> bool) (x y : A) : Prop :=
  leb x y = true.

(** *** Traces of the retrying extractor *)

Definition is_sleep (e : event) : Prop := exists ms, e = Sleep ms.

(** [retry_trace code r n t]: [t] is the trace of [n] successive attempts on
    [code], numbered [r], [r + 1], ..., with nothing but pauses between
    them. *)
Inductive retry_trace (code : str) : nat -> nat -> list event -> Prop :=
| rt_last r : retry_trace code r 1 [Attempt code r]
| rt_more r n pause t :
    Forall is_sleep pause ->
    retry_trace code (S r) n t ->
    retry_trace code r (S n) (Attempt code r :: pause ++ t).

(** [n] attempts numbered from [retry], each but the last followed by the
    pause [pause]. *)
Fixpoint attempts_trace (pause : list event) (code : str) (retry n : nat)
  : list event :=
  match n with
  | 0 => []
  | S n' =>
      Attempt code retry ::
      match n' with
      | 0 => []
      | S _ => pause ++ attempts_trace pause code (S retry) n'
      end
  end.

(** *** Effect of the coordinator loops *)

(** The item [code] went to exactly one of the two lists. *)
Definition recorded (code : str) (c c' : checkpoint) : Prop :=
  (processed c' = processed c ++ [code] /\ failed c' = failed c) \/
  (processed c' = processed c /\ failed c' = failed c ++ [code]).

(** One pass of a main loop on [code]: the extractor is called once for it,
    the item is recorded, the export is left alone. *)
Definition step_ok (code : str) (c : checkpoint) (w : world)
  (c' : checkpoint) (w' : world) : Prop :=
  exists t,
    trace w' = trace w ++ t /\ dispatched t = [code] /\
    output_file w' = output_file w /\ recorded code c c'.

(** A whole loop over [rem]: the extractor is called once per item, in
    order; the lists only grow, by the items that succeeded ([S]) and by
    those that failed ([F]). *)
Definition run_ok (rem : list str) (c : checkpoint) (w : world)
  (c' : checkpoint) (w' : world) : Prop :=
  exists t S F,
    trace w' = trace w ++ t /\ dispatched t = rem /\
    output_file w' = output_file w /\
    processed c' = processed c ++ S /\ failed c' = failed c ++ F /\
    incl S rem /\ incl F rem /\
    (NoDup rem -> forall x, In x S -> In x F -> False).


(** The matcher found a match. *)
Definition succeeds (o : option str) : Prop := exists out, o = Some out.

(** *** How a run changes the checkpoint *)

(** Same lists and same data (the time stamp may differ). *)
Definition same_content (c c' : checkpoint) : Prop :=
  processed c' = processed c /\ failed c' = failed c /\ data c' = data c.

(** The item [code] was recorded: either as a success, with a record tagged
    with [code] stored under [code], or as a failure, the data untouched. *)
Definition recorded_as (code : str) (c c' : checkpoint) : Prop :=
  (exists d,
     x_ec_code d = code /\
     processed c' = processed c ++ [code] /\ failed c' = failed c /\
     data c' = dict_set (data c) code d) \/
  (processed c' = processed c /\ failed c' = failed c ++ [code] /\
   data c' = data c).

(** The items of a list were recorded one after the other. *)
Inductive chain : list str -> checkpoint -> checkpoint -> Prop :=
| chain_nil c c' : same_content c c' -> chain [] c c'
| chain_cons code rest c c1 c' :
    recorded_as code c c1 -> chain rest c1 c' -> chain (code :: rest) c c'.

(** Every processed item has a record in [data], tagged with its code. *)
Definition processed_have_data (c : checkpoint) : Prop :=
  forall x, In x (processed c) ->
            exists d, dict_get (data c) x = Some d /\ x_ec_code d = x.

(** What [normalize_name] does to a name once lower-cased and stripped. *)
Definition normalize_core (n : str) : str :=
  strip (sub re_punct [] (sub re_ws (py " ") (sub re_suffix [] n))).

(** *** Iteration over sets *)

(** What is known of the order in which a process iterates over a set: it
    yields the elements of the set, each once. *)
Definition iteration_order (order : list str -> list str) : Prop :=
  forall l, Permutation (order l) l.

(** *** What the grouping maps hold *)

(** A name passes the length floor and has a non-empty key. *)
Definition kept (floor : nat) (n : str) : Prop :=
  floor <= length n /\ normalize_name n <> [].

(** The (work item, raw name) pairs of the input, in the order in which the
    builders visit them; [f] selects the certifier or the course list. *)
Definition name_pairs (f : ec_record -> list str) (ec_data : dict ec_record)
  : list (str * str) :=
  flat_map (fun kv => map (fun n => (fst kv, n)) (f (snd kv))) ec_data.

(** The legal-form tag of a raw name. *)
Definition tag_of (n : str) : entity_type_tag :=
  entity_type (extract_entity_info n).

(** The group of key [k] holds, without duplicates, exactly the kept names
    seen so far that normalize to [k], and exactly the work items that
    listed one of them. *)
Definition group_exact (floor : nat) (seen : list (str * str)) (k : str)
  (ns cs : list str) : Prop :=
  NoDup ns /\ NoDup cs /\
  (forall n, In n ns <->
             kept floor n /\ normalize_name n = k /\
             exists code, In (code, n) seen) /\
  (forall code, In code cs <->
                exists n, In (code, n) seen /\ kept floor n /\
                          normalize_name n = k).

Definition groups_exact (V : Type) (nm cd : V -> list str) (floor : nat)
  (seen : list (str * str)) (mp : dict V) : Prop :=
  (forall k a, dict_get mp k = Some a ->
               group_exact floor seen k (nm a) (cd a)) /\
  (forall code n, In (code, n) seen -> kept floor n ->
                  exists a, dict_get mp (normalize_name n) = Some a).

(** The value a grouping loop finds under the key of [cert]. *)
Definition old_group (V : Type) (dflt : V) (mp : dict V) (cert : str) : V :=
  match dict_get mp (normalize_name cert) with
  | Some e => e
  | None => dflt
  end.

(** Work item [code] of the input lists the raw name [n] in the list that
    [f] selects. *)
Definition listed (f : ec_record -> list str) (ec_data : dict ec_record)
  (code n : str) : Prop :=
  exists r, In (code, r) ec_data /\ In n (f r).

(** All the spellings an entry stands for. *)
Definition entry_names (e : entry) : list str :=
  canonical_name e :: alternate_names e.

(** The work items of an entry: counted by [ec_count], at least one, in
    strictly ascending order, and exactly the work items that list a kept
    name normalizing to the key of the entry. *)
Definition codes_exact (floor : nat) (f : ec_record -> list str)
  (ec_data : dict ec_record) (e : entry) : Prop :=
  ec_count e = length (ec_codes e) /\
  1 <= ec_count e /\
  StronglySorted (holds str str_ltb) (ec_codes e) /\
  forall code, In code (ec_codes e) <->
               exists n, listed f ec_data code n /\ kept floor n /\
                         normalize_name n = normalized_key e.

(** The names of an entry: pairwise distinct, exactly the kept names of
    the input that normalize to the key of the entry; no alternate is
    longer than the canonical name, and the alternates are in strictly
    ascending order. *)
Definition names_exact (floor : nat) (f : ec_record -> list str)
  (ec_data : dict ec_record) (e : entry) : Prop :=
  NoDup (entry_names e) /\
  (forall n, In n (entry_names e) <->
             kept floor n /\ normalize_name n = normalized_key e /\
             exists code, listed f ec_data code n) /\
  Forall (fun n => length n <= length (canonical_name e))
    (alternate_names e) /\
  StronglySorted (holds str str_ltb) (alternate_names e).

(** What the entity type of a group says about its names: it is set; it is
    [Unknown] only if no name of the group shows a legal form, and
    otherwise it is the legal form that one of the names shows. *)
Definition type_ok (ns : list str) (t : option entity_type_tag) : Prop :=
  exists tag,
    t = Some tag /\
    (tag = Unknown -> Forall (fun n => tag_of n = Unknown) ns) /\
    (tag <> Unknown -> exists n, In n ns /\ tag_of n = tag).

(** What a matrix row built from the record [r] and the registry [reg]
    holds: the title of the record, ids in strictly ascending order, their
    number in [ece_count], and only ids of registry entries whose key is
    the normalized form of a certifier name of the record. *)
Definition row_sound (reg : list entry) (r : ec_record) (row : matrix_row)
  : Prop :=
  row_title row = title r /\
  ece_count row = length (ece_ids row) /\
  StronglySorted (holds str str_ltb) (ece_ids row) /\
  forall i, In i (ece_ids row) ->
            exists e cert, In e reg /\ id e = i /\
                           In cert (certifiers r) /\
                           normalize_name cert = normalized_key e.

(** *** Two builds *)

(** An entry without its entity type. *)
Definition no_type (e : entry) : entry :=
  mk_entry (id e) (canonical_name e) (alternate_names e) (normalized_key e)
    None (ec_codes e) (ec_count e).

(** No group has two longest names: two kept names with the same key and
    the same length are one name, or some name of their group is longer. *)
Definition no_length_tie (floor : nat) (f : ec_record -> list str)
  (ec_data : dict ec_record) : Prop :=
  forall c1 c2 n1 n2,
    listed f ec_data c1 n1 -> listed f ec_data c2 n2 ->
    kept floor n1 -> kept floor n2 ->
    normalize_name n1 = normalize_name n2 -> length n1 = length n2 ->
    n1 = n2 \/
    exists c3 n3,
      listed f ec_data c3 n3 /\ kept floor n3 /\
      normalize_name n3 = normalize_name n1 /\ length n1 < length n3.

(** The fields of an entry that the grouping decides, given the canonical
    name: no id, no entity type. *)
Definition group_core (order : list str -> list str) (k : str)
  (ns cs : list str) : entry :=
  mk_entry [] (max_by_len order ns)
    (sorted_strs (set_remove (max_by_len order ns) ns)) k None
    (sorted_strs cs) (length cs).

(** *** Concrete inputs *)

(** Two iteration orders: a process whose sets yield their elements in the
    order in which they were added, and one whose sets yield them in the
    opposite order. *)
Definition insertion_order (l : list str) : list str := l.
Definition reverse_order (l : list str) : list str := rev l.


(** The entry the end-to-end scenario is expected to yield. *)
Definition scenario_entry : entry :=
  mk_entry (py "ECE-00001") (py "Instituto ABC S.A. de C.V.")
    [py "INSTITUTO ABC"] (py "instituto abc") (Some SA_de_CV)
    [py "EC001"; py "EC002"] 2.

(** Two records whose certifier lists hold "AB." (three characters) and
    "AB" (two characters). *)
Definition short_name_records : dict ec_record :=
  [ (py "EC001", mk_rec [] [py "AB."] [] [] []);
    (py "EC002", mk_rec [] [py "AB"] [] [] []) ].

(** An empty world: nothing attempted, no file yet. *)
Definition w0 : world := mk_world 0 [] None None.

Definition now0 (n : nat) : str := py "2025-01-01T00:00:00".

Definition EC001 : str := py "EC001".
Definition EC002 : str := py "EC002".

(** ec_standards_api.json with the two codes EC001 and EC002. *)
Definition two_standards : list standard :=
  [mk_std (Some EC001) None; mk_std None (Some EC002)].

Definition one_standard : list standard := [mk_std (Some EC001) None].

(** A page with a title and one certifier. *)
Definition full_record : ec_record :=
  mk_rec (py "Titulo") [py "Instituto ABC"] [] [] [].

(** A page on which nothing was found: every field blank. *)
Definition blank_record : ec_record := mk_rec [] [] [] [] [].

(** Sites on which every attempt raises, resp. finds [full_record]. *)
Definition batch_site_down (n : nat) (code : str) : Batch.outcome :=
  Batch.Raises.
Definition batch_site_up (n : nat) (code : str) : Batch.outcome :=
  Batch.Returns full_record.
Definition details_site_down (n : nat) (code : str) : Details.outcome :=
  Details.Raises.

(** A site whose pages load but hold nothing. *)
Definition details_site_blank (n : nat) (code : str) : Details.outcome :=
  Details.Evaluated blank_record None.


(** A [json.dump] that hands the whole document over in one piece. *)
Definition one_piece (text : str) (c : checkpoint) : list str := [text].

(** Two grouped entries, before ranking. *)
Definition entry_a : entry :=
  mk_entry (py "ECE-00001") (py "Alfa") [] (py "alfa") (Some Unknown)
    [EC001] 1.
Definition entry_b : entry :=
  mk_entry (py "ECE-00002") (py "Beta") [] (py "beta") (Some Unknown)
    [EC001; EC002] 2.

(** A world whose checkpoint holds EC001 as processed, with its record. *)
Definition w_processed_before : world :=
  mk_world 0 []
    (Some (mk_ck [EC001] []
             [(EC001, mk_ext full_record EC001 (now0 0))] None))
    None.

(** ec_standards_api.json with twenty codes, EC00001 to EC00020. *)
Definition twenty_standards : list standard :=
  map (fun n => mk_std (Some (py "EC" ++ fmt05 n)) None) (seq 1 20).

(** Two records with course lists: one course in two spellings. *)
Definition course_records : dict ec_record :=
  [ (py "EC001",
     mk_rec [] [] [py "Curso de Soldadura"; py "curso de soldadura"] [] []);
    (py "EC002", mk_rec [] [] [py "Curso de Soldadura"] [] []) ].

Definition course_entry : entry :=
  mk_entry (py "CCAP-00001") (py "Curso de Soldadura")
    [py "curso de soldadura"] (py "curso de soldadura") None
    [py "EC001"; py "EC002"] 2.

Definition scenario_row : matrix_row :=
  mk_row [py "ECE-00001"] 1 [].

(** The files a complete batch run over one standard leaves behind. *)
Definition w_exported : world :=
  Batch.main batch_site_up now0 one_standard w0.

(** One record that lists a certifier in two spellings of the same length,
    and a second certifier. *)
Definition tie_records : dict ec_record :=
  [ (py "EC001", mk_rec [] [py "AB CO"; py "ab co"; py "Ma co"] [] [] []) ].

(** The two records of the scenario, in the other order. *)
Definition scenario_swapped : dict ec_record :=
  [ (py "EC002", mk_rec [] [py "Instituto ABC S.A. de C.V."] [] [] []);
    (py "EC001",
     mk_rec [] [py "Instituto ABC S.A. de C.V."; py "INSTITUTO ABC"] [] [] []) ].

(** ** Properties *)

#[local] Arguments Nat.modulo : simpl never.
#[local] Arguments Nat.div : simpl never.

(** *** Characters *)

Ltac each_char c :=
  destruct c as [[|] [|] [|] [|] [|] [|] [|] [|]].

Lemma lower1_idem c : lower1 (lower1 c) = lower1 c.
Proof. each_char c; reflexivity. Qed.

Lemma isspace_lower1 c : isspace (lower1 c) = isspace c.
Proof. each_char c; reflexivity. Qed.

Lemma space_is_lower : lower1 " " = " "%char.
Proof. reflexivity. Qed.

Lemma str_eqb_eq a b : str_eqb a b = true <-> a = b.
Proof.
  unfold str_eqb. destruct (list_eq_dec ascii_dec a b); split; congruence.
Qed.

Lemma str_eqb_refl a : str_eqb a a = true.
Proof. apply str_eqb_eq. reflexivity. Qed.

Lemma str_eqb_neq a b : str_eqb a b = false <-> a <> b.
Proof.
  unfold str_eqb. destruct (list_eq_dec ascii_dec a b); split; congruence.
Qed.

(** *** The matcher against the declarative semantics *)

Lemma succeeds_some x : succeeds (Some x).
Proof. exists x. reflexivity. Qed.

Lemma not_succeeds_none : ~ succeeds None.
Proof. intros [x H]. discriminate. Qed.

#[local] Hint Resolve succeeds_some : core.
#[local] Hint Constructors Matches : core.

Lemma star_sound p k : forall s,
  succeeds (star p k s) ->
  exists s', Matches (Star p) s s' /\ succeeds (k s').
Proof.
  induction s as [|c s IH]; simpl; intros H.
  - eauto.
  - destruct (p c) eqn:Hp; [|eauto].
    destruct (star p k s) eqn:Hs.
    + destruct IH as (s' & Hm & Hk); eauto.
    + eauto.
Qed.

Lemma star_complete p k : forall s s',
  Matches (Star p) s s' -> succeeds (k s') -> succeeds (star p k s).
Proof.
  intros s s' Hm. remember (Star p) as r eqn:Hr.
  induction Hm; inversion Hr; subst; intros Hk.
  - destruct s as [|c s]; simpl; auto.
    destruct (p c); auto. destruct (star p k s); auto.
  - simpl. match goal with H : p c = true |- _ => rewrite H end.
    destruct (IHHm eq_refl Hk) as [out Ho]. rewrite Ho. auto.
Qed.

Lemma m_sound r : forall s k,
  succeeds (m r s k) -> exists s', Matches r s s' /\ succeeds (k s').
Proof.
  induction r as [p|a IHa b IHb|a IHa b IHb|a IHa|p|]; simpl; intros s k H.
  - destruct s as [|c s]; [destruct (not_succeeds_none H)|].
    destruct (p c) eqn:Hp; [eauto|destruct (not_succeeds_none H)].
  - apply IHa in H. destruct H as (s1 & H1 & H).
    apply IHb in H. destruct H as (s2 & H2 & H). eauto.
  - destruct (m a s k) eqn:Ha.
    + destruct (IHa s k) as (s' & Hm & Hk); [rewrite Ha; auto|]. eauto.
    + destruct (IHb s k H) as (s' & Hm & Hk). eauto.
  - destruct (m a s k) eqn:Ha.
    + destruct (IHa s k) as (s' & Hm & Hk); [rewrite Ha; auto|]. eauto.
    + eauto.
  - apply star_sound. assumption.
  - destruct s as [|c [|c' s]].
    + eauto.
    + destruct (Ascii.eqb c "010") eqn:Hc.
      * apply Ascii.eqb_eq in Hc. subst. eauto.
      * destruct (not_succeeds_none H).
    + destruct (not_succeeds_none H).
Qed.

Lemma m_complete r : forall s s' k,
  Matches r s s' -> succeeds (k s') -> succeeds (m r s k).
Proof.
  induction r as [p|a IHa b IHb|a IHa b IHb|a IHa|p|]; simpl;
    intros s s' k Hm Hk.
  - inversion Hm; subst. match goal with H : p _ = true |- _ => rewrite H end.
    assumption.
  - inversion Hm; subst. eapply IHa; eauto.
  - inversion Hm; subst.
    + destruct (m a s k) eqn:Ha; auto.
      exfalso. apply not_succeeds_none. rewrite <- Ha. eauto.
    + destruct (m a s k) eqn:Ha; auto. eauto.
  - inversion Hm; subst.
    + destruct (m a s k) eqn:Ha; auto.
      exfalso. apply not_succeeds_none. rewrite <- Ha. eauto.
    + destruct (m a s' k) eqn:Ha; auto.
  - eapply star_complete; eauto.
  - inversion Hm; subst; simpl; auto.
Qed.

Lemma match_at_iff r s :
  succeeds (match_at r s) <-> exists s', Matches r s s'.
Proof.
  unfold match_at. split.
  - intros H. apply m_sound in H. destruct H as (s' & Hm & _). eauto.
  - intros (s' & Hm). eapply m_complete; eauto.
Qed.

Lemma search_iff r : forall s,
  search r s = true <->
  exists pre rest s', s = pre ++ rest /\ Matches r rest s'.
Proof.
  induction s as [|c s IH]; simpl.
  - destruct (match_at r []) eqn:Hm.
    + split; [intros _|reflexivity].
      destruct (proj1 (match_at_iff r [])) as (s' & H); [rewrite Hm; auto|].
      exists [], [], s'. auto.
    + split; [discriminate|].
      intros (pre & rest & s' & Heq & H).
      destruct pre; [|discriminate]. simpl in Heq. subst rest.
      exfalso. apply not_succeeds_none. rewrite <- Hm.
      apply match_at_iff. eauto.
  - destruct (match_at r (c :: s)) eqn:Hm.
    + split; [intros _|reflexivity].
      destruct (proj1 (match_at_iff r (c :: s))) as (s' & H);
        [rewrite Hm; auto|].
      exists [], (c :: s), s'. auto.
    + rewrite IH. split.
      * intros (pre & rest & s' & Heq & H).
        exists (c :: pre), rest, s'. subst. auto.
      * intros (pre & rest & s' & Heq & H).
        destruct pre as [|c' pre]; simpl in Heq.
        -- subst rest. exfalso. apply not_succeeds_none. rewrite <- Hm.
           apply match_at_iff. eauto.
        -- inversion Heq; subst. eauto.
Qed.

(** *** What the three legal-form patterns match *)

Ltac inv H := inversion H; subst; clear H.

Lemma Matches_ci x s s' :
  Matches (ci x) s s' <-> exists a, lower1 a = x /\ s = a :: s'.
Proof.
  unfold ci. split.
  - intros H. inv H. match goal with H : _ = true |- _ =>
      apply Ascii.eqb_eq in H end. eauto.
  - intros (a & Ha & ->). constructor. apply Ascii.eqb_eq. assumption.
Qed.

Lemma Matches_dot_opt s s' :
  Matches dot_opt s s' <-> exists d, opt_dot d /\ s = d ++ s'.
Proof.
  unfold dot_opt, opt_dot, is_dot. split.
  - intros H. inv H.
    + match goal with H : Matches (Chr _) _ _ |- _ => inv H end.
      match goal with H : _ = true |- _ => apply Ascii.eqb_eq in H end.
      subst. exists ["."%char]. auto.
    + exists []. auto.
  - intros (d & [-> | ->] & ->); simpl.
    + apply M_opt_none.
    + apply M_opt_some. constructor. reflexivity.
Qed.

Lemma Matches_star p s s' :
  Matches (Star p) s s' <-> exists w, forallb p w = true /\ s = w ++ s'.
Proof.
  split.
  - intros H. remember (Star p) as r eqn:Hr.
    induction H; inversion Hr; subst.
    + exists []. auto.
    + destruct (IHMatches eq_refl) as (w & Hw & ->).
      exists (c :: w). simpl.
      match goal with H : p c = true |- _ => rewrite H end. auto.
  - intros (w & Hw & ->). induction w as [|c w IH]; simpl in *.
    + constructor.
    + apply andb_prop in Hw. destruct Hw. constructor; auto.
Qed.

Lemma Matches_seq a b s s2 :
  Matches (Seq a b) s s2 <-> exists s1, Matches a s s1 /\ Matches b s1 s2.
Proof.
  split.
  - intros H. inv H. eauto.
  - intros (s1 & H1 & H2). econstructor; eauto.
Qed.

Lemma Matches_pair x y s s' :
  Matches (Seq (ci x) (Seq dot_opt (Seq (ci y) dot_opt))) s s' <->
  exists mid, pair_form x y mid /\ s = mid ++ s'.
Proof.
  unfold pair_form. split.
  - intros H.
    apply Matches_seq in H. destruct H as (s1 & H1 & H).
    apply Matches_seq in H. destruct H as (s2 & H2 & H).
    apply Matches_seq in H. destruct H as (s3 & H3 & H4).
    apply Matches_ci in H1. destruct H1 as (a & Ha & ->).
    apply Matches_dot_opt in H2. destruct H2 as (d1 & Hd1 & ->).
    apply Matches_ci in H3. destruct H3 as (b & Hb & ->).
    apply Matches_dot_opt in H4. destruct H4 as (d2 & Hd2 & ->).
    exists (a :: d1 ++ b :: d2). split.
    + exists a, b, d1, d2. auto.
    + simpl. rewrite <- app_assoc. reflexivity.
  - intros (mid & (a & b & d1 & d2 & Ha & Hb & Hd1 & Hd2 & ->) & ->).
    simpl. rewrite <- app_assoc. simpl.
    apply Matches_seq. exists (d1 ++ b :: d2 ++ s'). split.
    { apply Matches_ci. eauto. }
    apply Matches_seq. exists (b :: d2 ++ s'). split.
    { apply Matches_dot_opt. eauto. }
    apply Matches_seq. exists (d2 ++ s'). split.
    { apply Matches_ci. eauto. }
    apply Matches_dot_opt. eauto.
Qed.

Lemma Matches_sa_de_cv s s' :
  Matches re_sa_de_cv s s' <->
  exists mid, sa_de_cv_form mid /\ s = mid ++ s'.
Proof.
  unfold re_sa_de_cv, sa_de_cv_form, ws_star. split.
  - intros H.
    apply Matches_seq in H. destruct H as (? & H1 & H).
    apply Matches_ci in H1. destruct H1 as (c1 & H1 & ->).
    apply Matches_seq in H. destruct H as (? & Hd1 & H).
    apply Matches_dot_opt in Hd1. destruct Hd1 as (d1 & Hd1 & ->).
    apply Matches_seq in H. destruct H as (? & H2 & H).
    apply Matches_ci in H2. destruct H2 as (c2 & H2 & ->).
    apply Matches_seq in H. destruct H as (? & Hd2 & H).
    apply Matches_dot_opt in Hd2. destruct Hd2 as (d2 & Hd2 & ->).
    apply Matches_seq in H. destruct H as (? & Hw1 & H).
    apply Matches_star in Hw1. destruct Hw1 as (w1 & Hw1 & ->).
    apply Matches_seq in H. destruct H as (? & H3 & H).
    apply Matches_ci in H3. destruct H3 as (c3 & H3 & ->).
    apply Matches_seq in H. destruct H as (? & H4 & H).
    apply Matches_ci in H4. destruct H4 as (c4 & H4 & ->).
    apply Matches_seq in H. destruct H as (? & Hw2 & H).
    apply Matches_star in Hw2. destruct Hw2 as (w2 & Hw2 & ->).
    apply Matches_seq in H. destruct H as (? & H5 & H).
    apply Matches_ci in H5. destruct H5 as (c5 & H5 & ->).
    apply Matches_seq in H. destruct H as (? & Hd3 & H).
    apply Matches_dot_opt in Hd3. destruct Hd3 as (d3 & Hd3 & ->).
    apply Matches_seq in H. destruct H as (? & H6 & Hd4).
    apply Matches_ci in H6. destruct H6 as (c6 & H6 & ->).
    apply Matches_dot_opt in Hd4. destruct Hd4 as (d4 & Hd4 & ->).
    exists (c1 :: d1 ++ c2 :: d2 ++ w1 ++ c3 :: c4 :: w2 ++ c5 :: d3
            ++ c6 :: d4).
    split.
    + exists c1, c2, c3, c4, c5, c6, d1, d2, d3, d4, w1, w2.
      repeat (split; [assumption|]). reflexivity.
    + simpl. repeat (rewrite <- app_assoc; simpl). reflexivity.
  - intros (mid & (c1 & c2 & c3 & c4 & c5 & c6 & d1 & d2 & d3 & d4 & w1 & w2
                   & H1 & H2 & H3 & H4 & H5 & H6 & Hd1 & Hd2 & Hd3 & Hd4
                   & Hw1 & Hw2 & ->) & ->).
    simpl. repeat (rewrite <- app_assoc; simpl).
    repeat (apply Matches_seq; eexists; split;
            [ first [ apply Matches_ci | apply Matches_dot_opt
                    | apply Matches_star ];
              eexists; split; [|reflexivity]; assumption
            | ]).
    apply Matches_dot_opt. exists d4. split; [assumption|reflexivity].
Qed.

Lemma search_occurs r L :
  (forall s s', Matches r s s' <-> exists mid, L mid /\ s = mid ++ s') ->
  forall name, search r name = true <-> occurs L name.
Proof.
  intros HL name. rewrite search_iff. unfold occurs. split.
  - intros (pre & rest & s' & -> & H). apply HL in H.
    destruct H as (mid & Hmid & ->). eauto 6.
  - intros (pre & mid & post & -> & Hmid).
    exists pre, (mid ++ post), post. split; [reflexivity|].
    apply HL. eauto.
Qed.

Lemma search_not_occurs r L :
  (forall s s', Matches r s s' <-> exists mid, L mid /\ s = mid ++ s') ->
  forall name, search r name = false <-> ~ occurs L name.
Proof.
  intros HL name. rewrite <- (search_occurs r L HL).
  destruct (search r name); split; congruence.
Qed.

(** C10: the legal-form tag is decided by an unanchored search over the whole
    raw name, in the order SA de CV, SC, AC: the tag is "SA de CV" exactly
    when the SA-de-CV form occurs somewhere in the name; otherwise "SC"
    exactly when s and c (each optionally followed by a period) occur next
    to each other somewhere; otherwise "AC" exactly when a and c do;
    otherwise "Unknown".  So the names "Escuela" and "Academia", which only
    contain "sc" and "ac" inside a word, are tagged SC and AC. *)
Theorem classification_is_unanchored_search (name : str) :
  let tag := entity_type (extract_entity_info name) in
  (tag = SA_de_CV <-> occurs sa_de_cv_form name) /\
  (tag = SC <->
     ~ occurs sa_de_cv_form name /\ occurs (pair_form "s" "c") name) /\
  (tag = AC <->
     ~ occurs sa_de_cv_form name /\ ~ occurs (pair_form "s" "c") name /\
     occurs (pair_form "a" "c") name) /\
  (tag = Unknown <->
     ~ occurs sa_de_cv_form name /\ ~ occurs (pair_form "s" "c") name /\
     ~ occurs (pair_form "a" "c") name) /\
  entity_type (extract_entity_info (py "Escuela")) = SC /\
  entity_type (extract_entity_info (py "Academia")) = AC.
Proof.
  simpl.
  pose proof (search_occurs _ _ Matches_sa_de_cv name) as H1.
  pose proof (search_occurs _ _ (Matches_pair "s" "c") name) as H2.
  pose proof (search_occurs _ _ (Matches_pair "a" "c") name) as H3.
  pose proof (search_not_occurs _ _ Matches_sa_de_cv name) as N1.
  pose proof (search_not_occurs _ _ (Matches_pair "s" "c") name) as N2.
  pose proof (search_not_occurs _ _ (Matches_pair "a" "c") name) as N3.
  fold re_sc in H2, N2. fold re_ac in H3, N3.
  destruct (search re_sa_de_cv name);
    destruct (search re_sc name); destruct (search re_ac name);
    repeat split; try discriminate; try reflexivity;
    try tauto;
    try (intros; exfalso; intuition congruence);
    try (intros; intuition congruence).
Qed.

(** *** [re.sub] *)

Lemma sub_cons r repl c s' :
  sub r repl (c :: s') =
  match match_len r (c :: s') with
  | Some (S n) => repl ++ sub r repl (skipn n s')
  | _ => c :: sub r repl s'
  end.
Proof.
  simp sub. destruct (match_len r (c :: s')) as [[|n]|]; simpl; reflexivity.
Qed.

(** Where the pattern matches nowhere, nothing is replaced. *)
Lemma sub_no_match r repl : forall s, search r s = false -> sub r repl s = s.
Proof.
  induction s as [|c s IH]; intros H.
  - simp sub. reflexivity.
  - simpl in H. rewrite sub_cons. unfold match_len.
    destruct (match_at r (c :: s)); [discriminate|].
    rewrite IH by assumption. reflexivity.
Qed.

Lemma Forall_skipn (A : Type) (P : A -> Prop) n : forall l : list A,
  Forall P l -> Forall P (skipn n l).
Proof.
  induction n as [|n IH]; intros l H; simpl; [assumption|].
  destruct l; [constructor|]. apply IH. inversion H. assumption.
Qed.

(** Every character of the result comes from the argument or from the
    replacement. *)
Lemma sub_Forall (P : ascii -> Prop) r repl s :
  Forall P repl -> Forall P s -> Forall P (sub r repl s).
Proof.
  intros Hrepl. funelim (sub r repl s); intros Hs.
  - constructor.
  - inversion Hs; subst. constructor; auto.
  - inversion Hs; subst. apply Forall_app. split; [assumption|].
    match goal with IH : forall _, _ -> _ -> Forall _ (sub _ _ _) |- _ =>
      apply IH end; [assumption|]. apply Forall_skipn. assumption.
  - inversion Hs; subst. constructor; auto.
Qed.

Lemma drop_while_length p : forall s, length (drop_while p s) <= length s.
Proof.
  induction s as [|c s IH]; simpl; [lia|]. destruct (p c); simpl; lia.
Qed.

Lemma skipn_drop_while p : forall s,
  skipn (length s - length (drop_while p s)) s = drop_while p s.
Proof.
  induction s as [|c s IH]; [reflexivity|].
  cbn [drop_while]. destruct (p c) eqn:Hp.
  - pose proof (drop_while_length p s). cbn [length].
    replace (S (length s) - length (drop_while p s))
      with (S (length s - length (drop_while p s))) by lia.
    cbn [skipn]. exact IH.
  - rewrite Nat.sub_diag. reflexivity.
Qed.

(** A greedy star followed by nothing takes the whole run. *)
Lemma star_greedy p : forall s, star p Some s = Some (drop_while p s).
Proof.
  induction s as [|c s IH]; simpl; [reflexivity|].
  destruct (p c); [rewrite IH|]; reflexivity.
Qed.

Lemma match_len_plus p c s :
  match_len (Plus p) (c :: s) =
  if p c then Some (S (length s - length (drop_while p s))) else None.
Proof.
  unfold match_len, match_at, Plus. cbn [m].
  destruct (p c); [|reflexivity].
  rewrite star_greedy. pose proof (drop_while_length p s).
  f_equal. cbn [length]. lia.
Qed.

(** [re.sub] of a one-or-more pattern replaces each maximal run. *)
Lemma sub_plus_cons p repl c s :
  sub (Plus p) repl (c :: s) =
  if p c then repl ++ sub (Plus p) repl (drop_while p s)
  else c :: sub (Plus p) repl s.
Proof.
  rewrite sub_cons, match_len_plus. destruct (p c); [|reflexivity].
  rewrite skipn_drop_while. reflexivity.
Qed.

Lemma by_length (P : str -> Prop) :
  (forall s, (forall t, length t < length s -> P t) -> P s) ->
  forall s, P s.
Proof.
  intros H s. remember (length s) as n eqn:Hn. revert s Hn.
  induction n as [n IH] using lt_wf_ind. intros s Hn. apply H.
  intros t Ht. apply (IH (length t)); [lia|reflexivity].
Qed.

Lemma filter_drop_while p : forall s,
  filter (fun c => negb (p c)) (drop_while p s) =
  filter (fun c => negb (p c)) s.
Proof.
  induction s as [|c s IH]; simpl; [reflexivity|].
  destruct (p c) eqn:Hp; simpl; [assumption|].
  rewrite Hp. reflexivity.
Qed.

(** Removing the runs of a class removes exactly its characters. *)
Lemma sub_plus_delete p : forall s,
  sub (Plus p) [] s = filter (fun c => negb (p c)) s.
Proof.
  apply by_length. intros [|c s] IH.
  - simp sub. reflexivity.
  - rewrite sub_plus_cons. simpl. destruct (p c) eqn:Hp; simpl.
    + rewrite IH, filter_drop_while; [reflexivity|].
      pose proof (drop_while_length p s). simpl. lia.
    + rewrite IH by (simpl; lia). reflexivity.
Qed.

(** After [re.sub(r"\s+", " ", n)] the only white space left is SPACE. *)
Lemma sub_ws_space_only : forall s, Forall space_only (sub re_ws (py " ") s).
Proof.
  apply by_length. intros [|c s] IH.
  - simp sub. constructor.
  - unfold re_ws. rewrite sub_plus_cons. destruct (isspace c) eqn:Hc.
    + simpl. constructor; [intros _; reflexivity|].
      apply IH. pose proof (drop_while_length isspace s). simpl. lia.
    + constructor; [intros H; congruence|]. apply IH. simpl. lia.
Qed.

(** On a string whose white space consists of single SPACE characters,
    collapsing white space changes nothing. *)
Lemma sub_ws_id : forall t,
  Forall space_only t -> double_space t = false -> sub re_ws (py " ") t = t.
Proof.
  induction t as [|c t IH]; intros Hs Hd.
  - simp sub. reflexivity.
  - inversion Hs as [|? ? Hc Ht]; subst.
    assert (Hd' : double_space t = false).
    { simpl in Hd. destruct t; [reflexivity|].
      apply orb_false_iff in Hd. apply Hd. }
    unfold re_ws in *. rewrite sub_plus_cons.
    destruct (isspace c) eqn:Hsp.
    + assert (Hceq : c = " "%char) by (apply Hc, Hsp). subst c.
      assert (Hdw : drop_while isspace t = t).
      { destruct t as [|y t]; [reflexivity|]. simpl.
        destruct (isspace y) eqn:Hy; [|reflexivity].
        inversion Ht as [|? ? Hy' _]; subst. rewrite (Hy' Hy) in Hd.
        simpl in Hd. discriminate. }
      rewrite Hdw, IH by assumption. reflexivity.
    + rewrite IH by assumption. reflexivity.
Qed.

(** *** [str.strip] and [str.lower] *)

Lemma lstrip_Forall (P : ascii -> Prop) : forall s,
  Forall P s -> Forall P (lstrip s).
Proof.
  induction s as [|c s IH]; simpl; intros H; [constructor|].
  destruct (isspace c); [|assumption]. apply IH. inversion H. assumption.
Qed.

Lemma strip_Forall (P : ascii -> Prop) s : Forall P s -> Forall P (strip s).
Proof.
  intros H. unfold strip, rstrip. apply Forall_rev, lstrip_Forall, Forall_rev,
    lstrip_Forall. assumption.
Qed.

Lemma lstrip_no_lead : forall s, no_lead (lstrip s).
Proof.
  induction s as [|c s IH]; simpl; [exact I|].
  destruct (isspace c) eqn:Hc; [assumption|]. simpl. assumption.
Qed.

Lemma lstrip_id s : no_lead s -> lstrip s = s.
Proof.
  destruct s as [|c s]; simpl; [reflexivity|]. intros ->. reflexivity.
Qed.

Lemma lstrip_app_stop : forall l c q,
  isspace c = false -> lstrip (l ++ c :: q) = lstrip l ++ c :: q.
Proof.
  induction l as [|x l IH]; simpl; intros c q Hc.
  - rewrite Hc. reflexivity.
  - destruct (isspace x); [apply IH; assumption|reflexivity].
Qed.

Lemma rstrip_no_trail s : no_trail (rstrip s).
Proof.
  unfold no_trail, rstrip. rewrite rev_involutive. apply lstrip_no_lead.
Qed.

Lemma rstrip_no_lead s : no_lead s -> no_lead (rstrip s).
Proof.
  destruct s as [|c s]; simpl; [intros _; exact I|]. intros Hc.
  unfold rstrip. simpl. rewrite lstrip_app_stop by assumption.
  rewrite rev_app_distr. simpl. assumption.
Qed.

Lemma rstrip_id s : no_trail s -> rstrip s = s.
Proof.
  unfold no_trail, rstrip. intros H. rewrite lstrip_id by assumption.
  apply rev_involutive.
Qed.

Lemma strip_idem s : strip (strip s) = strip s.
Proof.
  unfold strip at 1.
  rewrite (lstrip_id (strip s)).
  - apply rstrip_id. unfold strip. apply rstrip_no_trail.
  - unfold strip. apply rstrip_no_lead, lstrip_no_lead.
Qed.

Lemma lower_Forall s : Forall is_lower (lower s).
Proof.
  unfold lower. induction s as [|c s IH]; simpl; constructor; [|assumption].
  apply lower1_idem.
Qed.

Lemma lower_id : forall s, Forall is_lower s -> lower s = s.
Proof.
  induction s as [|c s IH]; intros H; simpl; [reflexivity|].
  inversion H; subst. unfold is_lower in *. f_equal; auto.
Qed.

Lemma filter_id (p : ascii -> bool) : forall s,
  Forall (fun c => p c = false) s -> filter (fun c => negb (p c)) s = s.
Proof.
  induction s as [|c s IH]; intros H; simpl; [reflexivity|].
  inversion H as [|? ? Hc Hs]; subst. rewrite Hc. simpl. f_equal. auto.
Qed.

Lemma filter_not_punct s :
  Forall not_punct (filter (fun c => negb (is_punct c)) s).
Proof.
  apply Forall_forall. intros c Hc. apply filter_In in Hc.
  destruct Hc as [_ Hc]. unfold not_punct. destruct (is_punct c);
    [discriminate|reflexivity].
Qed.

Lemma Forall_filter_keep (P : ascii -> Prop) (f : ascii -> bool) s :
  Forall P s -> Forall P (filter f s).
Proof.
  rewrite !Forall_forall. intros H c Hc. apply filter_In in Hc. apply H, Hc.
Qed.

(** *** [normalize_name] *)

Lemma normalize_name_cons c name :
  normalize_name (c :: name) =
  strip (sub re_punct []
           (sub re_ws (py " ")
              (sub re_suffix [] (strip (lower (c :: name)))))).
Proof. reflexivity. Qed.

(** The shape of every normalized key: lower case, no period, comma,
    semicolon or colon, no white space but SPACE, none at either end. *)
Lemma normalize_name_shape name :
  let t := normalize_name name in
  Forall is_lower t /\ Forall not_punct t /\ Forall space_only t /\
  strip t = t.
Proof.
  cbv zeta. destruct name as [|c name].
  { simpl. repeat split; constructor. }
  rewrite normalize_name_cons.
  unfold re_punct. rewrite sub_plus_delete.
  repeat split.
  - apply strip_Forall, Forall_filter_keep, sub_Forall.
    + repeat constructor.
    + apply sub_Forall; [constructor|]. apply strip_Forall, lower_Forall.
  - apply strip_Forall, filter_not_punct.
  - apply strip_Forall, Forall_filter_keep, sub_ws_space_only.
  - apply strip_idem.
Qed.

(** C8 (as amended): a second application of [normalize_name] changes
    nothing provided the key produced by the first one does not end in a
    legal-form suffix again and has no two adjacent spaces. *)
Theorem normalize_name_fixed_point (s : str) :
  search re_suffix (normalize_name s) = false ->
  double_space (normalize_name s) = false ->
  normalize_name (normalize_name s) = normalize_name s.
Proof.
  intros Hsuffix Hspaces.
  destruct (normalize_name_shape s) as (Hlow & Hpunct & Hsp & Hstrip).
  simpl in *. remember (normalize_name s) as t eqn:Ht. clear Ht s.
  destruct t as [|c t]; [reflexivity|].
  rewrite normalize_name_cons.
  rewrite (lower_id _ Hlow), Hstrip.
  rewrite (sub_no_match _ _ _ Hsuffix).
  rewrite (sub_ws_id _ Hsp Hspaces).
  unfold re_punct. rewrite sub_plus_delete, (filter_id _ _ Hpunct).
  exact Hstrip.
Qed.

Lemma normalize_name_fixed_point_witness :
  search re_suffix (normalize_name (py "Instituto ABC S.A. de C.V.")) = false
  /\ double_space (normalize_name (py "Instituto ABC S.A. de C.V.")) = false
  /\ normalize_name (normalize_name (py "Instituto ABC S.A. de C.V."))
     = normalize_name (py "Instituto ABC S.A. de C.V.").
Proof.
  split; [vm_compute; reflexivity|]. split; [vm_compute; reflexivity|].
  apply (normalize_name_fixed_point (py "Instituto ABC S.A. de C.V."));
    vm_compute; reflexivity.
Defined.

(** C8 (as stated) fails: a name that carries two legal-form suffixes loses
    one per application, and a period between two spaces leaves a double
    space that only the next application collapses. *)
Lemma normalize_name_not_idempotent :
  normalize_name (py "abc sc sc") = py "abc sc" /\
  normalize_name (normalize_name (py "abc sc sc")) = py "abc" /\
  normalize_name (normalize_name (py "abc sc sc"))
    <> normalize_name (py "abc sc sc") /\
    normalize_name (normalize_name (py "a . b")) <> normalize_name (py "a . b").
Proof.
  repeat split; try (vm_compute; reflexivity); vm_compute; discriminate.
Qed.

(** *** The longest element of a set *)

Lemma max_len_from_In : forall l best,
  max_len_from best l = best \/ In (max_len_from best l) l.
Proof.
  induction l as [|x l IH]; simpl; intros best; [auto|].
  destruct (IH (if length best <? length x then x else best)) as [H|H];
    [|auto].
  rewrite H. destruct (length best <? length x); auto.
Qed.

Lemma max_len_from_max : forall l best,
  length best <= length (max_len_from best l) /\
  forall n, In n l -> length n <= length (max_len_from best l).
Proof.
  induction l as [|x l IH]; intros best; simpl.
  - split; [lia|]. intros n [].
  - destruct (IH (if length best <? length x then x else best)) as [Hb Hl].
    destruct (length best <? length x) eqn:E.
    + apply Nat.ltb_lt in E. split; [lia|].
      intros n [<-|Hn]; [assumption|auto].
    + apply Nat.ltb_ge in E. split; [lia|].
      intros n [<-|Hn]; [lia|auto].
Qed.

Lemma max_by_len_In order l :
  iteration_order order -> l <> [] -> In (max_by_len order l) l.
Proof.
  intros Hord Hne. unfold max_by_len.
  destruct (order l) as [|x l'] eqn:E.
  - exfalso. apply Hne.
    apply Permutation_nil. rewrite <- E. exact (Hord l).
  - apply (Permutation_in _ (Hord l)). rewrite E.
    destruct (max_len_from_In l' x) as [H|H]; [left; congruence|right; auto].
Qed.

Lemma max_by_len_max order l n :
  iteration_order order -> In n l ->
  length n <= length (max_by_len order l).
Proof.
  intros Hord Hn. unfold max_by_len.
  apply (Permutation_in _ (Permutation_sym (Hord l))) in Hn.
  destruct (order l) as [|x l']; [destruct Hn|].
  destruct (max_len_from_max l' x) as [Hb Hl].
  destruct Hn as [<-|Hn]; auto.
Qed.

(** A longest element that has no rival of its length is the one chosen,
    whatever the iteration order. *)
Lemma max_by_len_longest order l x :
  iteration_order order -> In x l ->
  (forall y, In y l -> length x <= length y -> y = x) ->
  max_by_len order l = x.
Proof.
  intros Hord Hx Huniq. apply Huniq.
  - apply max_by_len_In; [exact Hord|]. intros E. rewrite E in Hx.
    destruct Hx.
  - apply max_by_len_max; assumption.
Qed.

Lemma insertion_order_is_an_order : iteration_order insertion_order.
Proof. intros l. apply Permutation_refl. Qed.

Lemma reverse_order_is_an_order : iteration_order reverse_order.
Proof. intros l. apply Permutation_sym, Permutation_rev. Qed.

(** The lists of entries depend on the iteration order only through the
    canonical names it selects. *)
Lemma ece_entries_order order1 order2 : forall mp,
  (forall k a, In (k, a) mp ->
               max_by_len order1 (names a) = max_by_len order2 (names a)) ->
  ece_entries order1 mp = ece_entries order2 mp.
Proof.
  unfold ece_entries. intros mp.
  assert (G : forall acc,
            (forall k a, In (k, a) mp ->
                         max_by_len order1 (names a)
                         = max_by_len order2 (names a)) ->
            fold_left (fun registry kv =>
                         registry ++ [ece_entry order1 registry kv]) mp acc
            = fold_left (fun registry kv =>
                           registry ++ [ece_entry order2 registry kv]) mp acc).
  { induction mp as [|[k a] mp IH]; intros acc H; simpl; [reflexivity|].
    assert (E : ece_entry order1 acc (k, a) = ece_entry order2 acc (k, a)).
    { unfold ece_entry. simpl. rewrite (H k a (or_introl eq_refl)).
      reflexivity. }
    rewrite E. apply IH. intros k' a' Hin. apply (H k'). right. exact Hin. }
  apply G.
Qed.

Lemma ccap_entries_order order1 order2 : forall mp,
  (forall k a, In (k, a) mp ->
               max_by_len order1 (c_names a)
               = max_by_len order2 (c_names a)) ->
  ccap_entries order1 mp = ccap_entries order2 mp.
Proof.
  unfold ccap_entries. intros mp.
  assert (G : forall acc,
            (forall k a, In (k, a) mp ->
                         max_by_len order1 (c_names a)
                         = max_by_len order2 (c_names a)) ->
            fold_left (fun registry kv =>
                         registry ++ [ccap_entry order1 registry kv]) mp acc
            = fold_left (fun registry kv =>
                           registry ++ [ccap_entry order2 registry kv]) mp acc).
  { induction mp as [|[k a] mp IH]; intros acc H; simpl; [reflexivity|].
    assert (E : ccap_entry order1 acc (k, a) = ccap_entry order2 acc (k, a)).
    { unfold ccap_entry. simpl. rewrite (H k a (or_introl eq_refl)).
      reflexivity. }
    rewrite E. apply IH. intros k' a' Hin. apply (H k'). right. exact Hin. }
  apply G.
Qed.

(** *** The end-to-end scenario *)

Lemma scenario_build order :
  iteration_order order ->
  build_ece_registry order scenario
  = build_ece_registry insertion_order scenario.
Proof.
  intros Hord. unfold build_ece_registry. f_equal.
  apply ece_entries_order. intros k a Hin.
  vm_compute in Hin. destruct Hin as [Heq|[]].
  inversion Heq; subst; clear Heq. cbn [names].
  transitivity (py "Instituto ABC S.A. de C.V.").
  - apply max_by_len_longest; [exact Hord|left; reflexivity|].
    intros y [<-|[<-|[]]] Hy; [reflexivity|].
    vm_compute in Hy. lia.
  - symmetry.
    apply max_by_len_longest;
      [exact insertion_order_is_an_order|left; reflexivity|].
    intros y [<-|[<-|[]]] Hy; [reflexivity|].
    vm_compute in Hy. lia.
Qed.

(** C5: on the two-record scenario the certifier registry has exactly one
    entry, with the expected canonical name, alternate names, count, codes
    and SA de CV tag, and both rows of the matrix point to its id; this
    holds in every process, whatever its iteration order of sets. *)
Theorem scenario_registry_and_matrix (order : list str -> list str) :
  iteration_order order ->
  exists e,
    build_ece_registry order scenario = [e] /\
    canonical_name e = py "Instituto ABC S.A. de C.V." /\
    alternate_names e = [py "INSTITUTO ABC"] /\
    ec_count e = 2 /\
    ec_codes e = [py "EC001"; py "EC002"] /\
    e_entity_type e = Some SA_de_CV /\
    normalize_name (py "Instituto ABC S.A. de C.V.")
      = normalize_name (py "INSTITUTO ABC") /\
      let matrix :=
        build_ec_ece_matrix scenario (build_ece_registry order scenario) in
    dict_keys matrix = [py "EC001"; py "EC002"] /\
    option_map (@ece_ids) (dict_get matrix (py "EC001")) = Some [id e] /\
    option_map (@ece_ids) (dict_get matrix (py "EC002")) = Some [id e].
Proof.
  intros Hord. rewrite (scenario_build order Hord).
  eexists. split; [vm_compute; reflexivity|].
  repeat split; vm_compute; reflexivity.
Qed.

Lemma scenario_registry_and_matrix_witness :
  iteration_order reverse_order /\
  exists e,
    build_ece_registry reverse_order scenario = [e] /\
    canonical_name e = py "Instituto ABC S.A. de C.V." /\
    alternate_names e = [py "INSTITUTO ABC"] /\
    ec_count e = 2 /\
    ec_codes e = [py "EC001"; py "EC002"] /\
    e_entity_type e = Some SA_de_CV /\
    normalize_name (py "Instituto ABC S.A. de C.V.")
      = normalize_name (py "INSTITUTO ABC") /\
      let matrix :=
        build_ec_ece_matrix scenario
          (build_ece_registry reverse_order scenario) in
    dict_keys matrix = [py "EC001"; py "EC002"] /\
    option_map (@ece_ids) (dict_get matrix (py "EC001")) = Some [id e] /\
    option_map (@ece_ids) (dict_get matrix (py "EC002")) = Some [id e].
Proof.
  split; [exact reverse_order_is_an_order|].
  exact (scenario_registry_and_matrix reverse_order
           reverse_order_is_an_order).
Defined.

(** *** Order on strings *)

Lemma ord_inj x y : ord x = ord y -> x = y.
Proof.
  unfold ord. intros H.
  rewrite <- (ascii_N_embedding x), <- (ascii_N_embedding y), H. reflexivity.
Qed.

Ltac cmp_heads :=
  repeat match goal with
         | |- context [N.ltb ?a ?b] => destruct (N.ltb_spec a b)
         | H : context [N.ltb ?a ?b] |- _ => destruct (N.ltb_spec a b)
         end.

Lemma str_ltb_asym : forall a b, str_ltb a b = true -> str_ltb b a = false.
Proof.
  induction a as [|x a IH]; intros [|y b] H; simpl in *;
    try discriminate; try reflexivity.
  cmp_heads; try lia; try discriminate; auto.
Qed.

Lemma str_ltb_cotrans : forall c a b,
  str_ltb c a = true -> str_ltb c b = true \/ str_ltb b a = true.
Proof.
  induction c as [|x c IH]; intros [|y a] [|z b] H; simpl in *;
    try discriminate; auto.
  cmp_heads; try lia; try discriminate; auto.
Qed.

Lemma str_ltb_connex : forall a b,
  str_ltb a b = false -> str_ltb b a = false -> a = b.
Proof.
  induction a as [|x a IH]; intros [|y b] H1 H2; simpl in *;
    try discriminate; try reflexivity.
  cmp_heads; try lia; try discriminate.
  f_equal; [apply ord_inj; lia|auto].
Qed.

Lemma str_leb_total a b : str_leb a b = false -> str_leb b a = true.
Proof.
  unfold str_leb. intros H. apply negb_false_iff in H.
  rewrite (str_ltb_asym _ _ H). reflexivity.
Qed.

Lemma str_leb_trans a b c :
  str_leb a b = true -> str_leb b c = true -> str_leb a c = true.
Proof.
  unfold str_leb. rewrite !negb_true_iff. intros H1 H2.
  destruct (str_ltb c a) eqn:H; [|reflexivity].
  destruct (str_ltb_cotrans _ _ b H); congruence.
Qed.

Lemma str_leb_antisym a b :
  str_leb a b = true -> str_leb b a = true -> a = b.
Proof.
  unfold str_leb. rewrite !negb_true_iff. intros H1 H2.
  apply str_ltb_connex; assumption.
Qed.

(** *** Insertion sort *)

Section SortFacts.
Variable A : Type.
Variable leb : A -> A -> bool.
Hypothesis leb_total : forall x y, leb x y = false -> leb y x = true.
Hypothesis leb_trans :
  forall x y z, leb x y = true -> leb y z = true -> leb x z = true.

Lemma insert_perm x : forall l, Permutation (insert leb x l) (x :: l).
Proof.
  induction l as [|y l IH]; simpl; [reflexivity|].
  destruct (leb x y); [reflexivity|].
  rewrite IH. apply perm_swap.
Qed.

Lemma sort_perm : forall l, Permutation (sort leb l) l.
Proof.
  induction l as [|x l IH]; simpl; [reflexivity|].
  rewrite insert_perm, IH. reflexivity.
Qed.

Lemma insert_sorted x : forall l,
  StronglySorted (holds A leb) l ->
  StronglySorted (holds A leb) (insert leb x l).
Proof.
  induction l as [|y l IH]; simpl; intros H.
  - repeat constructor.
  - inversion H as [|? ? Hl Hy]; subst.
    destruct (leb x y) eqn:Hxy.
    + constructor; [assumption|]. constructor; [assumption|].
      eapply Forall_impl; [|exact Hy]. intros z Hz. eapply leb_trans; eauto.
    + constructor; [auto|].
      apply (Permutation_Forall (Permutation_sym (insert_perm x l))).
      constructor; [apply leb_total; assumption|assumption].
Qed.

Lemma sort_sorted : forall l, StronglySorted (holds A leb) (sort leb l).
Proof.
  induction l as [|x l IH]; simpl; [constructor|].
  apply insert_sorted. assumption.
Qed.

(** Two sorted arrangements of the same elements coincide when no two
    distinct elements compare equal. *)
Lemma sorted_perm_unique : forall l1 l2,
  StronglySorted (holds A leb) l1 -> StronglySorted (holds A leb) l2 ->
  Permutation l1 l2 ->
  (forall x y, In x l1 -> In y l1 ->
               holds A leb x y -> holds A leb y x -> x = y) ->
  l1 = l2.
Proof.
  induction l1 as [|x l1 IH]; intros l2 S1 S2 P Hanti.
  - apply Permutation_nil in P. auto.
  - destruct l2 as [|y l2].
    { apply Permutation_sym, Permutation_nil in P. discriminate. }
    inversion S1 as [|? ? S1' Hx]; subst.
    inversion S2 as [|? ? S2' Hy]; subst.
    assert (Hxy : x = y).
    { assert (In x (y :: l2)) as [Heq|Hin]
        by (eapply Permutation_in; [exact P|left; reflexivity]);
        [auto|].
      assert (In y (x :: l1)) as [Heq|Hin']
        by (eapply Permutation_in;
            [apply Permutation_sym; exact P|left; reflexivity]);
        [auto|].
      rewrite Forall_forall in Hx, Hy.
      apply Hanti; [left; reflexivity|right; assumption|auto|auto]. }
    subst y. f_equal. apply IH; auto.
    + eapply Permutation_cons_inv; eauto.
    + intros a b Ha Hb. apply Hanti; right; assumption.
Qed.
End SortFacts.

Lemma StronglySorted_weaken (A : Type) (R R' : A -> A -> Prop) :
  (forall x y, R x y -> R' x y) ->
  forall l, StronglySorted R l -> StronglySorted R' l.
Proof.
  intros H. induction l as [|x l IH]; intros S; [constructor|].
  inversion S as [|? ? Sl Hx]; subst. constructor; [auto|].
  eapply Forall_impl; [|exact Hx]. auto.
Qed.

Lemma sort_map (A B : Type) (f : A -> B) (lebA : A -> A -> bool)
  (lebB : B -> B -> bool) :
  (forall x y, lebB (f x) (f y) = lebA x y) ->
  forall l, sort lebB (map f l) = map f (sort lebA l).
Proof.
  intros H. induction l as [|x l IH]; simpl; [reflexivity|].
  rewrite IH. generalize (sort lebA l). clear IH.
  induction l0 as [|y l0 IH]; simpl; [reflexivity|].
  rewrite H. destruct (lebA x y); simpl; [reflexivity|]. rewrite IH.
  reflexivity.
Qed.

(** *** Ranking of registry entries *)

Lemma entry_leb_ranked x y : entry_leb x y = true <-> ranked_before x y.
Proof.
  unfold entry_leb, ranked_before.
  destruct (Nat.ltb_spec (ec_count y) (ec_count x)).
  { split; auto. }
  destruct (Nat.ltb_spec (ec_count x) (ec_count y)).
  { split; [discriminate|]. intros [?|[? _]]; lia. }
  split.
  - intros Hs. right. split; [lia|assumption].
  - intros [?|[_ ?]]; [lia|assumption].
Qed.

Lemma entry_leb_total x y : entry_leb x y = false -> entry_leb y x = true.
Proof.
  unfold entry_leb.
  destruct (Nat.ltb_spec (ec_count y) (ec_count x)); [discriminate|].
  destruct (Nat.ltb_spec (ec_count x) (ec_count y)); [reflexivity|].
  apply str_leb_total.
Qed.

Lemma entry_leb_trans x y z :
  entry_leb x y = true -> entry_leb y z = true -> entry_leb x z = true.
Proof.
  rewrite !entry_leb_ranked. unfold ranked_before.
  intros [H1|[H1 L1]] [H2|[H2 L2]]; try (left; lia).
  right. split; [lia|]. eapply str_leb_trans; eauto.
Qed.

Lemma entry_leb_no_id x y : entry_leb (no_id x) (no_id y) = entry_leb x y.
Proof. reflexivity. Qed.

Lemma assign_ids_no_id prefix : forall l i,
  assign_ids prefix i (map no_id l) = assign_ids prefix i l.
Proof.
  induction l as [|e l IH]; intros i; simpl; [reflexivity|].
  rewrite IH. reflexivity.
Qed.

Lemma no_id_assign_ids prefix : forall l i,
  map no_id (assign_ids prefix i l) = map no_id l.
Proof.
  induction l as [|e l IH]; intros i; simpl; [reflexivity|].
  rewrite IH. reflexivity.
Qed.

(** The ids are the positions in the list, counted from [i + 1]. *)
Lemma assign_ids_ids prefix : forall l i,
  map id (assign_ids prefix i l) =
  map (fun k => prefix ++ fmt05 k) (seq (i + 1) (length l)).
Proof.
  induction l as [|e l IH]; intros i; simpl; [reflexivity|].
  rewrite IH. replace (S i + 1) with (S (i + 1)) by lia. reflexivity.
Qed.

Lemma assign_ids_length prefix : forall l i,
  length (assign_ids prefix i l) = length l.
Proof.
  induction l as [|e l IH]; intros i; simpl; [reflexivity|].
  rewrite IH. reflexivity.
Qed.

Lemma ranked_no_id l :
  StronglySorted ranked_before (map no_id l) ->
  StronglySorted ranked_before l.
Proof.
  induction l as [|e l IH]; simpl; intros H; [constructor|].
  inversion H as [|? ? Hl He]; subst. constructor; [auto|].
  rewrite Forall_map in He. exact He.
Qed.

Lemma rank_sorted prefix l : StronglySorted ranked_before (rank prefix l).
Proof.
  unfold rank. apply ranked_no_id. rewrite no_id_assign_ids.
  rewrite <- (sort_map _ _ no_id entry_leb entry_leb entry_leb_no_id).
  eapply StronglySorted_weaken;
    [|apply sort_sorted;
      [exact entry_leb_total|exact entry_leb_trans]].
  intros x y. unfold holds. apply entry_leb_ranked.
Qed.

Lemma rank_ids prefix l :
  map id (rank prefix l) =
  map (fun k => prefix ++ fmt05 k) (seq 1 (length (rank prefix l))).
Proof.
  unfold rank. rewrite assign_ids_ids, assign_ids_length. reflexivity.
Qed.

Lemma NoDup_map_determines (A B : Type) (f : A -> B) : forall l,
  NoDup (map f l) ->
  forall x y, In x l -> In y l -> f x = f y -> x = y.
Proof.
  induction l as [|e l IH]; simpl; [intros _ ? ? []|].
  intros ND. inversion ND as [|? ? Hnot ND']; subst.
  intros x y [->|Hx] [->|Hy] Hc.
  - reflexivity.
  - exfalso. apply Hnot. rewrite Hc. apply in_map. assumption.
  - exfalso. apply Hnot. rewrite <- Hc. apply in_map. assumption.
  - apply IH; assumption.
Qed.

(** The ranked registry depends only on the set of grouped entries, not on
    the order in which they were discovered nor on provisional ids. *)
Lemma rank_order_independent prefix l1 l2 :
  Permutation (map no_id l1) (map no_id l2) ->
  NoDup (map canonical_name l1) ->
  rank prefix l1 = rank prefix l2.
Proof.
  intros P ND. unfold rank.
  rewrite <- (assign_ids_no_id prefix (sort entry_leb l1)).
  rewrite <- (assign_ids_no_id prefix (sort entry_leb l2)).
  rewrite <- !(sort_map _ _ no_id entry_leb entry_leb entry_leb_no_id).
  f_equal.
  apply (sorted_perm_unique entry (fun x y => entry_leb x y)).
  - apply sort_sorted; [exact entry_leb_total|exact entry_leb_trans].
  - apply sort_sorted; [exact entry_leb_total|exact entry_leb_trans].
  - rewrite !sort_perm. exact P.
  - intros x y Hx Hy Hxy Hyx. unfold holds in Hxy, Hyx.
    apply (Permutation_in _ (sort_perm _ entry_leb _)) in Hx, Hy.
    apply in_map_iff in Hx, Hy.
    destruct Hx as (x0 & <- & Hx0). destruct Hy as (y0 & <- & Hy0).
    rewrite entry_leb_no_id in Hxy, Hyx.
    apply entry_leb_ranked in Hxy, Hyx.
    assert (Hc : canonical_name x0 = canonical_name y0).
    { destruct Hxy as [?|[? ?]], Hyx as [?|[? ?]]; try lia.
      apply str_leb_antisym; assumption. }
    f_equal. eapply NoDup_map_determines; eauto.
Qed.

(** *** Containers *)

Lemma mem_In x l : mem x l = true <-> In x l.
Proof.
  unfold mem. rewrite existsb_exists. split.
  - intros (y & Hy & Heq). apply str_eqb_eq in Heq. subst. assumption.
  - intros H. exists x. split; [assumption|apply str_eqb_refl].
Qed.

Lemma mem_false x l : mem x l = false <-> ~ In x l.
Proof.
  rewrite <- mem_In. destruct (mem x l); split; congruence.
Qed.

Lemma set_add_In x y l : In y (set_add x l) <-> y = x \/ In y l.
Proof.
  unfold set_add. destruct (mem x l) eqn:Hm.
  - apply mem_In in Hm. split; [auto|]. intros [->|H]; assumption.
  - rewrite in_app_iff. simpl. split; intros [H|H]; auto.
    + destruct H as [H|[]]; auto.
Qed.

Lemma set_add_NoDup x l : NoDup l -> NoDup (set_add x l).
Proof.
  unfold set_add. intros H. destruct (mem x l) eqn:Hm; [assumption|].
  apply mem_false in Hm.
  apply NoDup_app; [assumption|repeat constructor; auto|].
  intros y Hy [<-|[]]. contradiction.
Qed.

Lemma set_add_not_nil x l : set_add x l <> [].
Proof.
  unfold set_add. destruct (mem x l) eqn:Hm.
  - apply mem_In in Hm. destruct l; [destruct Hm|discriminate].
  - destruct l; discriminate.
Qed.

Lemma set_of_list_spec l :
  NoDup (set_of_list l) /\ forall x, In x (set_of_list l) <-> In x l.
Proof.
  unfold set_of_list.
  assert (G : forall acc, NoDup acc ->
              NoDup (fold_left (fun a x => set_add x a) l acc) /\
              forall x, In x (fold_left (fun a x => set_add x a) l acc)
                        <-> In x acc \/ In x l).
  { induction l as [|y l IH]; simpl; intros acc Hacc.
    - split; [assumption|]. intros x. tauto.
    - destruct (IH (set_add y acc) (set_add_NoDup y acc Hacc)) as [H1 H2].
      split; [assumption|]. intros x. rewrite H2, set_add_In.
      split; intros H; intuition auto. }
  destruct (G [] (NoDup_nil _)) as [H1 H2]. split; [assumption|].
  intros x. rewrite H2. simpl. tauto.
Qed.

Lemma sorted_strs_perm l : Permutation (sorted_strs l) l.
Proof. apply sort_perm. Qed.

Lemma sorted_strs_In x l : In x (sorted_strs l) <-> In x l.
Proof.
  split; apply Permutation_in;
    [apply sorted_strs_perm|apply Permutation_sym, sorted_strs_perm].
Qed.

Lemma dict_get_In (V : Type) : forall (d : dict V) k v,
  dict_get d k = Some v -> In (k, v) d.
Proof.
  induction d as [|[k' v'] d IH]; simpl; intros k v H; [discriminate|].
  destruct (str_eqb k k') eqn:Hk.
  - apply str_eqb_eq in Hk. inversion H; subst. left. reflexivity.
  - right. apply IH. assumption.
Qed.

Lemma dict_get_None (V : Type) : forall (d : dict V) k,
  dict_get d k = None <-> ~ In k (dict_keys d).
Proof.
  induction d as [|[k' v'] d IH]; simpl; intros k.
  - split; auto.
  - destruct (str_eqb k k') eqn:Hk.
    + apply str_eqb_eq in Hk. split; [discriminate|]. intros H.
      exfalso. apply H. left. congruence.
    + apply str_eqb_neq in Hk. rewrite IH. split.
      * intros H [Heq|Hin]; [congruence|contradiction].
      * intros H Hin. apply H. right. assumption.
Qed.

Lemma dict_set_In (V : Type) : forall (d : dict V) k v k' v',
  In (k', v') (dict_set d k v) -> (k' = k /\ v' = v) \/ In (k', v') d.
Proof.
  induction d as [|[k0 v0] d IH]; simpl; intros k v k' v' H.
  - destruct H as [H|[]]. inversion H. auto.
  - destruct (str_eqb k k0) eqn:Hk; simpl in H.
    + destruct H as [H|H]; [inversion H; auto|auto].
    + destruct H as [H|H]; [auto|].
      destruct (IH _ _ _ _ H); auto.
Qed.

Lemma dict_set_keys (V : Type) : forall (d : dict V) k v,
  dict_keys (dict_set d k v) =
  if mem k (dict_keys d) then dict_keys d else dict_keys d ++ [k].
Proof.
  unfold dict_keys.
  induction d as [|[k0 v0] d IH]; simpl; intros k v; [reflexivity|].
  destruct (str_eqb k k0) eqn:Hk; simpl.
  - apply str_eqb_eq in Hk. subst. reflexivity.
  - rewrite IH. destruct (mem k (map fst d)); reflexivity.
Qed.

Lemma dict_set_keys_NoDup (V : Type) (d : dict V) k v :
  NoDup (dict_keys d) -> NoDup (dict_keys (dict_set d k v)).
Proof.
  intros H. rewrite dict_set_keys. destruct (mem k (dict_keys d)) eqn:Hm;
    [assumption|].
  apply mem_false in Hm.
  apply NoDup_app; [assumption|repeat constructor; auto|].
  intros y Hy [<-|[]]. contradiction.
Qed.

Lemma dict_get_set_same (V : Type) : forall (d : dict V) k v,
  dict_get (dict_set d k v) k = Some v.
Proof.
  induction d as [|[k0 v0] d IH]; simpl; intros k v.
  - rewrite str_eqb_refl. reflexivity.
  - destruct (str_eqb k k0) eqn:Hk; simpl.
    + rewrite str_eqb_refl. reflexivity.
    + rewrite Hk. apply IH.
Qed.

Lemma fold_left_inv (A B : Type) (P : A -> Prop) (f : A -> B -> A) :
  (forall a x, P a -> P (f a x)) ->
  forall l a, P a -> P (fold_left f l a).
Proof.
  intros H. induction l as [|x l IH]; simpl; auto.
Qed.

(** *** The grouping maps *)

Section Groups.
Variable V : Type.
Variable nm : V -> list str.
Variable floor : nat.
Variable order : list str -> list str.
Hypothesis order_perm : iteration_order order.

Lemma groups_wf_nil : groups_wf V nm floor [].
Proof. split; [constructor|]. intros k a []. Qed.

Lemma groups_wf_set mp k v :
  groups_wf V nm floor mp -> group_ok floor k (nm v) ->
  groups_wf V nm floor (dict_set mp k v).
Proof.
  intros [Hk Hg] Hv. split.
  - apply dict_set_keys_NoDup. assumption.
  - intros k' a' H. apply dict_set_In in H.
    destruct H as [[-> ->]|H]; auto.
Qed.

Lemma group_ok_add k v cert :
  floor <= length cert -> normalize_name cert = k ->
  (nm v = [] \/ group_ok floor k (nm v)) ->
  group_ok floor k (set_add cert (nm v)).
Proof.
  intros Hlen Hnorm H. split; [apply set_add_not_nil|].
  apply Forall_forall. intros n Hn. apply set_add_In in Hn.
  destruct Hn as [->|Hn]; [auto|].
  destruct H as [H|[_ H]]; [rewrite H in Hn; destruct Hn|].
  rewrite Forall_forall in H. auto.
Qed.

(** The registry before ranking: one entry per group, whose fields other
    than the id do not depend on the entries built so far. *)
Lemma entries_no_id (mk : list entry -> str * V -> entry)
  (core : str * V -> entry) :
  (forall registry kv, no_id (mk registry kv) = core kv) ->
  forall mp acc,
    map no_id (fold_left (fun registry kv => registry ++ [mk registry kv])
                 mp acc)
    = map no_id acc ++ map core mp.
Proof.
  intros H. induction mp as [|kv mp IH]; intros acc; simpl.
  - rewrite app_nil_r. reflexivity.
  - rewrite IH, map_app. simpl. rewrite H, <- app_assoc. reflexivity.
Qed.

(** In a well-formed map the longest names of distinct groups differ. *)
Lemma canonical_names_distinct mp :
  groups_wf V nm floor mp ->
  NoDup (map (fun kv => max_by_len order (nm (snd kv))) mp).
Proof.
  intros [Hk Hg]. unfold dict_keys in Hk.
  induction mp as [|[k a] mp IH]; simpl in *; [constructor|].
  inversion Hk as [|? ? Hnot Hk']; subst. constructor.
  - intros Hin. apply Hnot. apply in_map_iff in Hin.
    destruct Hin as ([k' a'] & Heq & Hin). simpl in Heq.
    apply in_map_iff. exists (k', a'). split; [|assumption]. simpl.
    destruct (Hg k a (or_introl eq_refl)) as [Hne Hall].
    destruct (Hg k' a' (or_intror Hin)) as [Hne' Hall'].
    rewrite Forall_forall in Hall, Hall'.
    destruct (Hall _ (max_by_len_In order _ order_perm Hne)) as [_ <-].
    destruct (Hall' _ (max_by_len_In order _ order_perm Hne')) as [_ <-].
    congruence.
  - apply IH; [assumption|]. intros k' a' H. apply Hg. right. assumption.
Qed.
End Groups.

Lemma ece_step_wf ec_code mp cert :
  groups_wf ece_acc names 3 mp ->
  groups_wf ece_acc names 3 (ece_step ec_code mp cert).
Proof.
  intros Hwf. unfold ece_step.
  destruct (is_empty cert || (length cert <? 3)) eqn:Hskip; [assumption|].
  apply orb_false_iff in Hskip. destruct Hskip as [_ Hlen].
  apply Nat.ltb_ge in Hlen.
  destruct (is_empty (normalize_name cert)); [assumption|].
  apply groups_wf_set; [assumption|]. simpl.
  apply group_ok_add; [assumption|reflexivity|].
  destruct (dict_get mp (normalize_name cert)) as [e|] eqn:Hget.
  - right. destruct Hwf as [_ Hg]. apply Hg.
    apply dict_get_In. assumption.
  - left. reflexivity.
Qed.

Lemma ece_collect_wf ec_data : groups_wf ece_acc names 3 (ece_collect ec_data).
Proof.
  unfold ece_collect. apply fold_left_inv; [|apply groups_wf_nil].
  intros mp kv Hmp. apply fold_left_inv; [|assumption].
  intros. apply ece_step_wf. assumption.
Qed.

Lemma ccap_step_wf ec_code mp course :
  groups_wf ccap_acc c_names 5 mp ->
  groups_wf ccap_acc c_names 5 (ccap_step ec_code mp course).
Proof.
  intros Hwf. unfold ccap_step.
  destruct (is_empty course || (length course <? 5)) eqn:Hskip; [assumption|].
  apply orb_false_iff in Hskip. destruct Hskip as [_ Hlen].
  apply Nat.ltb_ge in Hlen.
  destruct (is_empty (normalize_name course)); [assumption|].
  apply groups_wf_set; [assumption|]. simpl.
  apply group_ok_add; [assumption|reflexivity|].
  destruct (dict_get mp (normalize_name course)) as [e|] eqn:Hget.
  - right. destruct Hwf as [_ Hg]. apply Hg.
    apply dict_get_In. assumption.
  - left. reflexivity.
Qed.

Lemma ccap_collect_wf ec_data :
  groups_wf ccap_acc c_names 5 (ccap_collect ec_data).
Proof.
  unfold ccap_collect. apply fold_left_inv; [|apply groups_wf_nil].
  intros mp kv Hmp. apply fold_left_inv; [|assumption].
  intros. apply ccap_step_wf. assumption.
Qed.

(** *** The registries *)

Lemma canonical_name_no_id l :
  map canonical_name (map no_id l) = map canonical_name l.
Proof. rewrite map_map. reflexivity. Qed.

Lemma ece_entries_no_id order mp :
  map no_id (ece_entries order mp)
  = map (fun kv => no_id (ece_entry order [] kv)) mp.
Proof.
  unfold ece_entries.
  rewrite (entries_no_id ece_acc (ece_entry order)
             (fun kv => no_id (ece_entry order [] kv))); reflexivity.
Qed.

Lemma ccap_entries_no_id order mp :
  map no_id (ccap_entries order mp)
  = map (fun kv => no_id (ccap_entry order [] kv)) mp.
Proof.
  unfold ccap_entries.
  rewrite (entries_no_id ccap_acc (ccap_entry order)
             (fun kv => no_id (ccap_entry order [] kv))); reflexivity.
Qed.

Lemma ece_canonical_distinct order ec_data :
  iteration_order order ->
  NoDup (map canonical_name (ece_entries order (ece_collect ec_data))).
Proof.
  intros Hord.
  rewrite <- canonical_name_no_id, ece_entries_no_id, map_map. simpl.
  apply (canonical_names_distinct ece_acc names 3 order Hord), ece_collect_wf.
Qed.

Lemma ccap_canonical_distinct order ec_data :
  iteration_order order ->
  NoDup (map canonical_name (ccap_entries order (ccap_collect ec_data))).
Proof.
  intros Hord.
  rewrite <- canonical_name_no_id, ccap_entries_no_id, map_map. simpl.
  apply (canonical_names_distinct ccap_acc c_names 5 order Hord),
    ccap_collect_wf.
Qed.

(** Every entry of a ranked registry is, up to its id, an entry of the list
    that was ranked. *)
Lemma rank_In prefix l e :
  In e (rank prefix l) -> exists e0, In e0 l /\ no_id e = no_id e0.
Proof.
  intros H. apply (in_map no_id) in H. unfold rank in H.
  rewrite no_id_assign_ids in H. apply in_map_iff in H.
  destruct H as (e0 & Heq & Hin). exists e0. split; [|auto].
  eapply Permutation_in; [apply sort_perm|exact Hin].
Qed.

Lemma In_no_id e l : In e l -> In (no_id e) (map no_id l).
Proof. apply in_map. Qed.

Lemma ece_registry_entry order ec_data e :
  In e (build_ece_registry order ec_data) ->
  exists k a, In (k, a) (ece_collect ec_data) /\
              no_id e = no_id (ece_entry order [] (k, a)).
Proof.
  intros H. apply rank_In in H. destruct H as (e0 & Hin & ->).
  apply In_no_id in Hin. rewrite ece_entries_no_id in Hin.
  apply in_map_iff in Hin. destruct Hin as ([k a] & Heq & Hin). eauto.
Qed.

Lemma ccap_registry_entry order ec_data e :
  In e (build_ccap_registry order ec_data) ->
  exists k a, In (k, a) (ccap_collect ec_data) /\
              no_id e = no_id (ccap_entry order [] (k, a)).
Proof.
  intros H. apply rank_In in H. destruct H as (e0 & Hin & ->).
  apply In_no_id in Hin. rewrite ccap_entries_no_id in Hin.
  apply in_map_iff in Hin. destruct Hin as ([k a] & Heq & Hin). eauto.
Qed.

(** The names an entry shows all belong to its group. *)
Lemma entry_names_from_group order floor k ns canonical alternates :
  iteration_order order ->
  group_ok floor k ns ->
  canonical = max_by_len order ns ->
  alternates = sorted_strs (set_remove canonical ns) ->
  floor <= length canonical /\
  Forall (fun n => floor <= length n) alternates.
Proof.
  intros Hord [Hne Hall] -> ->. rewrite Forall_forall in Hall. split.
  - apply Hall, max_by_len_In; [exact Hord|exact Hne].
  - apply Forall_forall. intros n Hn.
    apply (proj1 (sorted_strs_In _ _)) in Hn.
    unfold set_remove in Hn. apply filter_In in Hn. apply Hall, Hn.
Qed.

(** C6 (as amended): a certifier name shorter than 3 characters is never the
    canonical name nor an alternate name of a certifier entry, and a course
    name shorter than 5 characters is never the canonical name nor an
    alternate name of a course entry. *)
Theorem floor_filtering (order : list str -> list str)
  (ec_data : dict ec_record) (e : entry) :
  iteration_order order ->
  (In e (build_ece_registry order ec_data) ->
   3 <= length (canonical_name e) /\
   Forall (fun n => 3 <= length n) (alternate_names e)) /\
  (In e (build_ccap_registry order ec_data) ->
   5 <= length (canonical_name e) /\
   Forall (fun n => 5 <= length n) (alternate_names e)).
Proof.
  intros Hord. split; intros H.
  - apply ece_registry_entry in H. destruct H as (k & a & Hin & Heq).
    destruct (ece_collect_wf ec_data) as [_ Hg].
    assert (Hc : canonical_name e = max_by_len order (names a))
      by (apply (f_equal canonical_name) in Heq; exact Heq).
    assert (Ha : alternate_names e
                 = sorted_strs
                     (set_remove (max_by_len order (names a)) (names a)))
      by (apply (f_equal alternate_names) in Heq; exact Heq).
    rewrite Hc, Ha.
    apply (entry_names_from_group order 3 k (names a));
      [exact Hord|apply (Hg k a Hin)|reflexivity|reflexivity].
  - apply ccap_registry_entry in H. destruct H as (k & a & Hin & Heq).
    destruct (ccap_collect_wf ec_data) as [_ Hg].
    assert (Hc : canonical_name e = max_by_len order (c_names a))
      by (apply (f_equal canonical_name) in Heq; exact Heq).
    assert (Ha : alternate_names e
                 = sorted_strs
                     (set_remove (max_by_len order (c_names a))
                        (c_names a)))
      by (apply (f_equal alternate_names) in Heq; exact Heq).
    rewrite Hc, Ha.
    apply (entry_names_from_group order 5 k (c_names a));
      [exact Hord|apply (Hg k a Hin)|reflexivity|reflexivity].
Qed.

Lemma floor_filtering_witness :
  iteration_order insertion_order /\
  In scenario_entry (build_ece_registry insertion_order scenario) /\
  3 <= length (canonical_name scenario_entry) /\
  Forall (fun n => 3 <= length n) (alternate_names scenario_entry).
Proof.
  assert (H : In scenario_entry (build_ece_registry insertion_order scenario))
    by (vm_compute; left; reflexivity).
  split; [exact insertion_order_is_an_order|]. split; [exact H|].
  exact (proj1 (floor_filtering insertion_order scenario scenario_entry
                  insertion_order_is_an_order) H).
Defined.

(** C6 (as stated) fails: the two-character name "AB" has the normalized key
    of the entry built from "AB.", and the matrix row of the record that
    only lists "AB" (which the registry does not count for that entry)
    holds the id of that entry. *)
Lemma short_name_reaches_matrix :
  length (py "AB") = 2 /\
  forall order,
    iteration_order order ->
    exists e,
      build_ece_registry order short_name_records = [e] /\
      normalized_key e = normalize_name (py "AB") /\
      ec_codes e = [py "EC001"] /\
      option_map (@ece_ids)
        (dict_get (build_ec_ece_matrix short_name_records
                     (build_ece_registry order short_name_records))
           (py "EC002"))
      = Some [id e].
Proof.
  split; [reflexivity|]. intros order Hord.
  assert (E : build_ece_registry order short_name_records
              = build_ece_registry insertion_order short_name_records).
  { unfold build_ece_registry. f_equal.
    apply ece_entries_order. intros k a Hin.
    vm_compute in Hin. destruct Hin as [Heq|[]].
    inversion Heq; subst; clear Heq. cbn [names].
    transitivity (py "AB.").
    - apply max_by_len_longest; [exact Hord|left; reflexivity|].
      intros y [<-|[]] _. reflexivity.
    - symmetry.
      apply max_by_len_longest;
        [exact insertion_order_is_an_order|left; reflexivity|].
      intros y [<-|[]] _. reflexivity. }
  rewrite E. eexists. split; [vm_compute; reflexivity|].
  repeat split; vm_compute; reflexivity.
Qed.

(** *** Traces *)

Lemma events_since_app w w' t :
  trace w' = trace w ++ t -> events_since w w' = t.
Proof.
  unfold events_since. intros ->. rewrite skipn_app, skipn_all, Nat.sub_diag.
  reflexivity.
Qed.

Lemma dispatched_app t1 t2 :
  dispatched (t1 ++ t2) = dispatched t1 ++ dispatched t2.
Proof. unfold dispatched. apply flat_map_app. Qed.


Lemma dispatched_pause pause : Forall is_sleep pause -> dispatched pause = [].
Proof.
  induction 1 as [|e pause [ms ->] _ IH]; simpl; [reflexivity|assumption].
Qed.




Lemma retry_trace_dispatched code r n t :
  retry_trace code r n t ->
  dispatched t = match r with 0 => [code] | S _ => [] end.
Proof.
  induction 1 as [r|r n pause t Hp Ht IH].
  - destruct r; reflexivity.
  - change (Attempt code r :: pause ++ t)
      with ([Attempt code r] ++ pause ++ t).
    rewrite !dispatched_app, IH, (dispatched_pause pause Hp).
    destruct r; reflexivity.
Qed.

Lemma attempts_trace_retry_trace pause code :
  Forall is_sleep pause ->
  forall n r, retry_trace code r (S n) (attempts_trace pause code r (S n)).
Proof.
  intros Hp. induction n as [|n IH]; intros r.
  - constructor.
  - change (attempts_trace pause code r (S (S n)))
      with (Attempt code r :: pause ++ attempts_trace pause code (S r) (S n)).
    constructor; [assumption|apply IH].
Qed.

(** *** The batch script: [process_ec] *)

Lemma Batch_process_ec_spec site now code retry w :
  retry <= 2 ->
  exists n,
    1 <= n /\ retry + n <= 3 /\
    trace (snd (Batch.process_ec site now code retry w))
      = trace w ++ attempts_trace [Sleep 2000] code retry n /\
    clock (snd (Batch.process_ec site now code retry w)) = clock w + n /\
    checkpoint_file (snd (Batch.process_ec site now code retry w))
      = checkpoint_file w /\
    output_file (snd (Batch.process_ec site now code retry w))
      = output_file w /\
    (fst (Batch.process_ec site now code retry w) = None ->
     retry + n = 3).
Proof.
  funelim (Batch.process_ec site now code retry w); intros Hr.
  - exists 1. simpl. repeat split; try lia. discriminate.
  - match goal with IH : _ -> exists _, _ |- _ =>
      destruct IH as (n & Hn & Hb & Ht & Hc & Hf & Ho & Hnone); [lia|] end.
    exists (S n). rewrite Ht, Hc, Hf, Ho. simpl.
    repeat split; try lia.
    + destruct n; [lia|]. rewrite <- !app_assoc. simpl.
      rewrite Nat.add_1_r. reflexivity.
    + intros H. specialize (Hnone H). lia.
  - exists 1. simpl. repeat split; lia.
Qed.

Lemma sleep_2000 : Forall is_sleep [Sleep 2000].
Proof. repeat constructor. exists 2000. reflexivity. Qed.

(** One call of [process_ec] from the main loop, as the loop sees it. *)
Lemma Batch_process_ec_call site now code w :
  exists n t,
    1 <= n <= 3 /\ retry_trace code 0 n t /\
    t = attempts_trace [Sleep 2000] code 0 n /\
    trace (snd (Batch.process_ec site now code 0 w)) = trace w ++ t /\
    checkpoint_file (snd (Batch.process_ec site now code 0 w))
      = checkpoint_file w /\
    output_file (snd (Batch.process_ec site now code 0 w)) = output_file w /\
    (fst (Batch.process_ec site now code 0 w) = None -> n = 3).
Proof.
  destruct (Batch_process_ec_spec site now code 0 w)
    as (n & Hn & Hb & Ht & Hc & Hf & Ho & Hnone); [lia|].
  exists n, (attempts_trace [Sleep 2000] code 0 n).
  repeat split; try assumption; try lia.
  destruct n; [lia|]. apply attempts_trace_retry_trace, sleep_2000.
Qed.

(** *** The details script: [process_ec] *)

Lemma Details_process_ec_spec site now code retry w :
  retry <= 3 ->
  exists n t,
    retry + n <= 4 /\ retry_trace code retry n t /\
    trace (snd (Details.process_ec site now code retry w)) = trace w ++ t /\
    checkpoint_file (snd (Details.process_ec site now code retry w))
      = checkpoint_file w /\
    output_file (snd (Details.process_ec site now code retry w))
      = output_file w /\
    (fst (Details.process_ec site now code retry w) = None ->
     retry + n = 4).
Proof.
  funelim (Details.process_ec site now code retry w); intros Hr;
    unfold Details.MAX_RETRIES in *;
    try (exists 1, [Attempt ec_code retry]; simpl;
         repeat split; try lia; try constructor; discriminate);
    match goal with IH : _ -> exists _ _, _ |- _ =>
      destruct IH as (n & t & Hb & Ht & Htr & Hf & Ho & Hnone); [lia|] end;
    rewrite Nat.add_1_r in *.
  - exists (S n), (Attempt ec_code retry :: [Sleep 2000] ++ t).
    rewrite Htr, Hf, Ho. simpl. repeat split; try lia.
    + apply (rt_more ec_code retry n [Sleep 2000] t); [|assumption].
      repeat constructor. exists 2000. reflexivity.
    + rewrite <- !app_assoc. reflexivity.
    + intros H. specialize (Hnone H). lia.
  - exists (S n), (Attempt ec_code retry :: [] ++ t).
    rewrite Htr, Hf, Ho. simpl. repeat split; try lia.
    + apply (rt_more ec_code retry n [] t); [constructor|assumption].
    + rewrite <- !app_assoc. reflexivity.
    + intros H. specialize (Hnone H). lia.
  - exists (S n), (Attempt ec_code retry :: [] ++ t).
    rewrite Htr, Hf, Ho. simpl. repeat split; try lia.
    + apply (rt_more ec_code retry n [] t); [constructor|assumption].
    + rewrite <- !app_assoc. reflexivity.
    + intros H. specialize (Hnone H). lia.
Qed.

(** *** The coordinator loops *)

Lemma run_ok_nil c w : run_ok [] c w c w.
Proof.
  exists [], [], []. rewrite !app_nil_r.
  repeat split; try reflexivity; try apply incl_refl.
  intros _ x [].
Qed.

Lemma run_ok_cons code rest c w c1 w1 c' w' :
  step_ok code c w c1 w1 -> run_ok rest c1 w1 c' w' ->
  run_ok (code :: rest) c w c' w'.
Proof.
  intros (t1 & Ht1 & Hd1 & Ho1 & Hrec)
         (t & S & F & Ht & Hd & Ho & HS & HF & HiS & HiF & Hdisj).
  assert (Hnd : NoDup (code :: rest) ->
                ~ In code S /\ ~ In code F /\
                forall x, In x S -> In x F -> False).
  { intros ND. apply NoDup_cons_iff in ND. destruct ND as [Hnot ND'].
    split; [intros H; apply Hnot, HiS, H|].
    split; [intros H; apply Hnot, HiF, H|apply Hdisj, ND']. }
  destruct Hrec as [[Hp Hf]|[Hp Hf]].
  - exists (t1 ++ t), (code :: S), F.
    rewrite Ht, Ht1, Ho, Ho1, HS, HF, Hp, Hf, dispatched_app, Hd1, Hd,
      <- !app_assoc.
    repeat split; try reflexivity.
    + intros x [<-|Hx]; [left; reflexivity|right; auto].
    + intros x Hx. right. auto.
    + intros ND x [<-|Hx] HxF; destruct (Hnd ND) as (H1 & H2 & H3); eauto.
  - exists (t1 ++ t), S, (code :: F).
    rewrite Ht, Ht1, Ho, Ho1, HS, HF, Hp, Hf, dispatched_app, Hd1, Hd,
      <- !app_assoc.
    repeat split; try reflexivity.
    + intros x Hx. right. auto.
    + intros x [<-|Hx]; [left; reflexivity|right; auto].
    + intros ND x HxS [<-|Hx]; destruct (Hnd ND) as (H1 & H2 & H3); eauto.
Qed.

Lemma Batch_record_recorded code data c :
  recorded code c (Batch.record code data c).
Proof.
  unfold Batch.record, recorded.
  destruct data as [d|]; [destruct (Batch.has_content (Some d))|];
    simpl; auto.
Qed.


Lemma Batch_body_ok site now i code c w :
  step_ok code c w (fst (Batch.body site now i code c w))
    (snd (Batch.body site now i code c w)).
Proof.
  unfold Batch.body.
  destruct (Batch_process_ec_call site now code w)
    as (n & t & Hn & Hrt & _ & Ht & _ & Ho & _).
  destruct (Batch.process_ec site now code 0 w) as [r w1]. simpl in *.
  pose proof (Batch_record_recorded code r c) as Hrec.
  destruct ((i + 1) mod Batch.BATCH_SAVE_SIZE =? 0); simpl.
  - unfold recorded in *. simpl in Hrec.
    exists (t ++ [Saved (fst (Batch.save_checkpoint now
                                (Batch.record code r c) w1))]).
    rewrite Ht, <- app_assoc, dispatched_app,
      (retry_trace_dispatched _ _ _ _ Hrt). simpl.
    repeat split; assumption.
  - exists t. rewrite (retry_trace_dispatched _ _ _ _ Hrt).
    repeat split; assumption.
Qed.


Lemma Batch_loop_ok site now : forall rem i c w,
  run_ok rem c w (fst (Batch.loop site now i rem c w))
    (snd (Batch.loop site now i rem c w)).
Proof.
  induction rem as [|code rest IH]; intros i c w; simpl.
  - apply run_ok_nil.
  - pose proof (Batch_body_ok site now i code c w) as Hb.
    destruct (Batch.body site now i code c w) as [c2 w2].
    eapply run_ok_cons; [exact Hb|apply IH].
Qed.


Lemma load_ec_codes_NoDup st : NoDup (load_ec_codes st).
Proof.
  unfold load_ec_codes.
  eapply Permutation_NoDup;
    [apply Permutation_sym, sorted_strs_perm|apply set_of_list_spec].
Qed.

Lemma remaining_of_NoDup st c : NoDup (remaining_of (load_ec_codes st) c).
Proof. apply NoDup_filter, load_ec_codes_NoDup. Qed.

(** The remaining work is the universe minus [processed]; the [failed] list
    plays no part in it. *)
Lemma remaining_of_In ec_codes c x :
  In x (remaining_of ec_codes c) <-> In x ec_codes /\ ~ In x (processed c).
Proof.
  unfold remaining_of. rewrite filter_In, negb_true_iff, mem_false.
  destruct (set_of_list_spec (processed c)) as [_ H]. rewrite H. tauto.
Qed.



(** *** Checkpoint cadence and killed runs *)

Ltac mod_facts a b :=
  pose proof (Nat.div_mod_eq a b);
  pose proof (Nat.mod_upper_bound a b ltac:(lia)).

Lemma firstn_split_at (A : Type) : forall j k (l : list A),
  j <= k -> firstn k l = firstn j l ++ firstn (k - j) (skipn j l).
Proof.
  induction j as [|j IH]; intros k l Hjk.
  - simpl. rewrite Nat.sub_0_r. reflexivity.
  - destruct k as [|k]; [lia|]. destruct l as [|x l].
    + simpl. rewrite firstn_nil. reflexivity.
    + simpl. rewrite (IH k l) by lia. reflexivity.
Qed.

Lemma Batch_body_checkpoint_file site now i code c w :
  checkpoint_file (snd (Batch.body site now i code c w)) =
  if (i + 1) mod Batch.BATCH_SAVE_SIZE =? 0
  then Some (fst (Batch.body site now i code c w))
  else checkpoint_file w.
Proof.
  unfold Batch.body.
  destruct (Batch_process_ec_call site now code w)
    as (n & t & _ & _ & _ & _ & Hf & _).
  destruct (Batch.process_ec site now code 0 w) as [r w1].
  cbn [fst snd] in Hf.
  destruct ((i + 1) mod Batch.BATCH_SAVE_SIZE =? 0); simpl;
    [reflexivity|assumption].
Qed.

Lemma Batch_loop_app site now : forall l1 l2 i c w,
  Batch.loop site now i (l1 ++ l2) c w =
  Batch.loop site now (i + length l1) l2
    (fst (Batch.loop site now i l1 c w))
    (snd (Batch.loop site now i l1 c w)).
Proof.
  induction l1 as [|x l1 IH]; intros l2 i c w; simpl.
  - rewrite Nat.add_0_r. reflexivity.
  - destruct (Batch.body site now i x c w) as [c2 w2].
    rewrite IH. replace (S i + length l1) with (i + S (length l1)) by lia.
    reflexivity.
Qed.

Lemma Batch_loop_no_save site now : forall rem i c w,
  (forall j, i <= j < i + length rem ->
             (j + 1) mod Batch.BATCH_SAVE_SIZE <> 0) ->
  checkpoint_file (snd (Batch.loop site now i rem c w)) = checkpoint_file w.
Proof.
  induction rem as [|x rem IH]; intros i c w H; simpl; [reflexivity|].
  pose proof (Batch_body_checkpoint_file site now i x c w) as Hb.
  destruct (Batch.body site now i x c w) as [c2 w2]. cbn [fst snd] in Hb.
  rewrite IH.
  - rewrite Hb.
    destruct ((i + 1) mod Batch.BATCH_SAVE_SIZE =? 0) eqn:Hc; [|reflexivity].
    apply Nat.eqb_eq in Hc. exfalso. apply (H i); [simpl; lia|assumption].
  - intros j Hj. apply H. simpl. lia.
Qed.

Lemma Batch_loop_saved site now rem i c w :
  rem <> [] -> (i + length rem) mod Batch.BATCH_SAVE_SIZE = 0 ->
  checkpoint_file (snd (Batch.loop site now i rem c w))
  = Some (fst (Batch.loop site now i rem c w)).
Proof.
  intros Hne Hmod.
  destruct (exists_last Hne) as (l & x & ->).
  rewrite Batch_loop_app. rewrite length_app in Hmod. simpl in Hmod.
  set (c1 := fst (Batch.loop site now i l c w)).
  set (w1 := snd (Batch.loop site now i l c w)).
  simpl.
  pose proof (Batch_body_checkpoint_file site now (i + length l) x c1 w1)
    as Hb.
  destruct (Batch.body site now (i + length l) x c1 w1) as [c2 w2].
  cbn [fst snd] in *. rewrite Hb.
  replace (i + length l + 1) with (i + (length l + 1)) by lia.
  rewrite Hmod. reflexivity.
Qed.

(** A killed run leaves the checkpoint file as it was at the last multiple
    of [BATCH_SAVE_SIZE] items. *)
Lemma Batch_killed_periodic site now k st w :
  checkpoint_file (Batch.main_killed_after site now k st w) =
  checkpoint_file
    (Batch.main_killed_after site now (k - k mod Batch.BATCH_SAVE_SIZE) st w).
Proof.
  unfold Batch.main_killed_after, Batch.BATCH_SAVE_SIZE.
  set (rem := remaining_of (load_ec_codes st) (Batch.load_checkpoint w)).
  set (c := Batch.load_checkpoint w).
  mod_facts k 20.
  rewrite (firstn_split_at _ (k - k mod 20) k rem) by lia.
  rewrite Batch_loop_app. rewrite Batch_loop_no_save; [reflexivity|].
  intros j Hj. unfold Batch.BATCH_SAVE_SIZE.
  rewrite length_firstn, length_firstn, length_skipn in Hj.
  mod_facts (j + 1) 20. lia.
Qed.

Lemma Batch_killed_at_boundary site now k st w :
  0 < k -> k mod Batch.BATCH_SAVE_SIZE = 0 ->
  k <= length (remaining_of (load_ec_codes st) (Batch.load_checkpoint w)) ->
  checkpoint_file (Batch.main_killed_after site now k st w) =
  Some (fst (Batch.loop site now 0
               (firstn k (remaining_of (load_ec_codes st)
                            (Batch.load_checkpoint w)))
               (Batch.load_checkpoint w) w)).
Proof.
  intros Hk Hmod Hlen. unfold Batch.main_killed_after.
  apply Batch_loop_saved.
  - intros H. apply (f_equal (@length str)) in H.
    rewrite length_firstn in H. simpl in H. lia.
  - rewrite length_firstn, Nat.min_l by assumption. exact Hmod.
Qed.

Lemma Details_body_checkpoint_file site now bc code c w :
  checkpoint_file (snd (fst (Details.body site now bc code c w))) =
  if Details.BATCH_SIZE <=? bc + 1
  then Some (fst (fst (Details.body site now bc code c w)))
  else checkpoint_file w.
Proof.
  unfold Details.body.
  destruct (Details_process_ec_spec site now code 0 w)
    as (n & t & _ & _ & _ & Hf & _); [lia|].
  destruct (Details.process_ec site now code 0 w) as [r w1].
  cbn [fst snd] in Hf.
  destruct (Details.BATCH_SIZE <=? bc + 1); simpl;
    [reflexivity|assumption].
Qed.

Lemma Details_body_batch_count site now bc code c w :
  bc < Details.BATCH_SIZE ->
  snd (Details.body site now bc code c w) = (bc + 1) mod Details.BATCH_SIZE.
Proof.
  unfold Details.body, Details.BATCH_SIZE. intros Hbc.
  destruct (Details.process_ec site now code 0 w) as [r w1].
  destruct (Nat.leb_spec 10 (bc + 1)); simpl.
  - replace (bc + 1) with 10 by lia. reflexivity.
  - rewrite Nat.mod_small by lia. reflexivity.
Qed.

Lemma Details_loop_app site now : forall l1 l2 bc c w,
  bc < Details.BATCH_SIZE ->
  Details.loop site now bc (l1 ++ l2) c w =
  Details.loop site now ((bc + length l1) mod Details.BATCH_SIZE) l2
    (fst (Details.loop site now bc l1 c w))
    (snd (Details.loop site now bc l1 c w)).
Proof.
  induction l1 as [|x l1 IH]; intros l2 bc c w Hbc; simpl.
  - rewrite Nat.add_0_r, Nat.mod_small by assumption. reflexivity.
  - pose proof (Details_body_batch_count site now bc x c w Hbc) as Hb.
    destruct (Details.body site now bc x c w) as [[c2 w2] bc'].
    cbn [snd] in Hb. subst bc'.
    rewrite IH by (apply Nat.mod_upper_bound; discriminate).
    rewrite Nat.Div0.add_mod_idemp_l.
    replace (bc + 1 + length l1) with (bc + S (length l1)) by lia.
    reflexivity.
Qed.

Lemma Details_loop_no_save site now : forall rem bc c w,
  bc + length rem < Details.BATCH_SIZE ->
  checkpoint_file (snd (Details.loop site now bc rem c w))
  = checkpoint_file w.
Proof.
  induction rem as [|x rem IH]; intros bc c w H; simpl; [reflexivity|].
  pose proof (Details_body_checkpoint_file site now bc x c w) as Hb.
  assert (Hbc : bc < Details.BATCH_SIZE) by (simpl in H; lia).
  pose proof (Details_body_batch_count site now bc x c w Hbc) as Hn.
  destruct (Details.body site now bc x c w) as [[c2 w2] bc'].
  cbn [fst snd] in Hb, Hn. subst bc'. unfold Details.BATCH_SIZE in *.
  simpl in H.
  rewrite IH.
  - rewrite Hb. destruct (Nat.leb_spec 10 (bc + 1)); [lia|reflexivity].
  - rewrite Nat.mod_small by lia. lia.
Qed.

Lemma Details_loop_saved site now rem bc c w :
  bc < Details.BATCH_SIZE -> rem <> [] ->
  (bc + length rem) mod Details.BATCH_SIZE = 0 ->
  checkpoint_file (snd (Details.loop site now bc rem c w))
  = Some (fst (Details.loop site now bc rem c w)).
Proof.
  intros Hbc Hne Hmod.
  destruct (exists_last Hne) as (l & x & ->).
  rewrite Details_loop_app by assumption.
  rewrite length_app in Hmod. simpl in Hmod.
  set (c1 := fst (Details.loop site now bc l c w)).
  set (w1 := snd (Details.loop site now bc l c w)).
  set (b := (bc + length l) mod Details.BATCH_SIZE).
  simpl.
  pose proof (Details_body_checkpoint_file site now b x c1 w1) as Hb.
  destruct (Details.body site now b x c1 w1) as [[c2 w2] bc'].
  cbn [fst snd] in *. rewrite Hb.
  unfold Details.BATCH_SIZE in *. subst b.
  mod_facts (bc + length l) 10. mod_facts (bc + (length l + 1)) 10.
  destruct (Nat.leb_spec 10 ((bc + length l) mod 10 + 1));
    [reflexivity|lia].
Qed.

Lemma Details_killed_periodic site now k st w :
  checkpoint_file (Details.main_killed_after site now k st w) =
  checkpoint_file
    (Details.main_killed_after site now (k - k mod Details.BATCH_SIZE) st w).
Proof.
  unfold Details.main_killed_after.
  set (rem := remaining_of (load_ec_codes st) (Details.load_checkpoint w)).
  set (c := Details.load_checkpoint w).
  assert (H10 : 0 < Details.BATCH_SIZE) by (unfold Details.BATCH_SIZE; lia).
  unfold Details.BATCH_SIZE in *.
  mod_facts k 10.
  rewrite (firstn_split_at _ (k - k mod 10) k rem) by lia.
  rewrite Details_loop_app by exact H10.
  destruct (Nat.le_gt_cases (length rem) (k - k mod 10)) as [Hshort|Hlong].
  - rewrite (skipn_all2 rem Hshort), firstn_nil. reflexivity.
  - rewrite Details_loop_no_save; [reflexivity|].
    unfold Details.BATCH_SIZE.
    rewrite length_firstn, length_firstn, length_skipn.
    rewrite (Nat.min_l (k - k mod 10)) by lia.
    replace (0 + (k - k mod 10)) with (k - k mod 10) by lia.
    replace (k - (k - k mod 10)) with (k mod 10) by lia.
    assert (Hz : (k - k mod 10) mod 10 = 0).
    { replace (k - k mod 10) with (k / 10 * 10) by lia.
      apply Nat.Div0.mod_mul. }
    rewrite Hz. lia.
Qed.

Lemma Details_killed_at_boundary site now k st w :
  0 < k -> k mod Details.BATCH_SIZE = 0 ->
  k <= length (remaining_of (load_ec_codes st) (Details.load_checkpoint w)) ->
  checkpoint_file (Details.main_killed_after site now k st w) =
  Some (fst (Details.loop site now 0
               (firstn k (remaining_of (load_ec_codes st)
                            (Details.load_checkpoint w)))
               (Details.load_checkpoint w) w)).
Proof.
  intros Hk Hmod Hlen. unfold Details.main_killed_after.
  apply Details_loop_saved.
  - unfold Details.BATCH_SIZE. lia.
  - intros H. apply (f_equal (@length str)) in H.
    rewrite length_firstn in H. simpl in H. lia.
  - rewrite length_firstn, Nat.min_l by assumption. exact Hmod.
Qed.

(** *** Exhausted retries *)



(** *** The claims on the extraction scripts *)










(** C4: the batch script records a returned record as a success exactly
    when it has a certifier or a non-empty title, and as a failure
    otherwise; the details script tests only [if data:], so on a site whose
    pages hold nothing it records the all-blank record of EC001 as a
    success, with nothing in the failed list. *)
Theorem details_script_records_blank_extraction_as_success :
  (forall code d c,
     Batch.record code (Some d) c =
     if is_empty (certifiers (x_record d)) && is_empty (title (x_record d))
     then record_failure code c
     else record_success code d c) /\
  (forall code d c, Details.record code (Some d) c = record_success code d c) /\
  let w' := Details.main details_site_blank now0 one_standard w0 in
  processed (Details.load_checkpoint w') = [EC001] /\
  failed (Details.load_checkpoint w') = [] /\
  option_map x_record (dict_get (data (Details.load_checkpoint w')) EC001)
    = Some blank_record /\
  option_map failed_ecs (output_file w') = Some [].
Proof.
  split.
  { intros code d c. unfold Batch.record, Batch.has_content.
    destruct (certifiers (x_record d)), (title (x_record d)); reflexivity. }
  split; [reflexivity|].
  repeat split; vm_compute; reflexivity.
Qed.

(** *** The checkpoint file *)

Lemma fold_writes pieces : forall content,
  fold_left apply_op (map Write pieces) content
  = content ++ List.concat pieces.
Proof.
  induction pieces as [|p pieces IH]; intros content; simpl.
  - rewrite app_nil_r. reflexivity.
  - rewrite IH, <- app_assoc. reflexivity.
Qed.

Lemma firstn_writes_close n pieces :
  fold_left apply_op (firstn n (map Write pieces ++ [Close])) []
  = List.concat (firstn n pieces).
Proof.
  rewrite firstn_app, fold_left_app, firstn_map, fold_writes. simpl.
  destruct (firstn (n - length (map Write pieces)) [Close]) as [|op l] eqn:Hf;
    [reflexivity|].
  assert (Hop : op = Close /\ l = []).
  { destruct (n - length (map Write pieces)); simpl in Hf; inversion Hf.
    rewrite firstn_nil. auto. }
  destruct Hop as [-> ->]. reflexivity.
Qed.

(** C3 (as amended): [save_checkpoint] overwrites the file in place.  A
    process that dies before the [open] leaves the prior content; one that
    dies right after it leaves an empty file; from then on the file holds
    the pieces of the new document written so far, a prefix of it; only
    once every operation of the save has run does the file hold the
    complete new document.  The prior checkpoint is gone as soon as the save
    has started. *)
Theorem save_checkpoint_overwrites_in_place
  (dump : checkpoint -> list str) (stamp : str) (c : checkpoint)
  (prior : str) (n : nat) :
  file_after_crash dump 0 stamp c prior = prior /\
  file_after_crash dump 1 stamp c prior = [] /\
  file_after_crash dump (S n) stamp c prior
    = List.concat
        (firstn n
           (dump (mk_ck (processed c) (failed c) (data c) (Some stamp)))) /\
  file_after_crash dump (length (save_ops dump stamp c)) stamp c prior
    = document dump stamp c.
Proof.
  unfold file_after_crash, save_ops, document.
  set (pieces := dump (mk_ck (processed c) (failed c) (data c) (Some stamp))).
  split; [reflexivity|]. split; [reflexivity|]. split.
  - simpl. apply firstn_writes_close.
  - simpl. rewrite firstn_writes_close, length_app, length_map. simpl.
    rewrite firstn_all2 by lia. reflexivity.
Qed.

(** C3 (as stated) fails: the process dies between [open(..., "w")] and the
    first write; the file, which held a complete checkpoint document, is now
    empty, neither the prior document nor the new one. *)
Lemma crash_after_open_leaves_empty_file :
  let prior := py "{old checkpoint}" in
  let dump := one_piece (py "{new checkpoint}") in
  let c := mk_ck [] [] [] None in
  file_after_crash dump 1 (now0 0) c prior = [] /\
  file_after_crash dump 1 (now0 0) c prior <> prior /\
  file_after_crash dump 1 (now0 0) c prior <> document dump (now0 0) c.
Proof.
  repeat split; vm_compute; try reflexivity; discriminate.
Qed.

(** ** Further properties of the extraction scripts *)

(** *** What [process_ec] returns *)

Lemma Batch_process_ec_result site now code retry w d :
  fst (Batch.process_ec site now code retry w) = Some d ->
  x_ec_code d = code /\
  site (clock (snd (Batch.process_ec site now code retry w)) - 1) code
  = Batch.Returns (x_record d).
Proof.
  funelim (Batch.process_ec site now code retry w); intros Hsome.
  - inversion Hsome; subst. simpl. rewrite Nat.sub_0_r. auto.
  - auto.
  - discriminate.
Qed.

Lemma Details_process_ec_result site now code retry w d :
  fst (Details.process_ec site now code retry w) = Some d ->
  x_ec_code d = code /\
  exists error,
    truthy error = false /\
    site (clock (snd (Details.process_ec site now code retry w)) - 1) code
    = Details.Evaluated (x_record d) error.
Proof.
  funelim (Details.process_ec site now code retry w); intros Hsome;
    try discriminate; auto.
  inversion Hsome; subst. simpl. rewrite Nat.sub_0_r. eauto.
Qed.

Lemma Details_process_ec_clock site now code retry w :
  retry <= 3 ->
  clock w + 1 <= clock (snd (Details.process_ec site now code retry w)) /\
  clock (snd (Details.process_ec site now code retry w)) + retry
  <= clock w + 4.
Proof.
  funelim (Details.process_ec site now code retry w); intros Hr;
    unfold Details.MAX_RETRIES in *;
    try (simpl; lia);
    match goal with IH : _ -> _ /\ _ |- _ =>
      specialize (IH ltac:(lia)) end;
    match goal with |- context [clock (snd ?p)] =>
      set (x := clock (snd p)) in * end;
    simpl in *; lia.
Qed.

(** *** The loops as chains of recorded items *)

Lemma Batch_body_recorded site now i code c w :
  recorded_as code c (fst (Batch.body site now i code c w)).
Proof.
  unfold Batch.body.
  pose proof (Batch_process_ec_result site now code 0 w) as Hres.
  destruct (Batch.process_ec site now code 0 w) as [r w1].
  cbn [fst snd] in Hres.
  assert (Hrec : recorded_as code c (Batch.record code r c)).
  { unfold Batch.record, recorded_as. destruct r as [d|].
    - destruct (Batch.has_content (Some d)); simpl; [|auto].
      left. exists d. destruct (Hres d eq_refl). auto.
    - simpl. auto. }
  destruct ((i + 1) mod Batch.BATCH_SAVE_SIZE =? 0); exact Hrec.
Qed.

Lemma Details_body_recorded site now bc code c w :
  recorded_as code c (fst (fst (Details.body site now bc code c w))).
Proof.
  unfold Details.body.
  pose proof (Details_process_ec_result site now code 0 w) as Hres.
  destruct (Details.process_ec site now code 0 w) as [r w1].
  cbn [fst snd] in Hres.
  assert (Hrec : recorded_as code c (Details.record code r c)).
  { unfold Details.record, recorded_as. destruct r as [d|]; simpl; [|auto].
    left. exists d. destruct (Hres d eq_refl). auto. }
  destruct (Details.BATCH_SIZE <=? bc + 1); exact Hrec.
Qed.

Lemma same_content_refl c : same_content c c.
Proof. repeat split. Qed.

Lemma chain_same rem c c1 c2 :
  chain rem c c1 -> same_content c1 c2 -> chain rem c c2.
Proof.
  induction 1 as [c c' Hs|code rest c c1' c' Hr Hc IH]; intros H2.
  - constructor. destruct Hs as (A & B & C), H2 as (A' & B' & C').
    repeat split; congruence.
  - econstructor; eauto.
Qed.

Lemma Batch_loop_chain site now : forall rem i c w,
  chain rem c (fst (Batch.loop site now i rem c w)).
Proof.
  induction rem as [|code rest IH]; intros i c w; simpl.
  - constructor. apply same_content_refl.
  - pose proof (Batch_body_recorded site now i code c w) as Hb.
    destruct (Batch.body site now i code c w) as [c2 w2].
    econstructor; [exact Hb|apply IH].
Qed.

Lemma Details_loop_chain site now : forall rem bc c w,
  chain rem c (fst (Details.loop site now bc rem c w)).
Proof.
  induction rem as [|code rest IH]; intros bc c w; simpl.
  - constructor. apply same_content_refl.
  - pose proof (Details_body_recorded site now bc code c w) as Hb.
    destruct (Details.body site now bc code c w) as [[c2 w2] bc'].
    econstructor; [exact Hb|apply IH].
Qed.

Lemma Batch_main_chain site now st w :
  chain (remaining_of (load_ec_codes st) (Batch.load_checkpoint w))
    (Batch.load_checkpoint w)
    (Batch.load_checkpoint (Batch.main site now st w)).
Proof.
  unfold Batch.main.
  destruct (remaining_of (load_ec_codes st) (Batch.load_checkpoint w))
    as [|code rest] eqn:Hrem.
  - constructor. apply same_content_refl.
  - pose proof (Batch_loop_chain site now (code :: rest) 0
                  (Batch.load_checkpoint w) w) as Hc.
    destruct (Batch.loop site now 0 (code :: rest)
                (Batch.load_checkpoint w) w) as [c w1].
    eapply chain_same; [exact Hc|]. repeat split.
Qed.

Lemma Details_main_chain site now st w :
  chain (remaining_of (load_ec_codes st) (Details.load_checkpoint w))
    (Details.load_checkpoint w)
    (Details.load_checkpoint (Details.main site now st w)).
Proof.
  unfold Details.main.
  destruct (remaining_of (load_ec_codes st) (Details.load_checkpoint w))
    as [|code rest] eqn:Hrem.
  - constructor. apply same_content_refl.
  - pose proof (Details_loop_chain site now (code :: rest) 0
                  (Details.load_checkpoint w) w) as Hc.
    destruct (Details.loop site now 0 (code :: rest)
                (Details.load_checkpoint w) w) as [c w1].
    eapply chain_same; [exact Hc|]. repeat split.
Qed.

(** *** What a chain guarantees *)

Lemma chain_partition rem c c' :
  chain rem c c' ->
  exists S F,
    processed c' = processed c ++ S /\ failed c' = failed c ++ F /\
    Permutation (S ++ F) rem.
Proof.
  induction 1 as [c c' (A & B & _)|code rest c c1 c' Hr Hc IH].
  - exists [], []. rewrite A, B, !app_nil_r. auto.
  - destruct IH as (S & F & HS & HF & HP).
    destruct Hr as [(d & _ & Hp & Hf & _)|(Hp & Hf & _)].
    + exists (code :: S), F. rewrite HS, HF, Hp, Hf, <- app_assoc.
      repeat split. simpl. constructor. exact HP.
    + exists S, (code :: F). rewrite HS, HF, Hp, Hf, <- app_assoc.
      repeat split. apply Permutation_sym, Permutation_cons_app,
        Permutation_sym. exact HP.
Qed.

Lemma dict_get_set_other (V : Type) : forall (d : dict V) k v k',
  k' <> k -> dict_get (dict_set d k v) k' = dict_get d k'.
Proof.
  induction d as [|[k0 v0] d IH]; simpl; intros k v k' Hne.
  - apply str_eqb_neq in Hne. rewrite Hne. reflexivity.
  - destruct (str_eqb k k0) eqn:Hk; simpl.
    + apply str_eqb_eq in Hk. subst k0.
      apply str_eqb_neq in Hne. rewrite Hne. reflexivity.
    + destruct (str_eqb k' k0); [reflexivity|]. apply IH. assumption.
Qed.

(** A run leaves the records of the items it did not dispatch alone. *)
Lemma chain_data_other rem c c' x :
  chain rem c c' -> ~ In x rem ->
  dict_get (data c') x = dict_get (data c) x.
Proof.
  induction 1 as [c c' (_ & _ & C)|code rest c c1 c' Hr Hc IH]; intros Hx.
  - rewrite C. reflexivity.
  - rewrite IH by (intros H; apply Hx; right; exact H).
    destruct Hr as [(d & _ & _ & _ & Hd)|(_ & _ & Hd)]; rewrite Hd.
    + apply dict_get_set_other. intros ->. apply Hx. left. reflexivity.
    + reflexivity.
Qed.

Lemma chain_processed_have_data rem c c' :
  chain rem c c' -> processed_have_data c -> processed_have_data c'.
Proof.
  induction 1 as [c c' (A & _ & C)|code rest c c1 c' Hr Hc IH]; intros H.
  - intros x Hx. rewrite A in Hx. rewrite C. auto.
  - apply IH. intros x Hx.
    destruct Hr as [(d & Hcode & Hp & _ & Hd)|(Hp & _ & Hd)];
      rewrite Hp in Hx; rewrite Hd.
    + destruct (list_eq_dec ascii_dec x code) as [->|Hne].
      * exists d. rewrite dict_get_set_same. auto.
      * rewrite dict_get_set_other by assumption. apply H.
        apply in_app_iff in Hx. destruct Hx as [Hx|[Hx|[]]]; congruence.
    + auto.
Qed.

(** *** Coverage and invariants of a complete run *)

Lemma chain_covers rem c c' x :
  chain rem c c' -> In x rem -> In x (processed c') \/ In x (failed c').
Proof.
  intros Hc Hx. destruct (chain_partition _ _ _ Hc) as (S & F & HS & HF & HP).
  apply (Permutation_in _ (Permutation_sym HP)) in Hx.
  rewrite HS, HF. apply in_app_iff in Hx.
  destruct Hx; [left|right]; apply in_app_iff; auto.
Qed.

Lemma chain_processed_grows rem c c' x :
  chain rem c c' -> In x (processed c) -> In x (processed c').
Proof.
  intros Hc Hx. destruct (chain_partition _ _ _ Hc) as (S & F & HS & _).
  rewrite HS. apply in_app_iff. auto.
Qed.

Lemma chain_lengths rem c c' :
  chain rem c c' ->
  length (processed c') + length (failed c')
  = length (processed c) + length (failed c) + length rem.
Proof.
  intros Hc. destruct (chain_partition _ _ _ Hc) as (S & F & HS & HF & HP).
  rewrite HS, HF, !length_app, <- (Permutation_length HP), length_app. lia.
Qed.

Lemma universe_split st c x :
  In x (load_ec_codes st) ->
  In x (processed c) \/ In x (remaining_of (load_ec_codes st) c).
Proof.
  intros Hx. destruct (in_dec (list_eq_dec ascii_dec) x (processed c));
    [auto|right]. apply remaining_of_In. auto.
Qed.

(** After a complete run every item of the universe is in [processed] or
    in [failed] of the checkpoint left on disk, and the two lists have grown
    by exactly one entry per remaining item. *)
Theorem complete_run_accounts_for_every_item (st : list standard) (w : world) :
  (forall site now,
     let c := Batch.load_checkpoint w in
     let c' := Batch.load_checkpoint (Batch.main site now st w) in
     (forall x, In x (load_ec_codes st) ->
                In x (processed c') \/ In x (failed c')) /\
     length (processed c') + length (failed c')
     = length (processed c) + length (failed c)
       + length (remaining_of (load_ec_codes st) c)) /\
  (forall site now,
     let c := Details.load_checkpoint w in
     let c' := Details.load_checkpoint (Details.main site now st w) in
     (forall x, In x (load_ec_codes st) ->
                In x (processed c') \/ In x (failed c')) /\
     length (processed c') + length (failed c')
     = length (processed c) + length (failed c)
       + length (remaining_of (load_ec_codes st) c)).
Proof.
  split; intros site now; cbv zeta.
  - pose proof (Batch_main_chain site now st w) as Hc. split.
    + intros x Hx.
      destruct (universe_split st (Batch.load_checkpoint w) x Hx) as [H|H].
      * left. eapply chain_processed_grows; eauto.
      * eapply chain_covers; eauto.
    + apply chain_lengths. exact Hc.
  - pose proof (Details_main_chain site now st w) as Hc. split.
    + intros x Hx.
      destruct (universe_split st (Details.load_checkpoint w) x Hx) as [H|H].
      * left. eapply chain_processed_grows; eauto.
      * eapply chain_covers; eauto.
    + apply chain_lengths. exact Hc.
Qed.

Lemma chain_processed_NoDup rem c c' :
  chain rem c c' -> NoDup rem ->
  (forall x, In x rem -> ~ In x (processed c)) ->
  NoDup (processed c) -> NoDup (processed c').
Proof.
  intros Hc ND Hrem Hp.
  destruct (chain_partition _ _ _ Hc) as (S & F & HS & _ & HP).
  rewrite HS.
  assert (NDS : NoDup S).
  { apply (NoDup_app_remove_r S F).
    eapply Permutation_NoDup; [apply Permutation_sym; exact HP|exact ND]. }
  apply NoDup_app; [assumption|assumption|].
  intros x Hx HxS. apply (Hrem x); [|assumption].
  eapply Permutation_in; [exact HP|]. apply in_app_iff. auto.
Qed.

(** A run never lists an item twice in [processed]: if the loaded
    checkpoint has no duplicate there, neither has the one left on disk. *)
Theorem processed_stays_duplicate_free (st : list standard) (w : world) :
  NoDup (processed (Batch.load_checkpoint w)) ->
  (forall site now,
     NoDup (processed (Batch.load_checkpoint (Batch.main site now st w)))) /\
  (forall site now,
     NoDup (processed
              (Details.load_checkpoint (Details.main site now st w)))).
Proof.
  intros Hp. split; intros site now.
  - eapply chain_processed_NoDup;
      [apply Batch_main_chain|apply remaining_of_NoDup| |exact Hp].
    intros x Hx. apply remaining_of_In in Hx. apply Hx.
  - eapply chain_processed_NoDup;
      [apply Details_main_chain|apply remaining_of_NoDup| |exact Hp].
    intros x Hx. apply remaining_of_In in Hx. apply Hx.
Qed.

Lemma processed_stays_duplicate_free_witness :
  NoDup (processed (Batch.load_checkpoint w0)) /\
  NoDup (processed
           (Batch.load_checkpoint
              (Batch.main batch_site_up now0 two_standards w0))).
Proof.
  assert (H : NoDup (processed (Batch.load_checkpoint w0))) by constructor.
  split; [exact H|].
  exact (proj1 (processed_stays_duplicate_free two_standards w0 H)
           batch_site_up now0).
Defined.

(** A run keeps the link between [processed] and [data]: if every
    processed item of the loaded checkpoint has a record stored under its
    code and tagged with it, the same holds of the checkpoint left on
    disk. *)
Theorem processed_items_keep_their_record (st : list standard) (w : world) :
  processed_have_data (Batch.load_checkpoint w) ->
  (forall site now,
     processed_have_data
       (Batch.load_checkpoint (Batch.main site now st w))) /\
  (forall site now,
     processed_have_data
       (Details.load_checkpoint (Details.main site now st w))).
Proof.
  intros H. split; intros site now.
  - eapply chain_processed_have_data; [apply Batch_main_chain|exact H].
  - eapply chain_processed_have_data; [apply Details_main_chain|exact H].
Qed.

Lemma processed_items_keep_their_record_witness :
  processed_have_data (Batch.load_checkpoint w0) /\
  processed_have_data
    (Batch.load_checkpoint (Batch.main batch_site_up now0 two_standards w0)).
Proof.
  assert (H : processed_have_data (Batch.load_checkpoint w0))
    by (intros x []).
  split; [exact H|].
  exact (proj1 (processed_items_keep_their_record two_standards w0 H)
           batch_site_up now0).
Defined.

(** A later run neither overwrites nor drops the record of an item that
    was already processed when it started. *)
Theorem earlier_records_are_untouched (st : list standard) (w : world)
  (x : str) :
  In x (processed (Batch.load_checkpoint w)) ->
  (forall site now,
     dict_get (data (Batch.load_checkpoint (Batch.main site now st w))) x
     = dict_get (data (Batch.load_checkpoint w)) x) /\
  (forall site now,
     dict_get (data (Details.load_checkpoint (Details.main site now st w))) x
     = dict_get (data (Details.load_checkpoint w)) x).
Proof.
  intros Hx. split; intros site now.
  - eapply chain_data_other; [apply Batch_main_chain|].
    intros H. apply remaining_of_In in H. destruct H as [_ H]. auto.
  - eapply chain_data_other; [apply Details_main_chain|].
    intros H. apply remaining_of_In in H. destruct H as [_ H]. auto.
Qed.

Lemma earlier_records_are_untouched_witness :
  In EC001 (processed (Batch.load_checkpoint w_processed_before)) /\
  dict_get
    (data (Batch.load_checkpoint
             (Batch.main batch_site_down now0 two_standards
                w_processed_before))) EC001
  = dict_get (data (Batch.load_checkpoint w_processed_before)) EC001.
Proof.
  assert (H : In EC001 (processed (Batch.load_checkpoint w_processed_before)))
    by (left; reflexivity).
  split; [exact H|].
  exact (proj1 (earlier_records_are_untouched two_standards
                  w_processed_before EC001 H) batch_site_down now0).
Defined.

(** *** What is left for the next run *)

Lemma chain_remaining_failed st rem c c' x :
  chain rem c c' -> rem = remaining_of (load_ec_codes st) c ->
  In x (remaining_of (load_ec_codes st) c') -> In x (failed c').
Proof.
  intros Hc -> Hx. apply remaining_of_In in Hx. destruct Hx as [HU Hnp].
  destruct (universe_split st c x HU) as [H|H].
  - exfalso. apply Hnp. eapply chain_processed_grows; eauto.
  - destruct (chain_covers _ _ _ x Hc H); [contradiction|assumption].
Qed.

Lemma Batch_main_nothing_to_do site now st w :
  remaining_of (load_ec_codes st) (Batch.load_checkpoint w) = [] ->
  clock (Batch.main site now st w) = clock w /\
  checkpoint_file (Batch.main site now st w) = checkpoint_file w /\
  dispatched (events_since w (Batch.main site now st w)) = [].
Proof.
  intros H. unfold Batch.main. rewrite H. unfold Batch.save_final. simpl.
  repeat split. erewrite events_since_app; [|simpl; reflexivity]. reflexivity.
Qed.

Lemma Details_main_nothing_to_do site now st w :
  remaining_of (load_ec_codes st) (Details.load_checkpoint w) = [] ->
  clock (Details.main site now st w) = clock w /\
  checkpoint_file (Details.main site now st w) = checkpoint_file w /\
  dispatched (events_since w (Details.main site now st w)) = [].
Proof.
  intros H. unfold Details.main. rewrite H.
  unfold Details.save_final_output. simpl.
  repeat split. erewrite events_since_app; [|simpl; reflexivity]. reflexivity.
Qed.

Lemma nil_if_no_member (l : list str) : (forall x, ~ In x l) -> l = [].
Proof.
  destruct l as [|x l]; [reflexivity|]. intros H.
  destruct (H x). left. reflexivity.
Qed.

(** Whatever a complete run leaves for the next one is in its failed list;
    so when the failed list on disk is empty after a run, a further run, on
    any site, makes no attempt at all and leaves the checkpoint file as it
    is. *)
Theorem only_failures_are_left_over (st : list standard) (w : world) :
  (forall site now x,
     let c' := Batch.load_checkpoint (Batch.main site now st w) in
     In x (remaining_of (load_ec_codes st) c') -> In x (failed c')) /\
  (forall site now x,
     let c' := Details.load_checkpoint (Details.main site now st w) in
     In x (remaining_of (load_ec_codes st) c') -> In x (failed c')) /\
  (forall site now site' now',
     let w1 := Batch.main site now st w in
     failed (Batch.load_checkpoint w1) = [] ->
     clock (Batch.main site' now' st w1) = clock w1 /\
     checkpoint_file (Batch.main site' now' st w1) = checkpoint_file w1 /\
     dispatched (events_since w1 (Batch.main site' now' st w1)) = []) /\
  (forall site now site' now',
     let w1 := Details.main site now st w in
     failed (Details.load_checkpoint w1) = [] ->
     clock (Details.main site' now' st w1) = clock w1 /\
     checkpoint_file (Details.main site' now' st w1) = checkpoint_file w1 /\
     dispatched (events_since w1 (Details.main site' now' st w1)) = []).
Proof.
  assert (B : forall site now x,
            In x (remaining_of (load_ec_codes st)
                    (Batch.load_checkpoint (Batch.main site now st w))) ->
            In x (failed (Batch.load_checkpoint (Batch.main site now st w)))).
  { intros site now x.
    apply (chain_remaining_failed st _ _ _ x (Batch_main_chain site now st w)).
    reflexivity. }
  assert (D : forall site now x,
            In x (remaining_of (load_ec_codes st)
                    (Details.load_checkpoint (Details.main site now st w))) ->
            In x (failed
                    (Details.load_checkpoint (Details.main site now st w)))).
  { intros site now x.
    apply (chain_remaining_failed st _ _ _ x
             (Details_main_chain site now st w)).
    reflexivity. }
  split; [exact B|]. split; [exact D|]. split.
  - intros site now site' now'. cbv zeta. intros Hf.
    apply Batch_main_nothing_to_do. apply nil_if_no_member.
    intros x Hx. apply B in Hx. rewrite Hf in Hx. destruct Hx.
  - intros site now site' now'. cbv zeta. intros Hf.
    apply Details_main_nothing_to_do. apply nil_if_no_member.
    intros x Hx. apply D in Hx. rewrite Hf in Hx. destruct Hx.
Qed.

Lemma only_failures_are_left_over_witness :
  failed (Batch.load_checkpoint
            (Batch.main batch_site_up now0 two_standards w0)) = [] /\
  clock (Batch.main batch_site_down now0 two_standards
           (Batch.main batch_site_up now0 two_standards w0))
  = clock (Batch.main batch_site_up now0 two_standards w0).
Proof.
  assert (H : failed (Batch.load_checkpoint
                        (Batch.main batch_site_up now0 two_standards w0))
              = []) by (vm_compute; reflexivity).
  split; [exact H|].
  destruct (only_failures_are_left_over two_standards w0)
    as (_ & _ & G & _).
  exact (proj1 (G batch_site_up now0 batch_site_down now0 H)).
Defined.

(** *** Attempt budget *)

Lemma Batch_body_clock site now i code c w :
  clock w + 1 <= clock (snd (Batch.body site now i code c w))
  <= clock w + 3.
Proof.
  unfold Batch.body.
  destruct (Batch_process_ec_spec site now code 0 w)
    as (n & Hn & Hb & _ & Hc & _); [lia|].
  destruct (Batch.process_ec site now code 0 w) as [r w1].
  cbn [fst snd] in Hc.
  destruct ((i + 1) mod Batch.BATCH_SAVE_SIZE =? 0); simpl; lia.
Qed.

Lemma Details_body_clock site now bc code c w :
  clock w + 1 <= clock (snd (fst (Details.body site now bc code c w)))
  <= clock w + 4.
Proof.
  unfold Details.body.
  destruct (Details_process_ec_clock site now code 0 w) as [H1 H2]; [lia|].
  destruct (Details.process_ec site now code 0 w) as [r w1].
  cbn [fst snd] in H1, H2.
  destruct (Details.BATCH_SIZE <=? bc + 1); simpl; lia.
Qed.

Lemma Batch_loop_clock site now : forall rem i c w,
  clock w + length rem <= clock (snd (Batch.loop site now i rem c w))
  <= clock w + 3 * length rem.
Proof.
  induction rem as [|code rest IH]; intros i c w; simpl; [lia|].
  pose proof (Batch_body_clock site now i code c w) as Hb.
  destruct (Batch.body site now i code c w) as [c2 w2]. cbn [snd] in Hb.
  specialize (IH (S i) c2 w2). lia.
Qed.

Lemma Details_loop_clock site now : forall rem bc c w,
  clock w + length rem <= clock (snd (Details.loop site now bc rem c w))
  <= clock w + 4 * length rem.
Proof.
  induction rem as [|code rest IH]; intros bc c w; simpl; [lia|].
  pose proof (Details_body_clock site now bc code c w) as Hb.
  destruct (Details.body site now bc code c w) as [[c2 w2] bc'].
  cbn [fst snd] in Hb. specialize (IH bc' c2 w2). lia.
Qed.

(** A complete run makes at least one page attempt per remaining item and
    at most three (batch script), resp. four (details script). *)
Theorem attempts_per_run_are_bounded (st : list standard) (w : world) :
  (forall site now,
     let n := length (remaining_of (load_ec_codes st)
                        (Batch.load_checkpoint w)) in
     clock w + n <= clock (Batch.main site now st w) <= clock w + 3 * n) /\
  (forall site now,
     let n := length (remaining_of (load_ec_codes st)
                        (Details.load_checkpoint w)) in
     clock w + n <= clock (Details.main site now st w) <= clock w + 4 * n).
Proof.
  split; intros site now; cbv zeta.
  - unfold Batch.main.
    destruct (remaining_of (load_ec_codes st) (Batch.load_checkpoint w))
      as [|code rest] eqn:Hrem; [simpl; lia|].
    pose proof (Batch_loop_clock site now (code :: rest) 0
                  (Batch.load_checkpoint w) w) as Hl.
    destruct (Batch.loop site now 0 (code :: rest)
                (Batch.load_checkpoint w) w) as [c w1].
    cbn [snd] in Hl. simpl in *. lia.
  - unfold Details.main.
    destruct (remaining_of (load_ec_codes st) (Details.load_checkpoint w))
      as [|code rest] eqn:Hrem; [simpl; lia|].
    pose proof (Details_loop_clock site now (code :: rest) 0
                  (Details.load_checkpoint w) w) as Hl.
    destruct (Details.loop site now 0 (code :: rest)
                (Details.load_checkpoint w) w) as [c w1].
    cbn [snd] in Hl. simpl in *. lia.
Qed.

(** *** Work kept by a killed run *)

Lemma last_boundary k n :
  0 < n -> (k - k mod n) mod n = 0 /\ k - k mod n <= k.
Proof.
  intros Hn. pose proof (Nat.div_mod_eq k n).
  replace (k - k mod n) with (k / n * n) by lia.
  split; [apply Nat.Div0.mod_mul|lia].
Qed.

(** A run killed after [k] items has lost at most the items handled since
    the last save: every item among the first [k - k mod K] of the remaining
    ones (K the save cadence, 20 resp. 10) is in [processed] or [failed] of
    the checkpoint file. *)
Theorem killed_run_keeps_saved_batches (st : list standard) (w : world) :
  (forall site now k x,
     k <= length (remaining_of (load_ec_codes st) (Batch.load_checkpoint w)) ->
     In x (firstn (k - k mod Batch.BATCH_SAVE_SIZE)
             (remaining_of (load_ec_codes st) (Batch.load_checkpoint w))) ->
     let ck := Batch.load_checkpoint
                 (Batch.main_killed_after site now k st w) in
     In x (processed ck) \/ In x (failed ck)) /\
  (forall site now k x,
     k <= length (remaining_of (load_ec_codes st)
                    (Details.load_checkpoint w)) ->
     In x (firstn (k - k mod Details.BATCH_SIZE)
             (remaining_of (load_ec_codes st) (Details.load_checkpoint w))) ->
     let ck := Details.load_checkpoint
                 (Details.main_killed_after site now k st w) in
     In x (processed ck) \/ In x (failed ck)).
Proof.
  split; intros site now k x Hk Hx; cbv zeta.
  - destruct (last_boundary k Batch.BATCH_SAVE_SIZE) as [Hmod Hle];
      [unfold Batch.BATCH_SAVE_SIZE; lia|].
    destruct (Nat.eq_dec (k - k mod Batch.BATCH_SAVE_SIZE) 0) as [Hz|Hnz].
    { rewrite Hz in Hx. destruct Hx. }
    assert (E : Batch.load_checkpoint (Batch.main_killed_after site now k st w)
                = fst (Batch.loop site now 0
                         (firstn (k - k mod Batch.BATCH_SAVE_SIZE)
                            (remaining_of (load_ec_codes st)
                               (Batch.load_checkpoint w)))
                         (Batch.load_checkpoint w) w)).
    { unfold Batch.load_checkpoint at 1.
      rewrite Batch_killed_periodic,
        (Batch_killed_at_boundary site now _ st w) by (try assumption; lia).
      reflexivity. }
    rewrite E.
    eapply chain_covers; [apply Batch_loop_chain|exact Hx].
  - destruct (last_boundary k Details.BATCH_SIZE) as [Hmod Hle];
      [unfold Details.BATCH_SIZE; lia|].
    destruct (Nat.eq_dec (k - k mod Details.BATCH_SIZE) 0) as [Hz|Hnz].
    { rewrite Hz in Hx. destruct Hx. }
    assert (E : Details.load_checkpoint (Details.main_killed_after site now k st w)
                = fst (Details.loop site now 0
                         (firstn (k - k mod Details.BATCH_SIZE)
                            (remaining_of (load_ec_codes st)
                               (Details.load_checkpoint w)))
                         (Details.load_checkpoint w) w)).
    { unfold Details.load_checkpoint at 1.
      rewrite Details_killed_periodic,
        (Details_killed_at_boundary site now _ st w) by (try assumption; lia).
      reflexivity. }
    rewrite E.
    eapply chain_covers; [apply Details_loop_chain|exact Hx].
Qed.

Lemma killed_run_keeps_saved_batches_witness :
  let rem := remaining_of (load_ec_codes twenty_standards)
               (Details.load_checkpoint w0) in
  let ck := Details.load_checkpoint
              (Details.main_killed_after details_site_down now0 13
                 twenty_standards w0) in
  13 <= length rem /\
  In (py "EC00003") (firstn (13 - 13 mod Details.BATCH_SIZE) rem) /\
  (In (py "EC00003") (processed ck) \/ In (py "EC00003") (failed ck)).
Proof.
  cbv zeta.
  assert (H1 : 13 <= length (remaining_of (load_ec_codes twenty_standards)
                               (Details.load_checkpoint w0)))
    by (vm_compute; lia).
  assert (H2 : In (py "EC00003")
                 (firstn (13 - 13 mod Details.BATCH_SIZE)
                    (remaining_of (load_ec_codes twenty_standards)
                       (Details.load_checkpoint w0))))
    by (vm_compute; right; right; left; reflexivity).
  split; [exact H1|]. split; [exact H2|].
  exact (proj2 (killed_run_keeps_saved_batches twenty_standards w0)
           details_site_down now0 13 (py "EC00003") H1 H2).
Defined.

(** *** The export *)

Lemma list_sum_lengths (A B : Type) (g : A -> list B) : forall l,
  list_sum (map (fun x => length (g x)) l) = length (flat_map g l).
Proof.
  induction l as [|x l IH]; simpl; [reflexivity|].
  rewrite length_app, IH. reflexivity.
Qed.

Lemma set_of_list_length l : length (set_of_list l) <= length l.
Proof.
  destruct (set_of_list_spec l) as [ND Hin].
  apply NoDup_incl_length; [exact ND|]. intros x Hx. apply Hin. exact Hx.
Qed.

(** The export a complete run writes agrees with the checkpoint it leaves
    on disk: same records, same failed list, the counts of the summary are
    the sizes of these two, and the number of unique certifiers is at most
    the number of certifier relationships. *)
Theorem export_agrees_with_checkpoint (st : list standard) (w : world) :
  (forall site now,
     let w' := Batch.main site now st w in
     let c' := Batch.load_checkpoint w' in
     exists out sm,
       output_file w' = Some out /\ out_summary out = Some sm /\
       ec_details out = data c' /\ failed_ecs out = failed c' /\
       ecs_processed sm = length (data c') /\
       ecs_failed sm = length (failed c') /\
       unique_certifiers sm <= total_certifier_relationships sm) /\
  (forall site now,
     let w' := Details.main site now st w in
     let c' := Details.load_checkpoint w' in
     exists out,
       output_file w' = Some out /\
       ec_details out = data c' /\ failed_ecs out = failed c' /\
       total_ecs out = Some (length (data c'))).
Proof.
  assert (U : forall d : dict extraction,
            length (set_of_list
                      (flat_map (fun x => certifiers (x_record x))
                         (dict_values d)))
            <= sum_by certifiers d).
  { intros d. unfold sum_by.
    rewrite (list_sum_lengths _ _ (fun x => certifiers (x_record x))).
    apply set_of_list_length. }
  split; intros site now; cbv zeta.
  - unfold Batch.main.
    destruct (remaining_of (load_ec_codes st) (Batch.load_checkpoint w))
      as [|code rest].
    + eexists. eexists. simpl. repeat split. apply U.
    + destruct (Batch.loop site now 0 (code :: rest)
                  (Batch.load_checkpoint w) w) as [c w1].
      eexists. eexists. simpl. repeat split. apply U.
  - unfold Details.main.
    destruct (remaining_of (load_ec_codes st) (Details.load_checkpoint w))
      as [|code rest].
    + eexists. simpl. repeat split.
    + destruct (Details.loop site now 0 (code :: rest)
                  (Details.load_checkpoint w) w) as [c w1].
      eexists. simpl. repeat split.
Qed.

(** *** Records and codes *)

(** A record returned by [process_ec] is tagged with the requested code and
    holds what the page gave on the last attempt made; in the details
    script that page reported no error. *)
Theorem returned_record_comes_from_last_attempt (code : str) (w : world) :
  (forall site now d,
     fst (Batch.process_ec site now code 0 w) = Some d ->
     x_ec_code d = code /\
     site (clock (snd (Batch.process_ec site now code 0 w)) - 1) code
     = Batch.Returns (x_record d)) /\
  (forall site now d,
     fst (Details.process_ec site now code 0 w) = Some d ->
     x_ec_code d = code /\
     exists error,
       truthy error = false /\
       site (clock (snd (Details.process_ec site now code 0 w)) - 1) code
       = Details.Evaluated (x_record d) error).
Proof.
  split; intros site now d H.
  - apply Batch_process_ec_result. exact H.
  - apply Details_process_ec_result. exact H.
Qed.

Lemma returned_record_witness :
  fst (Batch.process_ec batch_site_up now0 EC001 0 w0)
  = Some (mk_ext full_record EC001 (now0 0)) /\
  x_ec_code (mk_ext full_record EC001 (now0 0)) = EC001.
Proof.
  assert (H : fst (Batch.process_ec batch_site_up now0 EC001 0 w0)
              = Some (mk_ext full_record EC001 (now0 0)))
    by (vm_compute; reflexivity).
  split; [exact H|].
  exact (proj1 (proj1 (returned_record_comes_from_last_attempt EC001 w0)
                  batch_site_up now0 _ H)).
Defined.

Lemma sorted_strict l :
  StronglySorted (holds str str_leb) l -> NoDup l ->
  StronglySorted (holds str str_ltb) l.
Proof.
  induction 1 as [|x l Hl IH Hx]; intros ND; [constructor|].
  inversion ND as [|? ? Hnot ND']; subst. constructor; [auto|].
  rewrite Forall_forall in *. intros y Hy. specialize (Hx y Hy).
  unfold holds, str_leb in *. apply negb_true_iff in Hx.
  destruct (str_ltb x y) eqn:Hxy; [reflexivity|].
  exfalso. apply Hnot. rewrite (str_ltb_connex x y Hxy Hx). exact Hy.
Qed.

Lemma truthy_some x : truthy (Some x) = true <-> x <> [].
Proof.
  destruct x; simpl; split; intros H; congruence.
Qed.

(** [load_ec_codes] yields the codes in strictly ascending order (so without
    duplicates), and a string is among them exactly when it is the
    non-empty [codigo] of a standard or, for a standard whose [codigo] is
    missing or empty, its non-empty [clave]. *)
Theorem load_ec_codes_sorted_set (standards : list standard) :
  StronglySorted (holds str str_ltb) (load_ec_codes standards) /\
  forall x,
    In x (load_ec_codes standards) <->
    x <> [] /\
    exists s, In s standards /\
              (codigo s = Some x \/
               (truthy (codigo s) = false /\ clave s = Some x)).
Proof.
  split.
  - apply sorted_strict; [|apply load_ec_codes_NoDup].
    apply sort_sorted; [exact str_leb_total|exact str_leb_trans].
  - intros x. unfold load_ec_codes.
    rewrite sorted_strs_In.
    rewrite (proj2 (set_of_list_spec _) x), in_flat_map. split.
    + intros (s & Hs & Hx). unfold code_of in Hx.
      destruct (truthy (codigo s)) eqn:Hc.
      * rewrite Hc in Hx. destruct (codigo s) as [y|] eqn:Hy;
          [|discriminate]. destruct Hx as [<-|[]].
        split; [apply truthy_some; exact Hc|]. exists s. auto.
      * destruct (truthy (clave s)) eqn:Hcl; [|destruct Hx].
        destruct (clave s) as [y|] eqn:Hy; [|discriminate].
        destruct Hx as [<-|[]].
        split; [apply truthy_some; exact Hcl|]. exists s. auto.
    + intros (Hne & s & Hs & H). exists s. split; [exact Hs|].
      apply truthy_some in Hne. unfold code_of.
      destruct H as [Hc|[Hc Hcl]].
      * rewrite Hc, Hne. cbn iota. rewrite Hne. left. reflexivity.
      * rewrite Hc, Hcl, Hne. left. reflexivity.
Qed.

(** ** Further properties of the registry builder *)

(** *** The normalizer *)

Lemma normalize_core_nil : normalize_core [] = [].
Proof. unfold normalize_core. simp sub. reflexivity. Qed.

Lemma normalize_name_core s :
  normalize_name s = normalize_core (strip (lower s)).
Proof.
  destruct s as [|c s]; [symmetry; apply normalize_core_nil|].
  apply normalize_name_cons.
Qed.

Lemma lstrip_all_space : forall s, forallb isspace s = true -> lstrip s = [].
Proof.
  induction s as [|c s IH]; simpl; intros H; [reflexivity|].
  apply andb_prop in H. destruct H as [Hc Hs]. rewrite Hc. auto.
Qed.

Lemma forallb_isspace_lower s :
  forallb isspace (lower s) = forallb isspace s.
Proof.
  unfold lower. induction s as [|c s IH]; simpl; [reflexivity|].
  rewrite isspace_lower1, IH. reflexivity.
Qed.

(** Every normalized key is lower case, free of periods, commas, semicolons
    and colons, has no white space but SPACE characters, and neither starts
    nor ends with white space. *)
Theorem normalized_key_shape (name : str) :
  Forall is_lower (normalize_name name) /\
  Forall not_punct (normalize_name name) /\
  Forall space_only (normalize_name name) /\
  no_lead (normalize_name name) /\
  no_trail (normalize_name name).
Proof.
  destruct (normalize_name_shape name) as (H1 & H2 & H3 & H4).
  cbv zeta in *. repeat split; try assumption.
  - rewrite <- H4. unfold strip. apply rstrip_no_lead, lstrip_no_lead.
  - rewrite <- H4. unfold strip. apply rstrip_no_trail.
Qed.

(** [normalize_name] ignores letter case and white space around the name:
    two names that agree once lower-cased and stripped have the same key. *)
Theorem normalize_name_ignores_case_and_outer_space (s1 s2 : str) :
  strip (lower s1) = strip (lower s2) ->
  normalize_name s1 = normalize_name s2.
Proof.
  intros H. rewrite !normalize_name_core, H. reflexivity.
Qed.

Lemma normalize_name_ignores_case_witness :
  strip (lower (py "  INSTITUTO abc ")) = strip (lower (py "Instituto ABC"))
  /\ normalize_name (py "  INSTITUTO abc ")
     = normalize_name (py "Instituto ABC").
Proof.
  assert (H : strip (lower (py "  INSTITUTO abc "))
              = strip (lower (py "Instituto ABC")))
    by (vm_compute; reflexivity).
  split; [exact H|].
  exact (normalize_name_ignores_case_and_outer_space _ _ H).
Defined.

(** A name made of white space only has the empty key. *)
Theorem normalize_name_of_blank (s : str) :
  forallb isspace s = true -> normalize_name s = [].
Proof.
  intros H. rewrite normalize_name_core.
  assert (E : strip (lower s) = []).
  { unfold strip.
    rewrite lstrip_all_space by (rewrite forallb_isspace_lower; exact H).
    reflexivity. }
  rewrite E. apply normalize_core_nil.
Qed.

Lemma normalize_name_of_blank_witness :
  forallb isspace (py "   ") = true /\ normalize_name (py "   ") = [].
Proof.
  assert (H : forallb isspace (py "   ") = true) by reflexivity.
  split; [exact H|]. exact (normalize_name_of_blank _ H).
Defined.

(** *** The grouping maps, exactly *)

Lemma kept_dec floor n : {kept floor n} + {~ kept floor n}.
Proof.
  unfold kept. destruct (le_dec floor (length n));
    destruct (list_eq_dec ascii_dec (normalize_name n) []);
    try (right; intros [? ?]; contradiction).
  left. auto.
Qed.

Lemma dict_get_set (V : Type) (d : dict V) k v k' :
  dict_get (dict_set d k v) k' =
  if list_eq_dec ascii_dec k' k then Some v else dict_get d k'.
Proof.
  destruct (list_eq_dec ascii_dec k' k) as [->|Hne].
  - apply dict_get_set_same.
  - apply dict_get_set_other. assumption.
Qed.

Section GroupsExact.
Variable V : Type.
Variables nm cd : V -> list str.
Variable floor : nat.
Variable dflt : V.
Variable step : str -> dict V -> str -> dict V.
Hypothesis dflt_empty : nm dflt = [] /\ cd dflt = [].
Hypothesis step_skip :
  forall code mp cert, ~ kept floor cert -> step code mp cert = mp.
Hypothesis step_keep :
  forall code mp cert, kept floor cert ->
    exists v',
      step code mp cert = dict_set mp (normalize_name cert) v' /\
      nm v' = set_add cert (nm (old_group V dflt mp cert)) /\
      cd v' = set_add code (cd (old_group V dflt mp cert)).

Lemma groups_exact_nil : groups_exact V nm cd floor [] [].
Proof.
  split.
  - intros k a H. discriminate.
  - intros code n [].
Qed.

Lemma group_exact_more seen k ns cs code cert :
  group_exact floor seen k ns cs ->
  (kept floor cert -> normalize_name cert <> k) ->
  group_exact floor (seen ++ [(code, cert)]) k ns cs.
Proof.
  intros (N1 & N2 & Hn & Hc) Hother.
  split; [assumption|]. split; [assumption|]. split.
  - intros n. rewrite Hn. split.
    + intros (Hk & Hnorm & c & H).
      split; [assumption|]. split; [assumption|].
      exists c. apply in_app_iff. auto.
    + intros (Hk & Hnorm & c & H).
      split; [assumption|]. split; [assumption|].
      apply in_app_iff in H. destruct H as [H|[H|[]]]; [eauto|].
      inversion H; subst. destruct (Hother Hk). reflexivity.
  - intros c. rewrite Hc. split.
    + intros (n & H & Hk & Hnorm). exists n.
      split; [apply in_app_iff; auto|]. split; assumption.
    + intros (n & H & Hk & Hnorm).
      apply in_app_iff in H. destruct H as [H|[H|[]]].
      * exists n. split; [assumption|]. split; assumption.
      * inversion H; subst. destruct (Hother Hk). reflexivity.
Qed.

Lemma groups_exact_step seen mp code cert :
  groups_exact V nm cd floor seen mp ->
  groups_exact V nm cd floor (seen ++ [(code, cert)]) (step code mp cert).
Proof.
  intros [G1 G2]. destruct (kept_dec floor cert) as [Hk|Hk].
  - destruct (step_keep code mp cert Hk) as (v' & -> & Hnm & Hcd).
    (* what was under the key before *)
    assert (Hold : group_exact floor seen (normalize_name cert)
                     (nm (old_group V dflt mp cert))
                     (cd (old_group V dflt mp cert))).
    { unfold old_group.
      destruct (dict_get mp (normalize_name cert)) as [e|] eqn:Hget.
      - apply G1. assumption.
      - destruct dflt_empty as [-> ->].
        split; [constructor|]. split; [constructor|]. split.
        + intros n. split; [intros []|].
          intros (Hk' & Hn' & c & H).
          destruct (G2 c n H Hk') as (a & Ha). rewrite Hn' in Ha.
          congruence.
        + intros c. split; [intros []|].
          intros (n & H & Hk' & Hn').
          destruct (G2 c n H Hk') as (a & Ha). rewrite Hn' in Ha.
          congruence. }
    destruct Hold as (N1 & N2 & Hn & Hc).
    split.
    + intros k a Hget. rewrite dict_get_set in Hget.
      destruct (list_eq_dec ascii_dec k (normalize_name cert)) as [->|Hne].
      * inversion Hget; subst a. rewrite Hnm, Hcd.
        split; [apply set_add_NoDup; assumption|].
        split; [apply set_add_NoDup; assumption|]. split.
        -- intros n. rewrite set_add_In, Hn. split.
           ++ intros [->|(Hk' & Hn' & c & H)].
              ** repeat split; try apply Hk. exists code.
                 apply in_app_iff. right. left. reflexivity.
              ** repeat split; try assumption; try apply Hk'.
                 exists c. apply in_app_iff. auto.
           ++ intros (Hk' & Hn' & c & H).
              apply in_app_iff in H. destruct H as [H|[H|[]]].
              ** right. eauto.
              ** inversion H. auto.
        -- intros c. rewrite set_add_In, Hc. split.
           ++ intros [->|(n & H & Hk' & Hn')].
              ** exists cert. repeat split; try apply Hk.
                 apply in_app_iff. right. left. reflexivity.
              ** exists n. repeat split; try assumption; try apply Hk'.
                 apply in_app_iff. auto.
           ++ intros (n & H & Hk' & Hn').
              apply in_app_iff in H. destruct H as [H|[H|[]]].
              ** right. eauto.
              ** inversion H. auto.
      * apply group_exact_more; [apply G1; assumption|].
        intros _ Heq. apply Hne. symmetry. exact Heq.
    + intros c n H Hk'. rewrite dict_get_set.
      destruct (list_eq_dec ascii_dec (normalize_name n)
                  (normalize_name cert)); [eauto|].
      apply in_app_iff in H. destruct H as [H|[H|[]]].
      * eapply G2; eauto.
      * inversion H; subst. congruence.
  - rewrite (step_skip code mp cert Hk). split.
    + intros k a Hget. apply group_exact_more; [apply G1; assumption|].
      intros H. contradiction.
    + intros c n H Hk'. apply in_app_iff in H.
      destruct H as [H|[H|[]]]; [eapply G2; eauto|].
      inversion H; subst. contradiction.
Qed.

Lemma groups_exact_fold : forall l seen mp,
  groups_exact V nm cd floor seen mp ->
  groups_exact V nm cd floor (seen ++ l)
    (fold_left (fun m p => step (fst p) m (snd p)) l mp).
Proof.
  induction l as [|[code cert] l IH]; intros seen mp H; simpl.
  - rewrite app_nil_r. assumption.
  - replace (seen ++ (code, cert) :: l) with ((seen ++ [(code, cert)]) ++ l)
      by (rewrite <- app_assoc; reflexivity).
    apply IH. apply groups_exact_step. assumption.
Qed.
End GroupsExact.

Lemma fold_left_name_pairs (A : Type) (f : ec_record -> list str)
  (step : str -> A -> str -> A) : forall ec_data a,
  fold_left (fun m kv => fold_left (step (fst kv)) (f (snd kv)) m) ec_data a
  = fold_left (fun m p => step (fst p) m (snd p)) (name_pairs f ec_data) a.
Proof.
  unfold name_pairs.
  induction ec_data as [|kv ec_data IH]; intros a; simpl; [reflexivity|].
  rewrite fold_left_app, <- IH. f_equal.
  generalize (f (snd kv)) a. clear.
  induction l as [|n l IH]; intros a; simpl; [reflexivity|]. apply IH.
Qed.

Lemma not_kept_test floor cert :
  1 <= floor ->
  is_empty cert || (length cert <? floor) = true \/
  is_empty (normalize_name cert) = true <->
  ~ kept floor cert.
Proof.
  intros Hf. unfold kept. split.
  - intros [H|H] [Hl Hn].
    + apply orb_true_iff in H. destruct H as [H|H].
      * destruct cert; [simpl in Hl; lia|discriminate].
      * apply Nat.ltb_lt in H. lia.
    + destruct (normalize_name cert); [congruence|discriminate].
  - intros H.
    destruct (is_empty cert || (length cert <? floor)) eqn:E; [auto|].
    right. destruct (normalize_name cert) eqn:En; [reflexivity|].
    exfalso. apply H. apply orb_false_iff in E. destruct E as [_ E].
    apply Nat.ltb_ge in E. split; [assumption|discriminate].
Qed.

Lemma ece_collect_exact ec_data :
  groups_exact ece_acc names acc_ec_codes 3 (name_pairs certifiers ec_data)
    (ece_collect ec_data).
Proof.
  unfold ece_collect. rewrite (fold_left_name_pairs _ certifiers ece_step).
  apply (groups_exact_fold ece_acc names acc_ec_codes 3 ece_default ece_step)
    with (seen := []); [split; reflexivity| | |apply groups_exact_nil].
  - intros code mp cert H. apply not_kept_test in H; [|lia].
    unfold ece_step. destruct H as [->| ->]; [reflexivity|].
    destruct (is_empty cert || (length cert <? 3)); reflexivity.
  - intros code mp cert H. unfold ece_step.
    destruct (is_empty cert || (length cert <? 3)) eqn:E1.
    { exfalso. apply (proj1 (not_kept_test 3 cert ltac:(lia))); auto. }
    destruct (is_empty (normalize_name cert)) eqn:E2.
    { exfalso. apply (proj1 (not_kept_test 3 cert ltac:(lia))); auto. }
    eexists. split; [reflexivity|]. split; reflexivity.
Qed.

Lemma ccap_collect_exact ec_data :
  groups_exact ccap_acc c_names c_ec_codes 5 (name_pairs courses ec_data)
    (ccap_collect ec_data).
Proof.
  unfold ccap_collect. rewrite (fold_left_name_pairs _ courses ccap_step).
  apply (groups_exact_fold ccap_acc c_names c_ec_codes 5 ccap_default
           ccap_step)
    with (seen := []); [split; reflexivity| | |apply groups_exact_nil].
  - intros code mp cert H. apply not_kept_test in H; [|lia].
    unfold ccap_step. destruct H as [->| ->]; [reflexivity|].
    destruct (is_empty cert || (length cert <? 5)); reflexivity.
  - intros code mp cert H. unfold ccap_step.
    destruct (is_empty cert || (length cert <? 5)) eqn:E1.
    { exfalso. apply (proj1 (not_kept_test 5 cert ltac:(lia))); auto. }
    destruct (is_empty (normalize_name cert)) eqn:E2.
    { exfalso. apply (proj1 (not_kept_test 5 cert ltac:(lia))); auto. }
    eexists. split; [reflexivity|]. split; reflexivity.
Qed.

(** *** Entries of the registries *)

Lemma name_pairs_In f ec_data code n :
  In (code, n) (name_pairs f ec_data) <-> listed f ec_data code n.
Proof.
  unfold name_pairs, listed. rewrite in_flat_map. split.
  - intros ([c r] & Hin & H). apply in_map_iff in H.
    destruct H as (n' & Heq & Hn). simpl in *. inversion Heq; subst.
    exists r. auto.
  - intros (r & Hin & Hn). exists (code, r). split; [assumption|].
    apply in_map_iff. exists n. auto.
Qed.

Lemma In_dict_get (V : Type) : forall (d : dict V) k v,
  NoDup (dict_keys d) -> In (k, v) d -> dict_get d k = Some v.
Proof.
  induction d as [|[k' v'] d IH]; intros k v ND Hin; [destruct Hin|].
  simpl in *. inversion ND as [|? ? Hnot ND']; subst.
  destruct Hin as [Heq|Hin].
  - inversion Heq; subst. rewrite str_eqb_refl. reflexivity.
  - destruct (str_eqb k k') eqn:E.
    + apply str_eqb_eq in E. subst. exfalso. apply Hnot.
      apply in_map_iff. exists (k', v). auto.
    + apply IH; assumption.
Qed.

Lemma set_remove_In x y l : In y (set_remove x l) <-> In y l /\ y <> x.
Proof.
  unfold set_remove. rewrite filter_In, negb_true_iff.
  split; intros [H1 H2]; (split; [assumption|]).
  - intros ->. rewrite str_eqb_refl in H2. discriminate.
  - destruct (str_eqb y x) eqn:E; [|reflexivity].
    apply str_eqb_eq in E. contradiction.
Qed.

Lemma sorted_strs_strict l :
  NoDup l -> StronglySorted (holds str str_ltb) (sorted_strs l).
Proof.
  intros ND. apply sorted_strict.
  - apply sort_sorted; [exact str_leb_total|exact str_leb_trans].
  - eapply Permutation_NoDup; [|exact ND].
    apply Permutation_sym, sorted_strs_perm.
Qed.

Lemma sorted_strs_length l : length (sorted_strs l) = length l.
Proof. apply Permutation_length, sorted_strs_perm. Qed.

Lemma group_entry_codes floor f ec_data e k ns cs :
  group_exact floor (name_pairs f ec_data) k ns cs -> ns <> [] ->
  normalized_key e = k ->
  ec_codes e = sorted_strs cs -> ec_count e = length cs ->
  codes_exact floor f ec_data e.
Proof.
  intros (N1 & N2 & Hn & Hc) Hne Hk Hcs Hcount. unfold codes_exact.
  rewrite Hcs, Hcount, Hk, sorted_strs_length.
  split; [reflexivity|]. split; [|split].
  - destruct ns as [|n ns]; [congruence|].
    destruct (proj1 (Hn n) (or_introl eq_refl)) as (Hkept & Hnorm & c & H).
    assert (Hin : In c cs) by (apply Hc; eauto).
    destruct cs; [destruct Hin|simpl; lia].
  - apply sorted_strs_strict. assumption.
  - intros code. rewrite sorted_strs_In, Hc. split.
    + intros (n & H & H'). exists n. split; [|assumption].
      apply name_pairs_In. assumption.
    + intros (n & H & H'). exists n. split; [|assumption].
      apply name_pairs_In. assumption.
Qed.

Lemma group_entry_names order floor f ec_data e k ns cs :
  iteration_order order ->
  group_exact floor (name_pairs f ec_data) k ns cs -> ns <> [] ->
  normalized_key e = k ->
  canonical_name e = max_by_len order ns ->
  alternate_names e = sorted_strs (set_remove (max_by_len order ns) ns) ->
  names_exact floor f ec_data e.
Proof.
  intros Hord (N1 & N2 & Hn & Hc) Hne Hk Hcan Halt.
  unfold names_exact, entry_names. rewrite Hcan, Halt, Hk.
  assert (ND : NoDup (set_remove (max_by_len order ns) ns))
    by (apply NoDup_filter; assumption).
  split; [|split; [|split]].
  - constructor.
    + rewrite sorted_strs_In, set_remove_In. intros [_ H]. congruence.
    + eapply Permutation_NoDup; [|exact ND].
      apply Permutation_sym, sorted_strs_perm.
  - intros n.
    assert (E : In n (max_by_len order ns
                      :: sorted_strs (set_remove (max_by_len order ns) ns))
                <-> In n ns).
    { simpl. rewrite sorted_strs_In, set_remove_In. split.
      - intros [<-|[H _]]; [apply max_by_len_In|]; assumption.
      - intros H. destruct (list_eq_dec ascii_dec n (max_by_len order ns));
          [left; congruence|right; auto]. }
    rewrite E, Hn. split.
    + intros (H1 & H2 & c & H3). split; [assumption|].
      split; [assumption|]. exists c. apply name_pairs_In. assumption.
    + intros (H1 & H2 & c & H3). split; [assumption|].
      split; [assumption|]. exists c. apply name_pairs_In. assumption.
  - apply Forall_forall. intros n H.
    apply sorted_strs_In, set_remove_In in H.
    apply max_by_len_max; [exact Hord|apply H].
  - apply sorted_strs_strict. assumption.
Qed.

Lemma ece_registry_group order ec_data e :
  In e (build_ece_registry order ec_data) ->
  exists a,
    group_exact 3 (name_pairs certifiers ec_data) (normalized_key e)
      (names a) (acc_ec_codes a) /\
    names a <> [] /\
    In (normalized_key e, a) (ece_collect ec_data) /\
    canonical_name e = max_by_len order (names a) /\
    alternate_names e
    = sorted_strs (set_remove (max_by_len order (names a)) (names a)) /\
    e_entity_type e = acc_entity_type a /\
    ec_codes e = sorted_strs (acc_ec_codes a) /\
    ec_count e = length (acc_ec_codes a).
Proof.
  intros H.
  destruct (ece_registry_entry order ec_data e H) as (k & a & Hin & Heq).
  destruct (ece_collect_wf ec_data) as [ND Hg].
  assert (Hk : normalized_key e = k)
    by exact (f_equal normalized_key Heq).
  exists a. rewrite Hk. split.
  - apply (proj1 (ece_collect_exact ec_data)).
    apply In_dict_get; assumption.
  - split; [apply (Hg k a Hin)|]. split; [assumption|].
    split; [exact (f_equal canonical_name Heq)|].
    split; [exact (f_equal alternate_names Heq)|].
    split; [exact (f_equal e_entity_type Heq)|].
    split; [exact (f_equal ec_codes Heq)|exact (f_equal ec_count Heq)].
Qed.

Lemma ccap_registry_group order ec_data e :
  In e (build_ccap_registry order ec_data) ->
  exists a,
    group_exact 5 (name_pairs courses ec_data) (normalized_key e)
      (c_names a) (c_ec_codes a) /\
    c_names a <> [] /\
    In (normalized_key e, a) (ccap_collect ec_data) /\
    canonical_name e = max_by_len order (c_names a) /\
    alternate_names e
    = sorted_strs
        (set_remove (max_by_len order (c_names a)) (c_names a)) /\
    e_entity_type e = None /\
    ec_codes e = sorted_strs (c_ec_codes a) /\
    ec_count e = length (c_ec_codes a).
Proof.
  intros H.
  destruct (ccap_registry_entry order ec_data e H) as (k & a & Hin & Heq).
  destruct (ccap_collect_wf ec_data) as [ND Hg].
  assert (Hk : normalized_key e = k)
    by exact (f_equal normalized_key Heq).
  exists a. rewrite Hk. split.
  - apply (proj1 (ccap_collect_exact ec_data)).
    apply In_dict_get; assumption.
  - split; [apply (Hg k a Hin)|]. split; [assumption|].
    split; [exact (f_equal canonical_name Heq)|].
    split; [exact (f_equal alternate_names Heq)|].
    split; [exact (f_equal e_entity_type Heq)|].
    split; [exact (f_equal ec_codes Heq)|exact (f_equal ec_count Heq)].
Qed.

(** Every entry of the certifier registry carries, in [ec_codes], exactly
    the work items that list a name of at least three characters with a
    non-empty key equal to the key of the entry; the codes are in strictly
    ascending order, there is at least one, and [ec_count] is their
    number. *)
Theorem ece_entry_codes (order : list str -> list str)
  (ec_data : dict ec_record) (e : entry) :
  In e (build_ece_registry order ec_data) ->
  codes_exact 3 certifiers ec_data e.
Proof.
  intros H. destruct (ece_registry_group order ec_data e H)
    as (a & G & Hne & _ & _ & _ & _ & Hcs & Hcount).
  exact (group_entry_codes 3 certifiers ec_data e _ _ _ G Hne eq_refl
           Hcs Hcount).
Qed.

(** The canonical name and the alternates of an entry of the certifier
    registry are pairwise distinct and are exactly the names of the input
    that pass the floor of three characters and normalize to the key of the
    entry; no alternate is longer than the canonical name, and the
    alternates are listed in strictly ascending order. *)
Theorem ece_entry_names (order : list str -> list str)
  (ec_data : dict ec_record) (e : entry) :
  iteration_order order ->
  In e (build_ece_registry order ec_data) ->
  names_exact 3 certifiers ec_data e.
Proof.
  intros Hord H. destruct (ece_registry_group order ec_data e H)
    as (a & G & Hne & _ & Hcan & Halt & _).
  exact (group_entry_names order 3 certifiers ec_data e _ _ _ Hord G Hne
           eq_refl Hcan Halt).
Qed.

(** The course registry is built the same way from the course lists, with
    a floor of five characters, and its entries carry no entity type. *)
Theorem ccap_entry_structure (order : list str -> list str)
  (ec_data : dict ec_record) (e : entry) :
  iteration_order order ->
  In e (build_ccap_registry order ec_data) ->
  codes_exact 5 courses ec_data e /\
  names_exact 5 courses ec_data e /\
  e_entity_type e = None.
Proof.
  intros Hord H. destruct (ccap_registry_group order ec_data e H)
    as (a & G & Hne & _ & Hcan & Halt & Hty & Hcs & Hcount).
  split; [|split; [|assumption]].
  - exact (group_entry_codes 5 courses ec_data e _ _ _ G Hne eq_refl
             Hcs Hcount).
  - exact (group_entry_names order 5 courses ec_data e _ _ _ Hord G Hne
             eq_refl Hcan Halt).
Qed.

Lemma ece_entry_codes_witness :
  In scenario_entry (build_ece_registry insertion_order scenario) /\
  codes_exact 3 certifiers scenario scenario_entry.
Proof.
  assert (H : In scenario_entry (build_ece_registry insertion_order scenario))
    by (vm_compute; left; reflexivity).
  split; [exact H|].
  exact (ece_entry_codes insertion_order scenario scenario_entry H).
Defined.

Lemma ece_entry_names_witness :
  iteration_order insertion_order /\
  In scenario_entry (build_ece_registry insertion_order scenario) /\
  names_exact 3 certifiers scenario scenario_entry.
Proof.
  assert (H : In scenario_entry (build_ece_registry insertion_order scenario))
    by (vm_compute; left; reflexivity).
  split; [exact insertion_order_is_an_order|]. split; [exact H|].
  exact (ece_entry_names insertion_order scenario scenario_entry
           insertion_order_is_an_order H).
Defined.

Lemma ccap_entry_structure_witness :
  iteration_order insertion_order /\
  In course_entry (build_ccap_registry insertion_order course_records) /\
  codes_exact 5 courses course_records course_entry /\
  names_exact 5 courses course_records course_entry /\
  e_entity_type course_entry = None.
Proof.
  assert (H : In course_entry
                (build_ccap_registry insertion_order course_records))
    by (vm_compute; left; reflexivity).
  split; [exact insertion_order_is_an_order|]. split; [exact H|].
  exact (ccap_entry_structure insertion_order course_records course_entry
           insertion_order_is_an_order H).
Defined.

(** *** Keys, coverage and entity types *)

Lemma rank_keys prefix l :
  Permutation (map normalized_key (rank prefix l)) (map normalized_key l).
Proof.
  assert (E : forall l', map normalized_key (map no_id l')
                         = map normalized_key l').
  { intros l'. rewrite map_map. reflexivity. }
  rewrite <- (E (rank prefix l)), <- (E l). unfold rank.
  rewrite no_id_assign_ids. apply Permutation_map, Permutation_map.
  apply sort_perm.
Qed.

Lemma rank_In_conv prefix l e0 :
  In e0 l -> exists e, In e (rank prefix l) /\ no_id e = no_id e0.
Proof.
  intros H.
  assert (Hin : In (no_id e0) (map no_id (rank prefix l))).
  { unfold rank. rewrite no_id_assign_ids. apply in_map.
    eapply Permutation_in; [apply Permutation_sym, sort_perm|exact H]. }
  apply in_map_iff in Hin. destruct Hin as (e & Heq & Hin). eauto.
Qed.

Lemma ece_entries_keys order mp :
  map normalized_key (ece_entries order mp) = dict_keys mp.
Proof.
  assert (E : map normalized_key (map no_id (ece_entries order mp))
              = map normalized_key (ece_entries order mp))
    by (rewrite map_map; reflexivity).
  rewrite <- E, ece_entries_no_id, map_map. reflexivity.
Qed.

Lemma ccap_entries_keys order mp :
  map normalized_key (ccap_entries order mp) = dict_keys mp.
Proof.
  assert (E : map normalized_key (map no_id (ccap_entries order mp))
              = map normalized_key (ccap_entries order mp))
    by (rewrite map_map; reflexivity).
  rewrite <- E, ccap_entries_no_id, map_map. reflexivity.
Qed.

Lemma ece_registry_keys order ec_data :
  NoDup (map normalized_key (build_ece_registry order ec_data)).
Proof.
  eapply Permutation_NoDup; [apply Permutation_sym, rank_keys|].
  rewrite ece_entries_keys. apply (ece_collect_wf ec_data).
Qed.

(** No two entries of a registry share a normalized key: a key identifies
    its entry, in the certifier registry and in the course registry. *)
Theorem registry_keys_unique (order : list str -> list str)
  (ec_data : dict ec_record) :
  NoDup (map normalized_key (build_ece_registry order ec_data)) /\
  NoDup (map normalized_key (build_ccap_registry order ec_data)).
Proof.
  split; [apply ece_registry_keys|].
  eapply Permutation_NoDup; [apply Permutation_sym, rank_keys|].
  rewrite ccap_entries_keys. apply (ccap_collect_wf ec_data).
Qed.

Lemma entry_names_In order e ns n :
  iteration_order order ->
  ns <> [] ->
  canonical_name e = max_by_len order ns ->
  alternate_names e = sorted_strs (set_remove (max_by_len order ns) ns) ->
  In n (entry_names e) <-> In n ns.
Proof.
  intros Hord Hne Hcan Halt. unfold entry_names. rewrite Hcan, Halt. simpl.
  rewrite sorted_strs_In, set_remove_In. split.
  - intros [<-|[H _]]; [apply max_by_len_In|]; assumption.
  - intros H. destruct (list_eq_dec ascii_dec n (max_by_len order ns));
      [left; congruence|right; auto].
Qed.

Lemma ece_registry_has order ec_data k a :
  In (k, a) (ece_collect ec_data) ->
  exists e, In e (build_ece_registry order ec_data) /\
            no_id e = no_id (ece_entry order [] (k, a)).
Proof.
  intros Hin.
  assert (H : In (no_id (ece_entry order [] (k, a)))
                (map no_id (ece_entries order (ece_collect ec_data)))).
  { rewrite ece_entries_no_id.
    apply (in_map (fun kv => no_id (ece_entry order [] kv))). exact Hin. }
  apply in_map_iff in H. destruct H as (e1 & Heq & H1).
  destruct (rank_In_conv (py "ECE-") _ e1 H1) as (e & He & Heq').
  exists e. split; [exact He|congruence].
Qed.

(** Every name of at least three characters with a non-empty key that some
    work item lists is represented: the certifier registry has an entry
    under the key of the name, which counts that work item and has the
    name as its canonical name or among its alternates. *)
Theorem ece_registry_complete (order : list str -> list str)
  (ec_data : dict ec_record) (code n : str) :
  iteration_order order ->
  listed certifiers ec_data code n -> kept 3 n ->
  exists e,
    In e (build_ece_registry order ec_data) /\
    normalized_key e = normalize_name n /\
    In code (ec_codes e) /\
    In n (entry_names e).
Proof.
  intros Hord Hl Hk. apply name_pairs_In in Hl.
  destruct (ece_collect_exact ec_data) as [G1 G2].
  destruct (G2 code n Hl Hk) as (a & Hget).
  destruct (G1 _ _ Hget) as (N1 & N2 & Hn & Hc).
  assert (Hin : In n (names a)) by (apply Hn; eauto).
  destruct (ece_registry_has order ec_data _ a (dict_get_In _ _ _ _ Hget))
    as (e & He & Heq).
  exists e. split; [exact He|].
  split; [exact (f_equal normalized_key Heq)|]. split.
  - rewrite (f_equal ec_codes Heq : ec_codes e = _). simpl.
    apply sorted_strs_In, Hc. eauto.
  - apply (entry_names_In order e (names a)).
    + exact Hord.
    + intros E. rewrite E in Hin. destruct Hin.
    + exact (f_equal canonical_name Heq).
    + exact (f_equal alternate_names Heq).
    + exact Hin.
Qed.

Lemma ece_registry_complete_witness :
  iteration_order insertion_order /\
  listed certifiers scenario (py "EC001") (py "INSTITUTO ABC") /\
  kept 3 (py "INSTITUTO ABC") /\
  exists e,
    In e (build_ece_registry insertion_order scenario) /\
    normalized_key e = normalize_name (py "INSTITUTO ABC") /\
    In (py "EC001") (ec_codes e) /\
    In (py "INSTITUTO ABC") (entry_names e).
Proof.
  assert (Hl : listed certifiers scenario (py "EC001") (py "INSTITUTO ABC")).
  { eexists. split; [left; reflexivity|]. right. left. reflexivity. }
  assert (Hk : kept 3 (py "INSTITUTO ABC")).
  { split; [vm_compute; lia|vm_compute; discriminate]. }
  split; [exact insertion_order_is_an_order|].
  split; [exact Hl|]. split; [exact Hk|].
  exact (ece_registry_complete insertion_order scenario _ _
           insertion_order_is_an_order Hl Hk).
Defined.

Lemma type_step ns t cert :
  (ns = [] /\ t = None) \/ type_ok ns t ->
  type_ok (set_add cert ns)
    (if unknown_or_none t then Some (tag_of cert) else t).
Proof.
  intros [[-> ->]|(tag & -> & Hu & Hk)].
  - simpl. exists (tag_of cert). split; [reflexivity|]. split.
    + intros E. repeat constructor. exact E.
    + intros _. exists cert. split; [left|]; reflexivity.
  - destruct tag; simpl;
      try (destruct (Hk ltac:(discriminate)) as (n & Hn & Ht);
           eexists; split; [reflexivity|]; split; [discriminate|];
           intros _; exists n; split; [apply set_add_In; auto|exact Ht]).
    exists (tag_of cert). split; [reflexivity|]. split.
    + intros E. apply Forall_forall. intros n Hn.
      apply set_add_In in Hn. destruct Hn as [->|Hn]; [exact E|].
      specialize (Hu eq_refl). rewrite Forall_forall in Hu. auto.
    + intros _. exists cert. split; [apply set_add_In; auto|reflexivity].
Qed.

Lemma ece_collect_types ec_data : forall k a,
  In (k, a) (ece_collect ec_data) -> type_ok (names a) (acc_entity_type a).
Proof.
  unfold ece_collect.
  apply (fold_left_inv _ _
           (fun mp : dict ece_acc =>
              forall k a, In (k, a) mp ->
                          type_ok (names a) (acc_entity_type a)));
    [|intros k a []].
  intros mp kv Hmp. apply fold_left_inv; [|assumption].
  clear. intros mp cert Hmp k a. unfold ece_step.
  destruct (is_empty cert || (length cert <? 3)); [apply Hmp|].
  destruct (is_empty (normalize_name cert)); [apply Hmp|].
  intros H. apply dict_set_In in H. destruct H as [[_ ->]|H];
    [|exact (Hmp _ _ H)].
  simpl. apply type_step.
  destruct (dict_get mp (normalize_name cert)) as [e0|] eqn:Hget.
  - right. apply (Hmp (normalize_name cert)). apply dict_get_In. exact Hget.
  - left. split; reflexivity.
Qed.

(** Every entry of the certifier registry has an entity type.  It is
    [Unknown] only if none of the names of the entry shows a legal form;
    otherwise it is the legal form that one of its names shows. *)
Theorem ece_entity_type (order : list str -> list str)
  (ec_data : dict ec_record) (e : entry) :
  iteration_order order ->
  In e (build_ece_registry order ec_data) ->
  type_ok (entry_names e) (e_entity_type e).
Proof.
  intros Hord H. destruct (ece_registry_group order ec_data e H)
    as (a & _ & Hne & Hin & Hcan & Halt & Hty & _).
  destruct (ece_collect_types ec_data _ _ Hin) as (tag & Ht & Hu & Hk).
  exists tag. rewrite Hty. split; [exact Ht|]. split.
  - intros E. apply Forall_forall. intros n Hn.
    apply (entry_names_In order e (names a) n Hord Hne Hcan Halt) in Hn.
    specialize (Hu E). rewrite Forall_forall in Hu. auto.
  - intros E. destruct (Hk E) as (n & Hn & Hnt). exists n.
    split; [|exact Hnt].
    apply (entry_names_In order e (names a) n Hord Hne Hcan Halt). exact Hn.
Qed.

Lemma ece_entity_type_witness :
  iteration_order insertion_order /\
  In scenario_entry (build_ece_registry insertion_order scenario) /\
  type_ok (entry_names scenario_entry) (e_entity_type scenario_entry).
Proof.
  assert (H : In scenario_entry (build_ece_registry insertion_order scenario))
    by (vm_compute; left; reflexivity).
  split; [exact insertion_order_is_an_order|]. split; [exact H|].
  exact (ece_entity_type insertion_order scenario scenario_entry
           insertion_order_is_an_order H).
Defined.

(** *** Two builds over the same records *)

Lemma listed_perm f d1 d2 c n :
  Permutation d1 d2 -> listed f d1 c n -> listed f d2 c n.
Proof.
  intros P (r & Hin & Hn). exists r. split; [|exact Hn].
  exact (Permutation_in _ P Hin).
Qed.

Lemma name_pairs_perm f d1 d2 c n :
  Permutation d1 d2 ->
  In (c, n) (name_pairs f d1) <-> In (c, n) (name_pairs f d2).
Proof.
  intros P. rewrite !name_pairs_In. split; apply listed_perm.
  - exact P.
  - apply Permutation_sym. exact P.
Qed.

Lemma no_length_tie_perm floor f d1 d2 :
  Permutation d1 d2 -> no_length_tie floor f d1 -> no_length_tie floor f d2.
Proof.
  intros P H c1 c2 n1 n2 L1 L2 K1 K2 Hk Hl.
  pose proof (Permutation_sym P) as P'.
  destruct (H c1 c2 n1 n2 (listed_perm f _ _ _ _ P' L1)
              (listed_perm f _ _ _ _ P' L2) K1 K2 Hk Hl)
    as [E|(c3 & n3 & L3 & K3 & Hk3 & Hl3)]; [left; exact E|].
  right. exists c3, n3. split; [exact (listed_perm f _ _ _ _ P L3)|].
  split; [exact K3|]. split; assumption.
Qed.

Lemma sorted_strs_of_perm l1 l2 :
  Permutation l1 l2 -> sorted_strs l1 = sorted_strs l2.
Proof.
  intros P. unfold sorted_strs.
  apply (sorted_perm_unique str str_leb).
  - apply sort_sorted; [exact str_leb_total|exact str_leb_trans].
  - apply sort_sorted; [exact str_leb_total|exact str_leb_trans].
  - rewrite !sort_perm. exact P.
  - intros x y _ _ Hxy Hyx. apply str_leb_antisym; assumption.
Qed.

Lemma set_remove_perm x l1 l2 :
  NoDup l1 -> NoDup l2 -> Permutation l1 l2 ->
  Permutation (set_remove x l1) (set_remove x l2).
Proof.
  intros N1 N2 P. apply NoDup_Permutation.
  - apply NoDup_filter. exact N1.
  - apply NoDup_filter. exact N2.
  - intros y. rewrite !set_remove_In. split; intros [H1 H2];
      (split; [|exact H2]).
    + exact (Permutation_in _ P H1).
    + exact (Permutation_in _ (Permutation_sym P) H1).
Qed.

(** Two groups with the same key, built from the same records in any
    order, hold the same names and the same work items. *)
Lemma group_exact_same floor f d1 d2 k ns1 cs1 ns2 cs2 :
  Permutation d1 d2 ->
  group_exact floor (name_pairs f d1) k ns1 cs1 ->
  group_exact floor (name_pairs f d2) k ns2 cs2 ->
  Permutation ns1 ns2 /\ Permutation cs1 cs2.
Proof.
  intros P (N1 & M1 & Hn1 & Hc1) (N2 & M2 & Hn2 & Hc2). split.
  - apply NoDup_Permutation; [exact N1|exact N2|].
    intros n. rewrite Hn1, Hn2. split.
    + intros (K & E & c & H). split; [exact K|]. split; [exact E|].
      exists c. apply (name_pairs_perm f d1 d2 c n P). exact H.
    + intros (K & E & c & H). split; [exact K|]. split; [exact E|].
      exists c. apply (name_pairs_perm f d1 d2 c n P). exact H.
  - apply NoDup_Permutation; [exact M1|exact M2|].
    intros c. rewrite Hc1, Hc2. split.
    + intros (n & H & K & E). exists n.
      split; [apply (name_pairs_perm f d1 d2 c n P); exact H|].
      split; assumption.
    + intros (n & H & K & E). exists n.
      split; [apply (name_pairs_perm f d1 d2 c n P); exact H|].
      split; assumption.
Qed.

(** Without a tie for the longest name, every iteration order picks the
    same canonical name. *)
Lemma canonical_same order1 order2 floor f d k ns1 cs1 ns2 :
  iteration_order order1 -> iteration_order order2 ->
  no_length_tie floor f d ->
  group_exact floor (name_pairs f d) k ns1 cs1 ->
  Permutation ns1 ns2 -> ns1 <> [] ->
  max_by_len order1 ns1 = max_by_len order2 ns2.
Proof.
  intros O1 O2 Htie (N1 & M1 & Hn & Hc) P Hne.
  assert (Hne2 : ns2 <> []).
  { intros E. rewrite E in P. apply Permutation_sym, Permutation_nil in P.
    contradiction. }
  pose proof (max_by_len_In order1 ns1 O1 Hne) as I1.
  pose proof (max_by_len_In order2 ns2 O2 Hne2) as I2.
  apply (Permutation_in _ (Permutation_sym P)) in I2.
  assert (L1 : length (max_by_len order2 ns2)
               <= length (max_by_len order1 ns1))
    by (apply max_by_len_max; assumption).
  assert (L2 : length (max_by_len order1 ns1)
               <= length (max_by_len order2 ns2)).
  { apply max_by_len_max; [exact O2|].
    exact (Permutation_in _ P I1). }
  destruct (proj1 (Hn _) I1) as (K1 & E1 & c1 & H1).
  destruct (proj1 (Hn _) I2) as (K2 & E2 & c2 & H2).
  apply name_pairs_In in H1, H2.
  destruct (Htie c1 c2 _ _ H1 H2 K1 K2 (eq_trans E1 (eq_sym E2))
              ltac:(lia)) as [E|(c3 & n3 & L3 & K3 & E3 & Hlt)];
    [exact E|].
  exfalso.
  assert (I3 : In n3 ns1).
  { apply Hn. split; [exact K3|]. split; [congruence|].
    exists c3. apply name_pairs_In. exact L3. }
  pose proof (max_by_len_max order1 ns1 n3 O1 I3). lia.
Qed.

Lemma group_core_same order1 order2 floor f d1 d2 k ns1 cs1 ns2 cs2 :
  iteration_order order1 -> iteration_order order2 ->
  Permutation d1 d2 -> no_length_tie floor f d1 ->
  group_exact floor (name_pairs f d1) k ns1 cs1 ->
  group_exact floor (name_pairs f d2) k ns2 cs2 ->
  ns1 <> [] ->
  group_core order1 k ns1 cs1 = group_core order2 k ns2 cs2.
Proof.
  intros O1 O2 P Htie G1 G2 Hne.
  destruct (group_exact_same floor f d1 d2 k ns1 cs1 ns2 cs2 P G1 G2)
    as [Pn Pc].
  pose proof (canonical_same order1 order2 floor f d1 k ns1 cs1 ns2
                O1 O2 Htie G1 Pn Hne) as Hcan.
  unfold group_core. rewrite Hcan.
  rewrite (sorted_strs_of_perm _ _ Pc), (Permutation_length Pc).
  rewrite (sorted_strs_of_perm
             (set_remove (max_by_len order2 ns2) ns1)
             (set_remove (max_by_len order2 ns2) ns2)); [reflexivity|].
  destruct G1 as (N1 & _). destruct G2 as (N2 & _).
  apply set_remove_perm; assumption.
Qed.

Section TwoBuilds.
Variable V : Type.
Variables nm cd : V -> list str.
Variable floor : nat.
Variable f : ec_record -> list str.
Variable collect : dict ec_record -> dict V.
Hypothesis collect_wf : forall d, groups_wf V nm floor (collect d).
Hypothesis collect_exact :
  forall d, groups_exact V nm cd floor (name_pairs f d) (collect d).

Lemma cores_incl order1 order2 d1 d2 x :
  iteration_order order1 -> iteration_order order2 ->
  Permutation d1 d2 -> no_length_tie floor f d1 ->
  In x (map (fun kv => group_core order1 (fst kv) (nm (snd kv))
                         (cd (snd kv))) (collect d1)) ->
  In x (map (fun kv => group_core order2 (fst kv) (nm (snd kv))
                         (cd (snd kv))) (collect d2)).
Proof.
  intros O1 O2 P Htie Hx. apply in_map_iff in Hx.
  destruct Hx as ([k a1] & <- & Hin). simpl.
  destruct (collect_wf d1) as [ND Hg].
  destruct (Hg k a1 Hin) as [Hne Hall].
  destruct (collect_exact d1) as [E1 _].
  destruct (collect_exact d2) as [E2 F2].
  pose proof (E1 k a1 (In_dict_get V _ _ _ ND Hin)) as G1.
  assert (Hex : exists n, In n (nm a1)).
  { destruct (nm a1) as [|n ns]; [congruence|].
    exists n. left. reflexivity. }
  destruct Hex as [n In1].
  destruct (proj1 (proj1 (proj2 (proj2 G1)) n) In1) as (K & Ek & c & Hp).
  apply (name_pairs_perm f d1 d2 c n P) in Hp.
  destruct (F2 c n Hp K) as (a2 & Hget). rewrite Ek in Hget.
  apply in_map_iff. exists (k, a2). simpl.
  split; [|apply dict_get_In; exact Hget].
  symmetry.
  apply (group_core_same order1 order2 floor f d1 d2); try assumption.
  apply E2. exact Hget.
Qed.

Lemma cores_perm order1 order2 d1 d2 :
  iteration_order order1 -> iteration_order order2 ->
  Permutation d1 d2 -> no_length_tie floor f d1 ->
  Permutation
    (map (fun kv => group_core order1 (fst kv) (nm (snd kv)) (cd (snd kv)))
       (collect d1))
    (map (fun kv => group_core order2 (fst kv) (nm (snd kv)) (cd (snd kv)))
       (collect d2)).
Proof.
  intros O1 O2 P Htie.
  assert (ND : forall order d,
            NoDup (map (fun kv => group_core order (fst kv) (nm (snd kv))
                                    (cd (snd kv))) (collect d))).
  { intros order d. apply (NoDup_map_inv normalized_key).
    rewrite map_map. simpl. apply (collect_wf d). }
  apply NoDup_Permutation; [apply ND|apply ND|].
  intros x. split.
  - apply cores_incl; assumption.
  - apply cores_incl; try assumption.
    + apply Permutation_sym. exact P.
    + exact (no_length_tie_perm floor f d1 d2 P Htie).
Qed.
End TwoBuilds.

Lemma no_type_assign_ids prefix : forall l i,
  assign_ids prefix i (map no_type l) = map no_type (assign_ids prefix i l).
Proof.
  induction l as [|e l IH]; intros i; simpl; [reflexivity|].
  rewrite IH. reflexivity.
Qed.

Lemma rank_no_type prefix l :
  rank prefix (map no_type l) = map no_type (rank prefix l).
Proof.
  unfold rank.
  rewrite (sort_map _ _ no_type entry_leb entry_leb); [|reflexivity].
  apply no_type_assign_ids.
Qed.

Lemma rank_perm prefix l :
  Permutation (map no_id (rank prefix l)) (map no_id l).
Proof.
  unfold rank. rewrite no_id_assign_ids. apply Permutation_map, sort_perm.
Qed.

Lemma rank_canonical_distinct prefix l :
  NoDup (map canonical_name l) -> NoDup (map canonical_name (rank prefix l)).
Proof.
  intros ND. rewrite <- canonical_name_no_id.
  eapply Permutation_NoDup;
    [apply Permutation_map, Permutation_sym, rank_perm|].
  rewrite canonical_name_no_id. exact ND.
Qed.

Lemma ranks_agree prefix E1 E2 :
  Permutation (map no_type (map no_id E1)) (map no_type (map no_id E2)) ->
  NoDup (map canonical_name E1) ->
  map no_type (rank prefix E1) = map no_type (rank prefix E2).
Proof.
  intros P ND. rewrite <- !rank_no_type.
  apply rank_order_independent.
  - rewrite !map_map in *. exact P.
  - rewrite map_map. exact ND.
Qed.

Lemma no_type_id l :
  Forall (fun e => e_entity_type e = None) l -> map no_type l = l.
Proof.
  induction 1 as [|e l He _ IH]; simpl; [reflexivity|].
  rewrite IH. f_equal. destruct e; simpl in *. subst. reflexivity.
Qed.

Lemma ccap_registry_untyped order ec_data :
  Forall (fun e => e_entity_type e = None) (build_ccap_registry order ec_data).
Proof.
  apply Forall_forall. intros e He.
  destruct (ccap_registry_entry order ec_data e He) as (k & a & _ & Heq).
  exact (f_equal e_entity_type Heq).
Qed.

Lemma ece_builds_agree order1 order2 d1 d2 :
  iteration_order order1 -> iteration_order order2 ->
  Permutation d1 d2 -> no_length_tie 3 certifiers d1 ->
  map no_type (build_ece_registry order1 d1)
  = map no_type (build_ece_registry order2 d2).
Proof.
  intros O1 O2 P Htie. unfold build_ece_registry.
  apply ranks_agree; [|apply ece_canonical_distinct; exact O1].
  rewrite !ece_entries_no_id, !map_map.
  exact (cores_perm ece_acc names acc_ec_codes 3 certifiers ece_collect
           ece_collect_wf ece_collect_exact order1 order2 d1 d2 O1 O2 P Htie).
Qed.

Lemma ccap_builds_agree order1 order2 d1 d2 :
  iteration_order order1 -> iteration_order order2 ->
  Permutation d1 d2 -> no_length_tie 5 courses d1 ->
  build_ccap_registry order1 d1 = build_ccap_registry order2 d2.
Proof.
  intros O1 O2 P Htie.
  rewrite <- (no_type_id _ (ccap_registry_untyped order1 d1)).
  rewrite <- (no_type_id _ (ccap_registry_untyped order2 d2)).
  unfold build_ccap_registry.
  apply ranks_agree; [|apply ccap_canonical_distinct; exact O1].
  rewrite !ccap_entries_no_id, !map_map.
  exact (cores_perm ccap_acc c_names c_ec_codes 5 courses ccap_collect
           ccap_collect_wf ccap_collect_exact order1 order2 d1 d2 O1 O2 P
           Htie).
Qed.

Lemma ece_builds_equal order1 order2 d :
  iteration_order order1 -> iteration_order order2 ->
  no_length_tie 3 certifiers d ->
  build_ece_registry order1 d = build_ece_registry order2 d.
Proof.
  intros O1 O2 Htie. unfold build_ece_registry. f_equal.
  apply ece_entries_order. intros k a Hin.
  destruct (ece_collect_wf d) as [ND Hg].
  destruct (Hg k a Hin) as [Hne _].
  apply (canonical_same order1 order2 3 certifiers d k (names a)
           (acc_ec_codes a) (names a) O1 O2 Htie);
    [|apply Permutation_refl|exact Hne].
  apply (proj1 (ece_collect_exact d)). apply In_dict_get; assumption.
Qed.

(** C7 (as amended): each registry is the list of grouped entries, sorted
    by relation count descending, then canonical name ascending, with the
    ids the positions 1, 2, 3, ... in that order, and canonical names
    pairwise distinct.  Two builds over the same records, in any order of
    the records and under any two iteration orders of sets, yield the same
    keys, canonical names, alternate names, work items, counts and ids,
    provided no group has two longest names; from the records in the same
    order they then yield the same certifier registry, entity types
    included. *)
Theorem registries_ranked_with_sequential_ids
  (order1 order2 : list str -> list str)
  (ec_data1 ec_data2 : dict ec_record) :
  iteration_order order1 -> iteration_order order2 ->
  Permutation ec_data1 ec_data2 ->
  let ece := build_ece_registry order1 ec_data1 in
  let ccap := build_ccap_registry order1 ec_data1 in
  StronglySorted ranked_before ece /\
  StronglySorted ranked_before ccap /\
  map id ece = map (fun k => py "ECE-" ++ fmt05 k) (seq 1 (length ece)) /\
  map id ccap = map (fun k => py "CCAP-" ++ fmt05 k) (seq 1 (length ccap)) /\
  Permutation (map no_id ece)
    (map no_id (ece_entries order1 (ece_collect ec_data1))) /\
  Permutation (map no_id ccap)
    (map no_id (ccap_entries order1 (ccap_collect ec_data1))) /\
  NoDup (map canonical_name ece) /\
  NoDup (map canonical_name ccap) /\
  (no_length_tie 3 certifiers ec_data1 ->
   map no_type ece = map no_type (build_ece_registry order2 ec_data2) /\
   ece = build_ece_registry order2 ec_data1) /\
  (no_length_tie 5 courses ec_data1 ->
   ccap = build_ccap_registry order2 ec_data2).
Proof.
  intros O1 O2 P. cbv zeta.
  split; [apply rank_sorted|]. split; [apply rank_sorted|].
  split; [apply rank_ids|]. split; [apply rank_ids|].
  split; [apply rank_perm|]. split; [apply rank_perm|].
  split; [apply rank_canonical_distinct, ece_canonical_distinct; exact O1|].
  split; [apply rank_canonical_distinct, ccap_canonical_distinct; exact O1|].
  split.
  - intros Htie. split.
    + apply ece_builds_agree; assumption.
    + apply ece_builds_equal; assumption.
  - intros Htie. apply ccap_builds_agree; assumption.
Qed.

Lemma scenario_has_no_length_tie :
  no_length_tie 3 certifiers scenario /\ no_length_tie 5 courses scenario.
Proof.
  split.
  - intros c1 c2 n1 n2 (r1 & H1 & I1) (r2 & H2 & I2) _ _ _ Hl.
    destruct H1 as [E1|[E1|[]]]; inversion E1; subst; clear E1;
      destruct H2 as [E2|[E2|[]]]; inversion E2; subst; clear E2;
      simpl in I1, I2;
      repeat (destruct I1 as [I1|I1]; try contradiction);
      repeat (destruct I2 as [I2|I2]; try contradiction);
      subst; try (left; reflexivity); vm_compute in Hl; discriminate.
  - intros c1 c2 n1 n2 (r1 & H1 & I1) _ _ _ _ _.
    destruct H1 as [E1|[E1|[]]]; inversion E1; subst; destruct I1.
Qed.

Lemma registries_ranked_witness :
  iteration_order insertion_order /\ iteration_order reverse_order /\
  Permutation scenario scenario_swapped /\
  no_length_tie 3 certifiers scenario /\
  no_length_tie 5 courses scenario /\
  map no_type (build_ece_registry insertion_order scenario)
  = map no_type (build_ece_registry reverse_order scenario_swapped) /\
  build_ece_registry insertion_order scenario
  = build_ece_registry reverse_order scenario /\
  build_ccap_registry insertion_order scenario
  = build_ccap_registry reverse_order scenario_swapped.
Proof.
  assert (P : Permutation scenario scenario_swapped) by apply perm_swap.
  destruct scenario_has_no_length_tie as [T3 T5].
  destruct (registries_ranked_with_sequential_ids insertion_order
              reverse_order scenario scenario_swapped
              insertion_order_is_an_order reverse_order_is_an_order P)
    as (_ & _ & _ & _ & _ & _ & _ & _ & Hece & Hccap).
  split; [exact insertion_order_is_an_order|].
  split; [exact reverse_order_is_an_order|].
  split; [exact P|]. split; [exact T3|]. split; [exact T5|].
  split; [exact (proj1 (Hece T3))|].
  split; [exact (proj2 (Hece T3))|exact (Hccap T5)].
Defined.

(** C7 (as stated) fails: two builds over the same record, in two
    processes that iterate over sets in different orders, choose different
    canonical names for the certifier whose two spellings have the same
    length, and with them different positions and ids for both
    certifiers. *)
Lemma two_builds_can_differ :
  iteration_order insertion_order /\ iteration_order reverse_order /\
  map (fun e => (id e, normalized_key e, canonical_name e))
    (build_ece_registry insertion_order tie_records)
  = [ (py "ECE-00001", py "ab co", py "AB CO");
      (py "ECE-00002", py "ma co", py "Ma co") ] /\
  map (fun e => (id e, normalized_key e, canonical_name e))
    (build_ece_registry reverse_order tie_records)
  = [ (py "ECE-00001", py "ma co", py "Ma co");
      (py "ECE-00002", py "ab co", py "ab co") ].
Proof.
  split; [exact insertion_order_is_an_order|].
  split; [exact reverse_order_is_an_order|].
  split; vm_compute; reflexivity.
Qed.

(** *** The lookup matrix *)

Lemma dict_set_fresh (V : Type) : forall (d : dict V) k v,
  ~ In k (dict_keys d) -> dict_set d k v = d ++ [(k, v)].
Proof.
  induction d as [|[k' v'] d IH]; intros k v H; simpl in *; [reflexivity|].
  destruct (str_eqb k k') eqn:E.
  - apply str_eqb_eq in E. subst. exfalso. apply H. left. reflexivity.
  - rewrite IH; [reflexivity|]. intros Hin. apply H. right. exact Hin.
Qed.

Section FoldDictSet.
Variables A V : Type.
Variable key : A -> str.
Variable val : A -> V.

Lemma fold_dict_set_In : forall l (d : dict V) k v,
  In (k, v) (fold_left (fun m x => dict_set m (key x) (val x)) l d) ->
  In (k, v) d \/ exists x, In x l /\ k = key x /\ v = val x.
Proof.
  induction l as [|x l IH]; intros d k v H; simpl in *; [auto|].
  apply IH in H. destruct H as [H|(y & Hy & E)].
  - apply dict_set_In in H. destruct H as [[-> ->]|H]; [|auto].
    right. exists x. auto.
  - right. exists y. auto.
Qed.

Lemma fold_dict_set_fresh : forall l (d : dict V),
  NoDup (dict_keys d ++ map key l) ->
  fold_left (fun m x => dict_set m (key x) (val x)) l d
  = d ++ map (fun x => (key x, val x)) l.
Proof.
  induction l as [|x l IH]; intros d ND; simpl.
  - rewrite app_nil_r. reflexivity.
  - simpl in ND. rewrite dict_set_fresh.
    + rewrite IH.
      * rewrite <- app_assoc. reflexivity.
      * unfold dict_keys. rewrite map_app. simpl.
        rewrite <- app_assoc. exact ND.
    + apply NoDup_remove_2 in ND. intros H. apply ND.
      apply in_app_iff. auto.
Qed.
End FoldDictSet.

Lemma norm_to_id_sound reg k i :
  dict_get (norm_to_id_of reg) k = Some i ->
  exists e, In e reg /\ normalized_key e = k /\ id e = i.
Proof.
  intros H. apply dict_get_In in H.
  apply (fold_dict_set_In entry str normalized_key id) in H.
  destruct H as [[]|(e & He & -> & ->)]. eauto.
Qed.

Lemma norm_to_id_complete reg e :
  NoDup (map normalized_key reg) -> In e reg ->
  dict_get (norm_to_id_of reg) (normalized_key e) = Some (id e).
Proof.
  intros ND He. unfold norm_to_id_of.
  rewrite (fold_dict_set_fresh entry str normalized_key id reg [] ND).
  simpl. apply In_dict_get.
  - unfold dict_keys. rewrite map_map. exact ND.
  - apply (in_map (fun x => (normalized_key x, id x))). exact He.
Qed.

Lemma row_ids_In nti certs i :
  In i (row_ids nti certs) <->
  exists cert, In cert certs /\ dict_get nti (normalize_name cert) = Some i.
Proof.
  unfold row_ids. rewrite in_flat_map. split.
  - intros (cert & Hc & H). exists cert. split; [exact Hc|].
    destruct (dict_get nti (normalize_name cert)); [|destruct H].
    destruct H as [->|[]]. reflexivity.
  - intros (cert & Hc & H). exists cert. split; [exact Hc|].
    rewrite H. left. reflexivity.
Qed.

Lemma matrix_row_of ec_data reg code row :
  In (code, row) (build_ec_ece_matrix ec_data reg) ->
  exists r,
    In (code, r) ec_data /\
    row = mk_row
            (sorted_strs
               (set_of_list (row_ids (norm_to_id_of reg) (certifiers r))))
            (length
               (set_of_list (row_ids (norm_to_id_of reg) (certifiers r))))
            (title r).
Proof.
  intros H. unfold build_ec_ece_matrix in H.
  apply (fold_dict_set_In (str * ec_record) matrix_row fst
           (fun kv =>
              mk_row
                (sorted_strs
                   (set_of_list
                      (row_ids (norm_to_id_of reg) (certifiers (snd kv)))))
                (length
                   (set_of_list
                      (row_ids (norm_to_id_of reg) (certifiers (snd kv)))))
                (title (snd kv)))) in H.
  destruct H as [[]|([c r] & Hin & -> & ->)]. exists r. auto.
Qed.

Lemma matrix_get ec_data reg code r :
  NoDup (dict_keys ec_data) -> In (code, r) ec_data ->
  dict_get (build_ec_ece_matrix ec_data reg) code
  = Some (mk_row
            (sorted_strs
               (set_of_list (row_ids (norm_to_id_of reg) (certifiers r))))
            (length
               (set_of_list (row_ids (norm_to_id_of reg) (certifiers r))))
            (title r)).
Proof.
  intros ND Hin. unfold build_ec_ece_matrix.
  rewrite (fold_dict_set_fresh (str * ec_record) matrix_row fst _ ec_data []
             ND).
  simpl. apply In_dict_get.
  - unfold dict_keys. rewrite map_map. exact ND.
  - apply in_map_iff. exists (code, r). split; [reflexivity|exact Hin].
Qed.

Lemma matrix_keys ec_data reg :
  NoDup (dict_keys ec_data) ->
  dict_keys (build_ec_ece_matrix ec_data reg) = dict_keys ec_data.
Proof.
  intros ND. unfold build_ec_ece_matrix.
  rewrite (fold_dict_set_fresh (str * ec_record) matrix_row fst _ ec_data []
             ND).
  simpl. unfold dict_keys. rewrite map_map. reflexivity.
Qed.

Lemma matrix_has_id ec_data reg code r e cert :
  NoDup (dict_keys ec_data) -> NoDup (map normalized_key reg) ->
  In (code, r) ec_data -> In e reg -> In cert (certifiers r) ->
  normalize_name cert = normalized_key e ->
  exists row,
    dict_get (build_ec_ece_matrix ec_data reg) code = Some row /\
    In (id e) (ece_ids row).
Proof.
  intros ND NDk Hin He Hc Hn. eexists. split; [apply matrix_get; eassumption|].
  simpl. apply sorted_strs_In, (proj2 (set_of_list_spec _)), row_ids_In.
  exists cert. split; [exact Hc|]. rewrite Hn.
  apply norm_to_id_complete; assumption.
Qed.

(** Every row of the matrix belongs to a record of the input with the same
    code and carries its title; its ids are in strictly ascending order
    (so without duplicates), [ece_count] is their number, and each id is
    the id of a registry entry whose key is the normalized form of one of
    the certifier names of that record. *)
Theorem matrix_rows_are_sound (ec_data : dict ec_record) (reg : list entry)
  (code : str) (row : matrix_row) :
  dict_get (build_ec_ece_matrix ec_data reg) code = Some row ->
  exists r, In (code, r) ec_data /\ row_sound reg r row.
Proof.
  intros H. apply dict_get_In in H.
  destruct (matrix_row_of ec_data reg code row H) as (r & Hin & ->).
  exists r. split; [exact Hin|]. unfold row_sound. simpl.
  split; [reflexivity|]. split; [symmetry; apply sorted_strs_length|].
  split; [apply sorted_strs_strict, set_of_list_spec|].
  intros i Hi.
  apply sorted_strs_In, (proj2 (set_of_list_spec _)), row_ids_In in Hi.
  destruct Hi as (cert & Hc & Hget).
  destruct (norm_to_id_sound reg _ _ Hget) as (e & He & Hk & Hid).
  exists e, cert. auto.
Qed.

Lemma matrix_rows_are_sound_witness :
  dict_get (build_ec_ece_matrix scenario (build_ece_registry insertion_order scenario))
    (py "EC002") = Some scenario_row /\
  exists r, In (py "EC002", r) scenario /\
            row_sound (build_ece_registry insertion_order scenario) r scenario_row.
Proof.
  assert (H : dict_get
                (build_ec_ece_matrix scenario (build_ece_registry insertion_order scenario))
                (py "EC002") = Some scenario_row)
    by (vm_compute; reflexivity).
  split; [exact H|].
  exact (matrix_rows_are_sound scenario _ _ _ H).
Defined.

(** When the records have distinct codes and the registry entries distinct
    keys, the matrix has one row per record, in the order of the records,
    and the row of a record holds the id of every registry entry whose key
    is the normalized form of one of its certifier names. *)
Theorem matrix_covers_the_input (ec_data : dict ec_record)
  (reg : list entry) :
  NoDup (dict_keys ec_data) -> NoDup (map normalized_key reg) ->
  dict_keys (build_ec_ece_matrix ec_data reg) = dict_keys ec_data /\
  forall code r e cert,
    In (code, r) ec_data -> In e reg -> In cert (certifiers r) ->
    normalize_name cert = normalized_key e ->
    exists row,
      dict_get (build_ec_ece_matrix ec_data reg) code = Some row /\
      In (id e) (ece_ids row).
Proof.
  intros ND NDk. split; [apply matrix_keys; exact ND|].
  intros code r e cert. apply matrix_has_id; assumption.
Qed.

Lemma matrix_covers_the_input_witness :
  NoDup (dict_keys scenario) /\
  NoDup (map normalized_key [scenario_entry]) /\
  dict_keys (build_ec_ece_matrix scenario [scenario_entry])
  = dict_keys scenario /\
  forall code r e cert,
    In (code, r) scenario -> In e [scenario_entry] ->
    In cert (certifiers r) ->
    normalize_name cert = normalized_key e ->
    exists row,
      dict_get (build_ec_ece_matrix scenario [scenario_entry]) code
      = Some row /\
      In (id e) (ece_ids row).
Proof.
  assert (ND : NoDup (dict_keys scenario)).
  { repeat constructor; simpl; intuition discriminate. }
  assert (NDk : NoDup (map normalized_key [scenario_entry])).
  { repeat constructor; simpl; intuition. }
  split; [exact ND|]. split; [exact NDk|].
  exact (matrix_covers_the_input scenario [scenario_entry] ND NDk).
Defined.

(** The registry and the matrix built from the same records agree in one
    direction: when the records have distinct codes, the row of every work
    item that an entry of the certifier registry counts holds the id of
    that entry. *)
Theorem counted_work_items_reach_the_matrix (order : list str -> list str)
  (ec_data : dict ec_record) (e : entry) (code : str) :
  NoDup (dict_keys ec_data) ->
  In e (build_ece_registry order ec_data) -> In code (ec_codes e) ->
  exists row,
    dict_get (build_ec_ece_matrix ec_data (build_ece_registry order ec_data)) code
    = Some row /\
    In (id e) (ece_ids row).
Proof.
  intros ND He Hc.
  destruct (ece_registry_group order ec_data e He)
    as (a & G & Hne & _ & _ & _ & _ & Hcs & Hcount).
  destruct (group_entry_codes 3 certifiers ec_data e _ _ _ G Hne eq_refl
              Hcs Hcount) as (_ & _ & _ & Hiff).
  apply Hiff in Hc. destruct Hc as (n & (r & Hin & Hn) & _ & Hnorm).
  exact (matrix_has_id ec_data _ code r e n ND (ece_registry_keys order ec_data)
           Hin He Hn Hnorm).
Qed.

Lemma counted_work_items_witness :
  NoDup (dict_keys scenario) /\
  In scenario_entry (build_ece_registry insertion_order scenario) /\
  In (py "EC002") (ec_codes scenario_entry) /\
  exists row,
    dict_get (build_ec_ece_matrix scenario (build_ece_registry insertion_order scenario))
      (py "EC002") = Some row /\
    In (id scenario_entry) (ece_ids row).
Proof.
  assert (ND : NoDup (dict_keys scenario)).
  { repeat constructor; simpl; intuition discriminate. }
  assert (He : In scenario_entry (build_ece_registry insertion_order scenario))
    by (vm_compute; left; reflexivity).
  assert (Hc : In (py "EC002") (ec_codes scenario_entry))
    by (right; left; reflexivity).
  split; [exact ND|]. split; [exact He|]. split; [exact Hc|].
  exact (counted_work_items_reach_the_matrix insertion_order scenario
           scenario_entry _ ND He Hc).
Defined.

(** *** The statistics *)

Lemma count_if_le (A : Type) (p : A -> bool) l : count_if p l <= length l.
Proof.
  unfold count_if. induction l as [|x l IH]; simpl; [lia|].
  destruct (p x); simpl; lia.
Qed.

Lemma count_if_mono (A : Type) (p q : A -> bool) l :
  (forall x, p x = true -> q x = true) -> count_if p l <= count_if q l.
Proof.
  intros H. unfold count_if. induction l as [|x l IH]; simpl; [lia|].
  destruct (p x) eqn:Hp.
  - rewrite (H x Hp). simpl. lia.
  - destruct (q x); simpl; lia.
Qed.

Lemma count_if_disjoint (A : Type) (p q : A -> bool) l :
  (forall x, p x = true -> q x = false) ->
  count_if p l + count_if q l <= length l.
Proof.
  intros H. unfold count_if. induction l as [|x l IH]; simpl; [lia|].
  destruct (p x) eqn:Hp.
  - rewrite (H x Hp). simpl. lia.
  - destruct (q x); simpl; lia.
Qed.

Lemma nonempty_lists_sum (A B : Type) (g : A -> list B) l :
  count_if (fun d => negb (is_empty (g d))) l
  <= list_sum (map (fun d => length (g d)) l).
Proof.
  unfold count_if. induction l as [|x l IH]; simpl; [lia|].
  destruct (g x); simpl; lia.
Qed.

Lemma fold_max_head : forall cs c,
  Forall (fun x => x <= c) cs -> fold_left Nat.max cs c = c.
Proof.
  induction cs as [|x cs IH]; intros c H; simpl; [reflexivity|].
  inversion H; subst. rewrite Nat.max_l by assumption. apply IH. assumption.
Qed.

Lemma ranked_head_is_max e reg :
  StronglySorted ranked_before (e :: reg) ->
  Forall (fun x => ec_count x <= ec_count e) (e :: reg).
Proof.
  intros H. inversion H as [|? ? _ Hall]; subst. constructor; [lia|].
  eapply Forall_impl; [|exact Hall]. intros x [Hx|[Hx _]]; lia.
Qed.

(** The statistics over the registry the builder ranked.  The records with
    and without certifiers add up to the records processed, and there are
    at most as many records with certifiers as certifier relationships;
    the three threshold counts are consistent with each other and with the
    number of certifiers; the maximum is the count of the first entry,
    which no entry exceeds; and the top list names the first twenty
    entries at most. *)
Theorem stats_are_consistent (F : Type) (round2_div : nat -> nat -> F)
  (order : list str -> list str)
  (ec_data : dict ec_record) (ccap_registry : list entry)
  (matrix : dict matrix_row) :
  let reg := build_ece_registry order ec_data in
  let st := generate_stats round2_div ec_data reg ccap_registry matrix in
  let es := Stats.the_extraction_summary st in
  let rs := Stats.the_ece_registry_stats st in
  Stats.ecs_with_certifiers es + Stats.ecs_without_certifiers es
  = Stats.total_ecs_processed es /\
  Stats.total_ecs_processed es = length ec_data /\
  Stats.ecs_with_certifiers es <= Stats.total_certifier_relationships es /\
  Stats.certifiers_with_10plus_ecs rs <= Stats.certifiers_with_5plus_ecs rs /\
  Stats.certifiers_with_1_ec rs + Stats.certifiers_with_5plus_ecs rs
  <= Stats.unique_certifiers rs /\
  Stats.max_ecs_per_certifier rs
  = match reg with [] => 0 | e :: _ => ec_count e end /\
  Forall (fun e => 1 <= ec_count e <= Stats.max_ecs_per_certifier rs) reg /\
  length (Stats.top_20_certifiers st) = Nat.min 20 (length reg).
Proof.
  cbv zeta. unfold generate_stats.
  cbn [Stats.the_extraction_summary Stats.the_ece_registry_stats
       Stats.ecs_with_certifiers Stats.ecs_without_certifiers
       Stats.total_ecs_processed Stats.total_certifier_relationships
       Stats.certifiers_with_10plus_ecs Stats.certifiers_with_5plus_ecs
       Stats.certifiers_with_1_ec Stats.unique_certifiers
       Stats.max_ecs_per_certifier Stats.top_20_certifiers].
  assert (Hlen : length (dict_values ec_data) = length ec_data)
    by apply length_map.
  split; [|split; [reflexivity|split; [|split; [|split; [|split;
    [|split]]]]]].
  - pose proof (count_if_le _ (fun d => negb (is_empty (certifiers d)))
                  (dict_values ec_data)). lia.
  - apply nonempty_lists_sum.
  - apply count_if_mono. intros x H. apply Nat.leb_le in H.
    apply Nat.leb_le. lia.
  - rewrite <- (length_map ec_count (build_ece_registry order ec_data)).
    apply count_if_disjoint. intros x H. apply Nat.eqb_eq in H. subst.
    reflexivity.
  - pose proof (rank_sorted (py "ECE-")
                  (ece_entries order (ece_collect ec_data)))
      as Hs.
    fold (build_ece_registry order ec_data) in Hs.
    destruct (build_ece_registry order ec_data) as [|e reg]; [reflexivity|].
    simpl. apply fold_max_head.
    pose proof (ranked_head_is_max e reg Hs) as Hall.
    inversion Hall; subst. apply Forall_map. assumption.
  - pose proof (rank_sorted (py "ECE-")
                  (ece_entries order (ece_collect ec_data)))
      as Hs.
    fold (build_ece_registry order ec_data) in Hs.
    assert (Hone : Forall (fun e => 1 <= ec_count e)
                     (build_ece_registry order ec_data)).
    { apply Forall_forall. intros e He.
      destruct (ece_registry_group order ec_data e He)
        as (a & G & Hne & _ & _ & _ & _ & Hcs & Hcount).
      apply (group_entry_codes 3 certifiers ec_data e _ _ _ G Hne eq_refl
               Hcs Hcount). }
    destruct (build_ece_registry order ec_data) as [|e reg]; [constructor|].
    simpl. rewrite fold_max_head.
    + pose proof (ranked_head_is_max e reg Hs) as Hall.
      rewrite Forall_forall in *. intros x Hx.
      specialize (Hall x Hx). specialize (Hone x Hx). simpl in Hall. lia.
    + pose proof (ranked_head_is_max e reg Hs) as Hall.
      inversion Hall; subst. apply Forall_map. assumption.
  - rewrite length_map, length_firstn. reflexivity.
Qed.

(** *** The builder and the status checker after a run of the extractor *)

Lemma Batch_killed_output_file site now k st w :
  output_file (Batch.main_killed_after site now k st w) = output_file w.
Proof.
  unfold Batch.main_killed_after.
  destruct (Batch_loop_ok site now
              (firstn k (remaining_of (load_ec_codes st)
                           (Batch.load_checkpoint w)))
              0 (Batch.load_checkpoint w) w)
    as (t & S & F & _ & _ & H & _).
  exact H.
Qed.

Lemma Batch_killed_early site now k st w :
  k < Batch.BATCH_SAVE_SIZE ->
  checkpoint_file (Batch.main_killed_after site now k st w)
  = checkpoint_file w.
Proof.
  intros Hk. rewrite Batch_killed_periodic.
  rewrite (Nat.mod_small k _ Hk), Nat.sub_diag. reflexivity.
Qed.

Lemma Batch_killed_chain site now k st w :
  k <= length (remaining_of (load_ec_codes st) (Batch.load_checkpoint w)) ->
  exists j,
    j <= k /\
    chain (firstn j (remaining_of (load_ec_codes st)
                      (Batch.load_checkpoint w)))
      (Batch.load_checkpoint w)
      (Batch.load_checkpoint (Batch.main_killed_after site now k st w)).
Proof.
  intros Hk.
  destruct (last_boundary k Batch.BATCH_SAVE_SIZE) as [Hmod Hle];
    [unfold Batch.BATCH_SAVE_SIZE; lia|].
  exists (k - k mod Batch.BATCH_SAVE_SIZE). split; [exact Hle|].
  unfold Batch.load_checkpoint at 3. rewrite Batch_killed_periodic.
  destruct (Nat.eq_dec (k - k mod Batch.BATCH_SAVE_SIZE) 0) as [Hz|Hnz].
  - rewrite Hz. simpl. constructor. apply same_content_refl.
  - rewrite Batch_killed_at_boundary by lia. apply Batch_loop_chain.
Qed.

Lemma Batch_main_export site now st w :
  exists out,
    output_file (Batch.main site now st w) = Some out /\
    ec_details out = data (Batch.load_checkpoint (Batch.main site now st w)).
Proof.
  unfold Batch.main.
  destruct (remaining_of (load_ec_codes st) (Batch.load_checkpoint w))
    as [|code rest].
  - eexists. simpl. split; reflexivity.
  - destruct (Batch.loop site now 0 (code :: rest)
                (Batch.load_checkpoint w) w) as [c w1].
    eexists. simpl. split; reflexivity.
Qed.

Lemma chain_data_keys rem c c' :
  chain rem c c' ->
  incl (dict_keys (data c)) (processed c) ->
  incl (dict_keys (data c')) (processed c').
Proof.
  induction 1 as [c c' (Hp & _ & Hd)|code rest c c1 c' Hrec _ IH];
    intros Hincl.
  - rewrite Hp, Hd. exact Hincl.
  - apply IH. destruct Hrec as [(d & _ & Hp & _ & Hd)|(Hp & _ & Hd)].
    + rewrite Hp, Hd. intros k Hk. rewrite dict_set_keys in Hk.
      apply in_app_iff.
      destruct (mem code (dict_keys (data c))); [left; auto|].
      apply in_app_iff in Hk. destruct Hk as [Hk|Hk]; [left; auto|right; auto].
    + rewrite Hp, Hd. exact Hincl.
Qed.

Lemma records_of_keys d : dict_keys (records_of d) = dict_keys d.
Proof. unfold records_of, dict_keys. rewrite map_map. reflexivity. Qed.

Lemma listed_key f ec_data code n :
  listed f ec_data code n -> In code (dict_keys ec_data).
Proof.
  intros (r & Hin & _). apply in_map_iff. exists (code, r). auto.
Qed.

Lemma ece_codes_are_keys order ec_data e code :
  In e (build_ece_registry order ec_data) -> In code (ec_codes e) ->
  In code (dict_keys ec_data).
Proof.
  intros He Hc.
  destruct (ece_registry_group order ec_data e He)
    as (a & G & Hne & _ & _ & _ & _ & Hcs & Hcount).
  destruct (group_entry_codes 3 certifiers ec_data e _ _ _ G Hne eq_refl
              Hcs Hcount) as (_ & _ & _ & Hiff).
  apply Hiff in Hc. destruct Hc as (n & Hl & _).
  exact (listed_key _ _ _ _ Hl).
Qed.

Lemma ccap_codes_are_keys order ec_data e code :
  In e (build_ccap_registry order ec_data) -> In code (ec_codes e) ->
  In code (dict_keys ec_data).
Proof.
  intros He Hc.
  destruct (ccap_registry_group order ec_data e He)
    as (a & G & Hne & _ & _ & _ & _ & Hcs & Hcount).
  destruct (group_entry_codes 5 courses ec_data e _ _ _ G Hne eq_refl
              Hcs Hcount) as (_ & _ & _ & Hiff).
  apply Hiff in Hc. destruct Hc as (n & Hl & _).
  exact (listed_key _ _ _ _ Hl).
Qed.

Lemma matrix_keys_are_keys ec_data reg code :
  In code (dict_keys (build_ec_ece_matrix ec_data reg)) ->
  In code (dict_keys ec_data).
Proof.
  intros H. apply in_map_iff in H. destruct H as ([c row] & <- & H).
  destruct (matrix_row_of ec_data reg c row H) as (r & Hin & _).
  apply in_map_iff. exists (c, r). auto.
Qed.

(** What the builder makes of a killed run of the batch extractor.  While
    an export of an earlier run is on disk the builder reads that export:
    what the killed run saved in the checkpoint does not change the
    builder's output.  On a fresh directory, a run killed before its first
    periodic save leaves the builder without input, and it writes
    nothing. *)
Theorem what_the_builder_sees_of_a_killed_run (F : Type)
  (round2_div : nat -> nat -> F) (order : list str -> list str)
  (st : list standard) (w : world)
  (timestamp : str) :
  (forall out site now k,
     output_file w = Some out ->
     Builder.main round2_div order timestamp
       (Batch.main_killed_after site now k st w)
     = Builder.main round2_div order timestamp w) /\
  (forall site now k,
     output_file w = None -> checkpoint_file w = None ->
     k < Batch.BATCH_SAVE_SIZE ->
     Builder.main round2_div order timestamp
       (Batch.main_killed_after site now k st w)
     = None).
Proof.
  split.
  - intros out site now k H. unfold Builder.main.
    rewrite Batch_killed_output_file, H. reflexivity.
  - intros site now k Ho Hc Hk. unfold Builder.main.
    rewrite Batch_killed_output_file, Ho, Batch_killed_early, Hc by exact Hk.
    reflexivity.
Qed.

Lemma what_the_builder_sees_witness :
  (exists out, output_file w_exported = Some out) /\
  Builder.main (fun _ _ => tt) insertion_order (now0 0)
    (Batch.main_killed_after batch_site_up now0 1 two_standards w_exported)
  = Builder.main (fun _ _ => tt) insertion_order (now0 0) w_exported /\
  output_file w0 = None /\ checkpoint_file w0 = None /\
  1 < Batch.BATCH_SAVE_SIZE /\
  Builder.main (fun _ _ => tt) insertion_order (now0 0)
    (Batch.main_killed_after batch_site_up now0 1 two_standards w0)
  = None.
Proof.
  assert (H1 : exists out, output_file w_exported = Some out)
    by (eexists; vm_compute; reflexivity).
  assert (H2 : 1 < Batch.BATCH_SAVE_SIZE) by (unfold Batch.BATCH_SAVE_SIZE; lia).
  split; [exact H1|]. destruct H1 as [out H1]. split.
  - exact (proj1 (what_the_builder_sees_of_a_killed_run unit (fun _ _ => tt)
                    insertion_order
                    two_standards w_exported (now0 0))
             out batch_site_up now0 1 H1).
  - split; [reflexivity|]. split; [reflexivity|]. split; [exact H2|].
    exact (proj2 (what_the_builder_sees_of_a_killed_run unit (fun _ _ => tt)
                    insertion_order
                    two_standards w0 (now0 0))
             batch_site_up now0 1 eq_refl eq_refl H2).
Defined.

(** After a complete run of the batch extractor the builder finds the
    export, and what it builds mentions processed items only: every work
    item counted by an entry of either registry, and every row of the
    matrix, belongs to an item of the processed list of the checkpoint --
    provided the checkpoint the run started from held records of processed
    items only. *)
Theorem build_mentions_only_processed_items (F : Type)
  (round2_div : nat -> nat -> F) (order : list str -> list str)
  (st : list standard) (w : world)
  (timestamp : str) :
  incl (dict_keys (data (Batch.load_checkpoint w)))
    (processed (Batch.load_checkpoint w)) ->
  forall site now,
    let w' := Batch.main site now st w in
    let c' := Batch.load_checkpoint w' in
    exists outs,
      Builder.main round2_div order timestamp w' = Some outs /\
      (forall e code,
         In e (Builder.registry (Builder.master_ece_registry outs)) ->
         In code (ec_codes e) -> In code (processed c')) /\
      (forall e code,
         In e (Builder.registry (Builder.master_ccap_registry outs)) ->
         In code (ec_codes e) -> In code (processed c')) /\
      (forall code,
         In code (dict_keys (Builder.matrix (Builder.ec_ece_matrix outs))) ->
         In code (processed c')).
Proof.
  intros Hincl site now. cbv zeta.
  destruct (Batch_main_export site now st w) as (out & Hout & Hdet).
  pose proof (chain_data_keys _ _ _ (Batch_main_chain site now st w) Hincl)
    as Hkeys.
  unfold Builder.main. rewrite Hout, Hdet.
  eexists. split; [reflexivity|]. simpl.
  split; [|split].
  - intros e code He Hc. apply Hkeys. rewrite <- records_of_keys.
    exact (ece_codes_are_keys order _ e code He Hc).
  - intros e code He Hc. apply Hkeys. rewrite <- records_of_keys.
    exact (ccap_codes_are_keys order _ e code He Hc).
  - intros code Hc. apply Hkeys. rewrite <- records_of_keys.
    exact (matrix_keys_are_keys _ _ code Hc).
Qed.

Lemma build_mentions_only_processed_witness :
  incl (dict_keys (data (Batch.load_checkpoint w0)))
    (processed (Batch.load_checkpoint w0)) /\
  exists outs,
    Builder.main (fun _ _ => tt) insertion_order (now0 0)
      (Batch.main batch_site_up now0 two_standards w0) = Some outs /\
    (forall e code,
       In e (Builder.registry (Builder.master_ece_registry outs)) ->
       In code (ec_codes e) ->
       In code (processed
                  (Batch.load_checkpoint
                     (Batch.main batch_site_up now0 two_standards w0)))) /\
    (forall e code,
       In e (Builder.registry (Builder.master_ccap_registry outs)) ->
       In code (ec_codes e) ->
       In code (processed
                  (Batch.load_checkpoint
                     (Batch.main batch_site_up now0 two_standards w0)))) /\
    (forall code,
       In code (dict_keys (Builder.matrix (Builder.ec_ece_matrix outs))) ->
       In code (processed
                  (Batch.load_checkpoint
                     (Batch.main batch_site_up now0 two_standards w0)))).
Proof.
  assert (H : incl (dict_keys (data (Batch.load_checkpoint w0)))
                (processed (Batch.load_checkpoint w0)))
    by (intros x []).
  split; [exact H|].
  exact (build_mentions_only_processed_items unit (fun _ _ => tt)
           insertion_order two_standards w0 (now0 0) H batch_site_up now0).
Defined.

Lemma load_ec_codes_length st : length (load_ec_codes st) <= length st.
Proof.
  unfold load_ec_codes. rewrite sorted_strs_length.
  eapply Nat.le_trans; [apply set_of_list_length|].
  induction st as [|s st IH]; simpl; [lia|].
  rewrite length_app.
  destruct (truthy (code_of s)); [destruct (code_of s)|]; simpl; lia.
Qed.

Lemma Status_processed_count w :
  Status.processed_count w = length (processed (Batch.load_checkpoint w)).
Proof.
  unfold Status.processed_count, Batch.load_checkpoint.
  destruct (checkpoint_file w); reflexivity.
Qed.

Lemma firstn_In (A : Type) j (l : list A) x : In x (firstn j l) -> In x l.
Proof.
  intros H. rewrite <- (firstn_skipn j l). apply in_app_iff. auto.
Qed.

Lemma firstn_NoDup (A : Type) j (l : list A) : NoDup l -> NoDup (firstn j l).
Proof.
  intros H. rewrite <- (firstn_skipn j l) in H.
  exact (NoDup_app_remove_r _ _ H).
Qed.

Lemma chain_within_universe codes rem c c' :
  chain rem c c' -> NoDup rem -> incl rem codes ->
  (forall x, In x rem -> ~ In x (processed c)) ->
  NoDup (processed c) -> incl (processed c) codes ->
  NoDup (processed c') /\ incl (processed c') codes.
Proof.
  intros Hch ND Hin Hfresh NDp Hp. split.
  - exact (chain_processed_NoDup rem c c' Hch ND Hfresh NDp).
  - destruct (chain_partition rem c c' Hch) as (S & F & -> & _ & Hperm).
    intros x Hx. apply in_app_iff in Hx. destruct Hx as [Hx|Hx]; [auto|].
    apply Hin. eapply Permutation_in; [exact Hperm|].
    apply in_app_iff. auto.
Qed.

Lemma Batch_disk_within_universe site now st w w' :
  NoDup (processed (Batch.load_checkpoint w)) ->
  incl (processed (Batch.load_checkpoint w)) (load_ec_codes st) ->
  (w' = Batch.main site now st w \/
   exists k,
     k <= length (remaining_of (load_ec_codes st) (Batch.load_checkpoint w))
     /\ w' = Batch.main_killed_after site now k st w) ->
  NoDup (processed (Batch.load_checkpoint w')) /\
  incl (processed (Batch.load_checkpoint w')) (load_ec_codes st).
Proof.
  intros NDp Hp Hw'.
  assert (Hrem : forall x,
            In x (remaining_of (load_ec_codes st) (Batch.load_checkpoint w)) ->
            In x (load_ec_codes st) /\
            ~ In x (processed (Batch.load_checkpoint w)))
    by (intros x; apply remaining_of_In).
  destruct Hw' as [->|(k & Hk & ->)].
  - apply (chain_within_universe _ _ _ _ (Batch_main_chain site now st w));
      try assumption.
    + apply remaining_of_NoDup.
    + intros x Hx. apply Hrem. exact Hx.
    + intros x Hx. apply Hrem. exact Hx.
  - destruct (Batch_killed_chain site now k st w Hk) as (j & _ & Hch).
    apply (chain_within_universe _ _ _ _ Hch); try assumption.
    + apply firstn_NoDup, remaining_of_NoDup.
    + intros x Hx. apply firstn_In in Hx. apply Hrem. exact Hx.
    + intros x Hx. apply firstn_In in Hx. apply Hrem. exact Hx.
Qed.

(** While an extractor process is alive, the status checker reports
    completion only when nothing is left to do: looking at the checkpoint
    that a run of the batch extractor has left on disk, during the run or
    at its end, it answers "complete" only if every standard of the
    standards file contributes a code of its own and every code is in the
    processed list.  The run is assumed to start from a checkpoint whose
    processed list holds codes of the standards file, each once. *)
Theorem complete_while_running_means_all_processed (st : list standard)
  (w : world) :
  NoDup (processed (Batch.load_checkpoint w)) ->
  incl (processed (Batch.load_checkpoint w)) (load_ec_codes st) ->
  forall site now w' flag,
    (w' = Batch.main site now st w \/
     exists k,
       k <= length (remaining_of (load_ec_codes st)
                      (Batch.load_checkpoint w))
       /\ w' = Batch.main_killed_after site now k st w) ->
    fst (Status.main flag true (Some st) w') = Status.Complete ->
    length (load_ec_codes st) = length st /\
    forall x, In x (load_ec_codes st) ->
              In x (processed (Batch.load_checkpoint w')).
Proof.
  intros NDp Hp site now w' flag Hw' Hc.
  destruct (Batch_disk_within_universe site now st w w' NDp Hp Hw')
    as [ND Hincl].
  assert (Hle : length st <= length (processed (Batch.load_checkpoint w'))).
  { unfold Status.main in Hc. rewrite Status_processed_count in Hc.
    simpl in Hc. rewrite orb_false_r in Hc.
    destruct (length st <=? length (processed (Batch.load_checkpoint w')))
      eqn:E; [apply Nat.leb_le; exact E|discriminate Hc]. }
  pose proof (load_ec_codes_length st) as H1.
  pose proof (NoDup_incl_length ND Hincl) as H2.
  split; [lia|].
  apply (NoDup_length_incl ND); [lia|exact Hincl].
Qed.

Lemma complete_while_running_witness :
  NoDup (processed (Batch.load_checkpoint w0)) /\
  incl (processed (Batch.load_checkpoint w0)) (load_ec_codes two_standards) /\
  fst (Status.main false true (Some two_standards)
         (Batch.main batch_site_up now0 two_standards w0))
  = Status.Complete /\
  length (load_ec_codes two_standards) = length two_standards /\
  forall x, In x (load_ec_codes two_standards) ->
            In x (processed
                    (Batch.load_checkpoint
                       (Batch.main batch_site_up now0 two_standards w0))).
Proof.
  assert (H1 : NoDup (processed (Batch.load_checkpoint w0)))
    by constructor.
  assert (H2 : incl (processed (Batch.load_checkpoint w0))
                 (load_ec_codes two_standards))
    by (intros x []).
  assert (H3 : fst (Status.main false true (Some two_standards)
                      (Batch.main batch_site_up now0 two_standards w0))
               = Status.Complete)
    by (vm_compute; reflexivity).
  split; [exact H1|]. split; [exact H2|]. split; [exact H3|].
  exact (complete_while_running_means_all_processed two_standards w0 H1 H2
           batch_site_up now0 _ false (or_introl eq_refl) H3).
Defined.
